(** * Image size converter: geometry, naming and batch driver

    A shallow embedding of [image_shrinker.py] (icon variants, "Tool A")
    and [resize_app_store_screenshots.py] (screenshot resizer, "Tool B").

    Python values are modelled as follows.
    - [int] is [Z]; [//] is [Z.div] (floor division).
    - [float] is IEEE binary64.  A finite double is represented by the exact
      rational it denotes ([Q]); every operation computes the exact rational
      result and rounds it to the nearest double, ties to even
      ([Float.round64]).  Overflow is an error, as it is in the source
      ([int / int] raises [OverflowError]; an infinite product reaches
      [round], which raises).
    - [str] is [string], a string of bytes: the case and whitespace rules
      are those of ASCII.  A call that may raise returns a [result], with
      [Raise e] for the exception.
    - The effects of a run (files opened and saved, directories created,
      lines printed) are a list of [Event]s in program order.
    - A Pillow image is a record of mode, size, EXIF orientation and a
      pixel function.  Sizes and coordinates are C ints in Pillow's core,
      and a colour channel is a byte.  Memory limits and the
      decompression-bomb guard are outside the model, and so are failures
      while saving, of the file system or of the encoder (which refuses an
      empty raster, as pad and crop return for a target with a zero
      side). *)

From Stdlib Require Import ZArith QArith Qabs Qpower Qminmax Lia Lqa Bool List.
From Stdlib Require Import SpecFloat.
From Stdlib Require Import Ascii String DecimalString DecimalPos DecimalZ.
Import ListNotations.

Local Open Scope Z_scope.

(** ** Binary64 arithmetic *)

Module Float.

Local Open Scope Q_scope.

(** [2^e] as a rational, for any integer exponent. *)
Definition pow2 (e : Z) : Q := 2 ^ e.

(** Nearest integer to [n/d], ties to the even neighbour.  This is both the
    significand rounding of binary64 and Python's [round(x)] on a float. *)
Definition rne (n : Z) (d : positive) : Z :=
  let k := (n / Zpos d)%Z in
  let r := (n mod Zpos d)%Z in
  match (2 * r ?= Zpos d)%Z with
  | Lt => k
  | Gt => (k + 1)%Z
  | Eq => if Z.even k then k else (k + 1)%Z
  end.

Definition round_half_even (x : Q) : Z := rne (Qnum x) (Qden x).

(** [floor (log2 |q|)] for [q <> 0]. *)
Definition binade (q : Q) : Z :=
  let l := (Z.log2 (Z.abs (Qnum q)) - Z.log2 (Zpos (Qden q)))%Z in
  if Qle_bool (pow2 l) (Qabs q) then l else (l - 1)%Z.

Definition prec : Z := 53.
Definition emin : Z := -1074.
Definition emax : Z := 1024.

(** The binary64 grid point nearest to [q <> 0], ties to even: 53
    significant bits, and a fixed quantum [2^-1074] below [2^-1022]
    (gradual underflow). *)
Definition nearest (q : Q) : Q :=
  let e := Z.max (binade q - (prec - 1)) emin in
  inject_Z (round_half_even (q / pow2 e)) * pow2 e.

(** Round an exact rational to binary64; [None] when the rounded value does
    not fit. *)
Definition round64 (q : Q) : option Q :=
  if Qeq_bool q 0 then Some 0
  else
    let v := nearest q in
    if Qle_bool (pow2 emax) (Qabs v) then None else Some v.

(** Unit roundoff and half the smallest subnormal. *)
Definition u : Q := pow2 (-53).
Definition eta : Q := pow2 (-1075).

(** [a / b] on two ints (true division): correctly rounded quotient. *)
Definition int_div (a b : Z) : option Q :=
  match b with
  | Z0 => None
  | Zpos p => round64 (a # p)
  | Zneg p => round64 ((- a) # p)
  end.

(** [float(a)]. *)
Definition of_int (a : Z) : option Q := round64 (inject_Z a).

(** [a * x] with [a] an int and [x] a float. *)
Definition int_mul (a : Z) (x : Q) : option Q :=
  match of_int a with
  | Some fa => round64 (fa * x)
  | None => None
  end.

(** [x] is within the rounding error of the non-negative exact value [y]. *)
Definition approx (x y : Q) : Prop :=
  y * (1 - u) - eta <= x <= y * (1 + u) + eta.

(** Bound on the magnitudes for which the geometry is analysed. *)
Definition M : Q := inject_Z (2 ^ 33).

(** The quotient [t / o] as an exact rational. *)
Definition exact_ratio (t o : Z) : Q := inject_Z t / inject_Z o.

Definition fmin (x y : Q) : Q := if Qlt_le_dec y x then y else x.
Definition fmax (x y : Q) : Q := if Qlt_le_dec x y then y else x.

(** The scale factors of the fit and cover strategies in exact arithmetic. *)
Definition exact_fit_scale (ow oh tw th : Z) : Q :=
  Qmin (exact_ratio tw ow) (exact_ratio th oh).
Definition exact_cover_scale (ow oh tw th : Z) : Q :=
  Qmax (exact_ratio tw ow) (exact_ratio th oh).

End Float.

(** ** Python strings *)

Module Str.

Local Open Scope string_scope.
Local Open Scope char_scope.

Definition code (c : ascii) : N := N_of_ascii c.

(** Characters removed by [str.strip()] (the ASCII ones). *)
Definition is_space (c : ascii) : bool :=
  let n := code c in
  (N.leb 9 n && N.leb n 13) || (N.leb 28 n && N.leb n 32).

Definition is_upper (c : ascii) : bool :=
  let n := code c in N.leb 65 n && N.leb n 90.

Definition lower_char (c : ascii) : ascii :=
  if is_upper c then ascii_of_N (code c + 32) else c.

(** [s.lower()] *)
Fixpoint lower (s : string) : string :=
  match s with
  | EmptyString => EmptyString
  | String c s' => String (lower_char c) (lower s')
  end.

(** [s.lstrip()] *)
Fixpoint lstrip (s : string) : string :=
  match s with
  | EmptyString => EmptyString
  | String c s' => if is_space c then lstrip s' else s
  end.

Definition is_empty (s : string) : bool :=
  match s with EmptyString => true | _ => false end.

(** [s.rstrip()] *)
Fixpoint rstrip (s : string) : string :=
  match s with
  | EmptyString => EmptyString
  | String c s' =>
      let r := rstrip s' in
      if is_space c && is_empty r then EmptyString else String c r
  end.

(** [s.strip()] *)
Definition strip (s : string) : string := rstrip (lstrip s).

(** [s.lstrip(c)] for a one-character set. *)
Fixpoint lstrip_char (c : ascii) (s : string) : string :=
  match s with
  | EmptyString => EmptyString
  | String c' s' => if Ascii.eqb c' c then lstrip_char c s' else s
  end.

(** [c in s] for a single character [c]. *)
Fixpoint contains (c : ascii) (s : string) : bool :=
  match s with
  | EmptyString => false
  | String c' s' => Ascii.eqb c' c || contains c s'
  end.

(** [s.split(c)]: all fields, at least one. *)
Fixpoint split (c : ascii) (s : string) : list string :=
  match s with
  | EmptyString => [EmptyString]
  | String c' s' =>
      if Ascii.eqb c' c then EmptyString :: split c s'
      else match split c s' with
           | hd :: tl => String c' hd :: tl
           | [] => [String c' EmptyString]
           end
  end.

(** [s.split(c, 1)] when [c] occurs in [s]: the text before the first
    occurrence and the text after it. *)
Fixpoint split1 (c : ascii) (s : string) : string * string :=
  match s with
  | EmptyString => (EmptyString, EmptyString)
  | String c' s' =>
      if Ascii.eqb c' c then (EmptyString, s')
      else let '(a, b) := split1 c s' in (String c' a, b)
  end.

(** [s.endswith(suffix)]: [s] is [suffix], or its tail ends with it. *)
Fixpoint endswith (s suffix : string) : bool :=
  String.eqb s suffix ||
  match s with
  | EmptyString => false
  | String _ s' => endswith s' suffix
  end.

(** [s.startswith(p)] *)
Fixpoint startswith (s p : string) : bool :=
  match p with
  | EmptyString => true
  | String c p' =>
      match s with
      | EmptyString => false
      | String d s' => Ascii.eqb d c && startswith s' p'
      end
  end.

(** [s.replace(old, new)], all non-overlapping occurrences from the left;
    [old] must not be empty.  [skip] counts the characters of a matched
    occurrence that are still to be dropped. *)
Fixpoint replace_from (old new s : string) (skip : nat) : string :=
  match s with
  | EmptyString => EmptyString
  | String c s' =>
      match skip with
      | S k => replace_from old new s' k
      | O =>
          if startswith s old
          then (new ++ replace_from old new s' (String.length old - 1))%string
          else String c (replace_from old new s' 0)
      end
  end.

Definition replace (old new s : string) : string := replace_from old new s 0.

(** [old in s] *)
Fixpoint has_sub (old s : string) : bool :=
  startswith s old ||
  match s with
  | EmptyString => false
  | String _ s' => has_sub old s'
  end.

(** Every character of [s] satisfies [P]. *)
Fixpoint all_chars (P : ascii -> bool) (s : string) : bool :=
  match s with
  | EmptyString => true
  | String c s' => P c && all_chars P s'
  end.

Definition digit_char (c : ascii) : bool :=
  N.leb 48 (code c) && N.leb (code c) 57.

(** Decimal text of an int, as [str(n)] and [f"{n}"] give it. *)
Definition of_int (z : Z) : string :=
  DecimalString.NilZero.string_of_int (Z.to_int z).

End Str.

(** ** Exceptions *)

Inductive exn : Type :=
| BadSizeToken (token : string)        (* ValueError("Bad size token: ...") *)
| InvalidLiteral (base : Z) (s : string) (* ValueError from int() *)
| BadColorLength                       (* ValueError("bg color must be ...") *)
| ZeroDivisionError
| OverflowError
| BadImageSize                         (* ValueError from Pillow: size *)
| BadCropBox                           (* ValueError from Pillow: crop box *)
| CannotOpen (path : string).          (* OSError from Image.open / decoding *)

Inductive result (A : Type) : Type :=
| Ok (a : A)
| Raise (e : exn).
Arguments Ok {A} a.
Arguments Raise {A} e.

Definition bind {A B : Type} (r : result A) (k : A -> result B) : result B :=
  match r with
  | Ok a => k a
  | Raise e => Raise e
  end.

Notation "x <- r ;; k" := (bind r (fun x => k))
  (at level 61, r at next level, right associativity).
Notation "' p <- r ;; k" := (bind r (fun x => let 'p := x in k))
  (at level 61, p pattern, r at next level, right associativity).

Definition lift {A : Type} (e : exn) (o : option A) : result A :=
  match o with
  | Some a => Ok a
  | None => Raise e
  end.

Definition is_ok {A : Type} (r : result A) : bool :=
  match r with Ok _ => true | Raise _ => false end.

(** ** [int(s, base)] *)

Module PyInt.

(** Value of a character as a digit, in any base up to 36. *)
Definition digit_value (c : ascii) : option Z :=
  let n := Z.of_N (Str.code c) in
  if (48 <=? n) && (n <=? 57) then Some (n - 48)
  else if (97 <=? n) && (n <=? 122) then Some (n - 87)
  else if (65 <=? n) && (n <=? 90) then Some (n - 55)
  else None.

(** The value of a hexadecimal digit, in either case. *)
Definition hex_value (c : ascii) : option Z :=
  match digit_value c with
  | Some d => if d <? 16 then Some d else None
  | None => None
  end.

(** Digits with single underscores between them; [prev_us] says that the
    previous character was an underscore. *)
Fixpoint digits (base acc : Z) (prev_us : bool) (s : string) : option Z :=
  match s with
  | EmptyString => if prev_us then None else Some acc
  | String c s' =>
      if Ascii.eqb c "_"%char then
        if prev_us then None else digits base acc true s'
      else
        match digit_value c with
        | Some d => if d <? base then digits base (acc * base + d) false s'
                    else None
        | None => None
        end
  end.

(** In base 16 an [0x] or [0X] prefix is skipped, with one underscore
    after it. *)
Definition skip_hex_prefix (s : string) : string :=
  match s with
  | String c (String x rest) =>
      if Ascii.eqb c "0"%char && (Ascii.eqb x "x"%char || Ascii.eqb x "X"%char)
      then match rest with
           | String u rest' => if Ascii.eqb u "_"%char then rest' else rest
           | EmptyString => rest
           end
      else s
  | _ => s
  end.

(** After the sign: the prefix in base 16, then at least one digit, not
    starting with an underscore. *)
Definition magnitude (base : Z) (s : string) : option Z :=
  let body := if base =? 16 then skip_hex_prefix s else s in
  match body with
  | EmptyString => None
  | String c _ =>
      if Ascii.eqb c "_"%char then None else digits base 0 false body
  end.

(** The whitespace that [int] skips around a literal, as C's [isspace]
    has it: tab to carriage return, and the space.  [str.strip] removes the
    separators 28 to 31 as well; [int] does not. *)
Definition is_blank (c : ascii) : bool :=
  let n := Str.code c in
  (N.leb 9 n && N.leb n 13) || N.eqb n 32.

Fixpoint lskip (s : string) : string :=
  match s with
  | EmptyString => EmptyString
  | String c s' => if is_blank c then lskip s' else s
  end.

Fixpoint rskip (s : string) : string :=
  match s with
  | EmptyString => EmptyString
  | String c s' =>
      let r := rskip s' in
      if is_blank c && Str.is_empty r then EmptyString else String c r
  end.

Definition trim (s : string) : string := rskip (lskip s).

(** The value of a literal: whitespace around it is skipped, then a sign
    may come, then the magnitude.  The limit on the number of decimal
    digits (4300 by default) is outside the model. *)
Definition parse (base : Z) (s : string) : option Z :=
  match trim s with
  | EmptyString => None
  | String c s' =>
      if Ascii.eqb c "+"%char then magnitude base s'
      else if Ascii.eqb c "-"%char then option_map Z.opp (magnitude base s')
      else magnitude base (String c s')
  end.

(** The characters that a decimal literal accepted by [int] is made of. *)
Definition literal_char (c : ascii) : bool :=
  is_blank c || Str.digit_char c
  || Ascii.eqb c "+"%char || Ascii.eqb c "-"%char || Ascii.eqb c "_"%char.

(** [int(s, base)] *)
Definition int (base : Z) (s : string) : result Z :=
  lift (InvalidLiteral base s) (parse base s).

End PyInt.

(** ** [os.path] (POSIX flavour) *)

Module Path.

Local Open Scope string_scope.

(** [os.path.basename]: the text after the last slash. *)
Fixpoint basename (p : string) : string :=
  match p with
  | EmptyString => EmptyString
  | String c p' => if Str.contains "/" p then basename p' else p
  end.

(** The text up to and including the last slash. *)
Fixpoint head (p : string) : string :=
  match p with
  | EmptyString => EmptyString
  | String c p' => if Str.contains "/" p then String c (head p') else EmptyString
  end.

Fixpoint rstrip_slash (s : string) : string :=
  match s with
  | EmptyString => EmptyString
  | String c s' =>
      let r := rstrip_slash s' in
      if Ascii.eqb c "/" && Str.is_empty r then EmptyString else String c r
  end.

(** [os.path.dirname]: the head without trailing slashes, unless it
    consists of slashes only. *)
Definition dirname (p : string) : string :=
  let h := head p in
  if Str.is_empty (rstrip_slash h) then h else rstrip_slash h.

(** Split at the last occurrence of [c]: the text before it, and the text
    from it on. *)
Fixpoint rsplit (c : ascii) (s : string) : option (string * string) :=
  match s with
  | EmptyString => None
  | String c' s' =>
      match rsplit c s' with
      | Some (a, b) => Some (String c' a, b)
      | None => if Ascii.eqb c' c then Some (EmptyString, s) else None
      end
  end.

Fixpoint all_dots (s : string) : bool :=
  match s with
  | EmptyString => true
  | String c s' => Ascii.eqb c "." && all_dots s'
  end.

(** [os.path.splitext]: the extension starts at the last dot of the last
    path component; leading dots of that component do not count. *)
Definition splitext (p : string) : string * string :=
  let h := head p in
  let b := basename p in
  match rsplit "." b with
  | Some (stem, ext) =>
      if all_dots stem then (p, EmptyString) else (h ++ stem, ext)
  | None => (p, EmptyString)
  end.

(** The file name without directory and extension. *)
Definition stem (p : string) : string := fst (splitext (basename p)).

(** What [join] puts in front of a relative name. *)
Definition join_prefix (a : string) : string :=
  if Str.is_empty a || Str.endswith a "/" then a else a ++ "/".

(** [os.path.join(a, b)] *)
Definition join (a b : string) : string :=
  if Str.startswith b "/" then b
  else if Str.is_empty a || Str.endswith a "/" then a ++ b
  else a ++ "/" ++ b.

End Path.

(** ** Pillow images *)

Module PIL.

(** Image modes of Pillow. *)
Inductive Mode : Type :=
| Bilevel | L | P | RGB | RGBA | CMYK | YCbCr | LAB | HSV | I32 | F32
| LA | PA | RGBX | RGBa | La | I16.

Definition mode_eqb (a b : Mode) : bool :=
  match a, b with
  | Bilevel, Bilevel | L, L | P, P | RGB, RGB | RGBA, RGBA | CMYK, CMYK
  | YCbCr, YCbCr | LAB, LAB | HSV, HSV | I32, I32 | F32, F32 | LA, LA
  | PA, PA | RGBX, RGBX | RGBa, RGBa | La, La | I16, I16 => true
  | _, _ => false
  end.

(** The modes that carry an alpha band. *)
Definition has_alpha (m : Mode) : bool :=
  match m with
  | RGBA | LA | PA | RGBa | La => true
  | _ => false
  end.

Definition bands (m : Mode) : nat :=
  match m with
  | Bilevel | L | P | I32 | F32 | I16 => 1
  | LA | PA | La => 2
  | RGB | YCbCr | LAB | HSV => 3
  | RGBA | CMYK | RGBX | RGBa => 4
  end.

(** A pixel: one value per band. *)
Definition Pixel : Type := list Z.

Definition blank (m : Mode) : Pixel := repeat 0 (bands m).

(** A decoded image.  [orientation] is the EXIF orientation tag (1 when
    absent); [pixel x y] is defined for [0 <= x < width], [0 <= y < height]. *)
Record Image : Type := mkImage {
  mode : Mode;
  width : Z;
  height : Z;
  orientation : Z;
  pixel : Z -> Z -> Pixel
}.

Definition size (im : Image) : Z * Z := (width im, height im).

(** Pillow keeps sizes and coordinates in C ints. *)
Definition max_dim : Z := 2147483647.

Definition in_range (z : Z) : Prop := 1 <= z <= max_dim.

(** An image as a decoder delivers it: both sides at least one pixel. *)
Definition decodable (im : Image) : Prop :=
  in_range (width im) /\ in_range (height im).

Inductive Transpose : Type :=
| FLIP_LEFT_RIGHT | FLIP_TOP_BOTTOM | ROTATE_90 | ROTATE_180 | ROTATE_270
| TRANSPOSE | TRANSVERSE.

(** [im.transpose(method)] *)
Definition transpose (t : Transpose) (im : Image) : Image :=
  let w := width im in
  let h := height im in
  let p := pixel im in
  match t with
  | FLIP_LEFT_RIGHT =>
      mkImage (mode im) w h (orientation im) (fun x y => p (w - 1 - x) y)
  | FLIP_TOP_BOTTOM =>
      mkImage (mode im) w h (orientation im) (fun x y => p x (h - 1 - y))
  | ROTATE_180 =>
      mkImage (mode im) w h (orientation im)
        (fun x y => p (w - 1 - x) (h - 1 - y))
  | ROTATE_90 =>
      mkImage (mode im) h w (orientation im) (fun x y => p (w - 1 - y) x)
  | ROTATE_270 =>
      mkImage (mode im) h w (orientation im) (fun x y => p y (h - 1 - x))
  | TRANSPOSE =>
      mkImage (mode im) h w (orientation im) (fun x y => p y x)
  | TRANSVERSE =>
      mkImage (mode im) h w (orientation im)
        (fun x y => p (w - 1 - y) (h - 1 - x))
  end.

Definition set_orientation (o : Z) (im : Image) : Image :=
  mkImage (mode im) (width im) (height im) o (pixel im).

(** The transposition that undoes an EXIF orientation, if one is needed. *)
Definition exif_method (o : Z) : option Transpose :=
  match o with
  | 2 => Some FLIP_LEFT_RIGHT
  | 3 => Some ROTATE_180
  | 4 => Some FLIP_TOP_BOTTOM
  | 5 => Some TRANSPOSE
  | 6 => Some ROTATE_270
  | 7 => Some TRANSVERSE
  | 8 => Some ROTATE_90
  | _ => None
  end.

(** [ImageOps.exif_transpose(im)]: undo the rotation or flip that the EXIF
    orientation tag records, and drop the tag. *)
Definition exif_transpose (im : Image) : Image :=
  match exif_method (orientation im) with
  | Some t => set_orientation 1 (transpose t im)
  | None => im
  end.

(** [im.rotate(90, expand=True)]: Pillow takes the transpose shortcut. *)
Definition rotate_90_expand (im : Image) : Image := transpose ROTATE_90 im.

(** A value that Pillow's C core accepts as a size or coordinate. *)
Definition c_int (z : Z) : bool := (- max_dim - 1 <=? z) && (z <=? max_dim).

(** Pillow stores a colour channel in a byte: a value given for it is
    clipped to 0..255. *)
Definition clip8 (z : Z) : Z := Z.max 0 (Z.min 255 z).

(** [Image.new(mode, size, color)], for a colour that has been turned into
    a pixel of the mode. *)
Definition new (m : Mode) (sz : Z * Z) (color : Pixel) : result Image :=
  let '(w, h) := sz in
  if (w <? 0) || (h <? 0) then Raise BadImageSize
  else if negb (c_int w && c_int h) then Raise OverflowError
  else Ok (mkImage m w h 1 (fun _ _ => color)).

(** [im.crop((left, upper, right, lower))]; pixels outside the source are
    zero. *)
Definition crop (im : Image) (box : Z * Z * Z * Z) : result Image :=
  let '(x0, y0, x1, y1) := box in
  if (x1 <? x0) || (y1 <? y0) then Raise BadCropBox
  else if negb (c_int x0 && c_int y0 && c_int x1 && c_int y1)
  then Raise OverflowError
  else
    Ok (mkImage (mode im) (x1 - x0) (y1 - y0) (orientation im)
          (fun x y =>
             let sx := x0 + x in
             let sy := y0 + y in
             if (0 <=? sx) && (sx <? width im) && (0 <=? sy) && (sy <? height im)
             then pixel im sx sy
             else blank (mode im))).

Section Codec.

(** The two pixel-level services of Pillow that the tools delegate to:
    [resample im nw nh x y] is pixel [(x, y)] of [im] resampled to
    [nw] by [nh] with the Lanczos filter, and [convert_pixel m m' p] is the
    pixel [p] of mode [m] converted to mode [m']. *)
Variable resample : Image -> Z -> Z -> Z -> Z -> Pixel.
Variable convert_pixel : Mode -> Mode -> Pixel -> Pixel.

(** [im.convert(mode)] *)
Definition convert (m : Mode) (im : Image) : Image :=
  mkImage m (width im) (height im) (orientation im)
    (fun x y => convert_pixel (mode im) m (pixel im x y)).

(** [im.resize(size, Image.LANCZOS)]: a copy when the size is unchanged;
    otherwise both sides must be positive C ints. *)
Definition resize (im : Image) (sz : Z * Z) : result Image :=
  let '(nw, nh) := sz in
  if (nw =? width im) && (nh =? height im) then Ok im
  else if negb (c_int nw && c_int nh) then Raise OverflowError
  else if (nw <? 1) || (nh <? 1) then Raise BadImageSize
  else Ok (mkImage (mode im) nw nh (orientation im) (resample im nw nh)).

(** [canvas.paste(im, (x, y))]: the part of [im] that falls on the canvas
    replaces what was there, converted to the canvas mode if needed. *)
Definition paste (canvas im : Image) (at_ : Z * Z) : Image :=
  let '(x, y) := at_ in
  mkImage (mode canvas) (width canvas) (height canvas) (orientation canvas)
    (fun i j =>
       if (x <=? i) && (i <? x + width im) && (y <=? j) && (j <? y + height im)
       then
         if mode_eqb (mode im) (mode canvas) then pixel im (i - x) (j - y)
         else convert_pixel (mode im) (mode canvas) (pixel im (i - x) (j - y))
       else pixel canvas i j).

End Codec.

End PIL.

(** The exact covering size is within Pillow's range. *)
Definition cover_in_range (ow oh tw th : Z) : Prop :=
  (inject_Z ow * Float.exact_cover_scale ow oh tw th <= inject_Z PIL.max_dim
   /\ inject_Z oh * Float.exact_cover_scale ow oh tw th <= inject_Z PIL.max_dim)%Q.

(** ** The environment of a run *)

(** A directory entry: a plain file, or a sub-directory with its entries in
    listing order. *)
#[warnings="-register-all"]
Inductive entry : Type :=
| File (name : string)
| Dir (name : string) (children : list entry).

(** What the tools see of the file system: [dirs p] is the listing of [p]
    when [p] is a directory ([os.path.isdir], [os.walk]), and [open_image p]
    is the decoded content of [p], or the exception raised by opening or
    decoding it. *)
Record World : Type := mkWorld {
  dirs : string -> option (list entry);
  open_image : string -> result PIL.Image
}.

Inductive OutLine : Type :=
| Wrote (path : string)                 (* "Wrote {path}" *)
| AssetsWritten                         (* heading of Tool A's report *)
| AssetLine (name : string) (tag : string) (* " - {name}{tag}" *)
| Usage.

Inductive ErrLine : Type :=
| SizesError (e : exn)                  (* "Error parsing --sizes: {e}" *)
| BgError (e : exn)                     (* "Error parsing --bg: {e}" *)
| NoInputs                              (* "No input images found." *)
| FailedOn (path : string) (e : exn).   (* "Failed on {path}: {e}" *)

(** Observable effects, in program order. *)
Inductive Event : Type :=
| OpenImage (path : string)
| MakeDirs (path : string)
| SaveFile (path : string) (img : PIL.Image) (quality : option Z) (optimize : bool)
| Stdout (line : OutLine)
| Stderr (line : ErrLine).

Definition saves (trace : list Event) : list (string * PIL.Image) :=
  flat_map (fun ev => match ev with
                      | SaveFile p img _ _ => [(p, img)]
                      | _ => []
                      end) trace.

Definition errors (trace : list Event) : list ErrLine :=
  flat_map (fun ev => match ev with Stderr l => [l] | _ => [] end) trace.

(** The paths of the "Wrote" lines printed. *)
Definition reported (trace : list Event) : list string :=
  flat_map (fun ev => match ev with Stdout (Wrote p) => [p] | _ => [] end) trace.

Definition is_effect (ev : Event) : bool :=
  match ev with
  | OpenImage _ | MakeDirs _ | SaveFile _ _ _ _ => true
  | Stdout _ | Stderr _ => false
  end.

Section Tools.

Import PIL.
Local Open Scope string_scope.
Local Open Scope Z_scope.

Variable resample : Image -> Z -> Z -> Z -> Z -> Pixel.
Variable convert_pixel : Mode -> Mode -> Pixel -> Pixel.

Local Abbreviation convert := (PIL.convert convert_pixel).
Local Abbreviation resize := (PIL.resize resample).
Local Abbreviation paste := (PIL.paste convert_pixel).

(** *** Tool A: [image_shrinker.py] *)

(** [generate_ios_assets(image_path)]: the effects performed, and the
    exception that ended the call, if any. *)
Definition generate_ios_assets (w : World) (image_path : string)
  : list Event * option exn :=
  match open_image w image_path with
  | Raise e => ([OpenImage image_path], Some e)
  | Ok img =>
      let '(filename, ext) := Path.splitext (Path.basename image_path) in
      let base_name := Str.replace "@3x" "" filename in
      let output_dir := Path.dirname image_path in
      let save3 :=
        SaveFile (Path.join output_dir (base_name ++ "@3x" ++ ext)) img None false in
      match resize img (width img / 3 * 2, height img / 3 * 2) with
      | Raise e => ([OpenImage image_path; save3], Some e)
      | Ok img_2x =>
          let save2 :=
            SaveFile (Path.join output_dir (base_name ++ "@2x" ++ ext))
              img_2x None false in
          match resize img (width img / 3, height img / 3) with
          | Raise e => ([OpenImage image_path; save3; save2], Some e)
          | Ok img_1x =>
              let save1 :=
                SaveFile (Path.join output_dir (base_name ++ ext))
                  img_1x None false in
              ([OpenImage image_path; save3; save2; save1;
                Stdout AssetsWritten;
                Stdout (AssetLine (base_name ++ ext) " (1x)");
                Stdout (AssetLine (base_name ++ "@2x" ++ ext) "");
                Stdout (AssetLine (base_name ++ "@3x" ++ ext) "")],
               None)
          end
      end
  end.

(** The script body of Tool A: [sys.argv] decides. *)
Definition image_shrinker_main (w : World) (argv : list string)
  : list Event * option exn :=
  match argv with
  | [_; flag; image_path] =>
      if String.eqb flag "-s" then generate_ios_assets w image_path
      else ([Stdout Usage], None)
  | _ => ([Stdout Usage], None)
  end.

(** *** Tool B: [resize_app_store_screenshots.py] *)

Fixpoint parse_tokens (tokens : list string) : result (list (Z * Z)) :=
  match tokens with
  | [] => Ok []
  | token :: rest =>
      let token := Str.lower (Str.strip token) in
      if negb (Str.contains "x" token) then Raise (BadSizeToken token)
      else
        let '(w, h) := Str.split1 "x" token in
        w' <- PyInt.int 10 w ;;
        h' <- PyInt.int 10 h ;;
        out <- parse_tokens rest ;;
        Ok ((w', h') :: out)
  end.

Definition parse_sizes (s : string) : result (list (Z * Z)) :=
  parse_tokens (Str.split "," s).

(** A size token that [parse_sizes] accepts: after stripping and
    lower-casing it contains an [x], and [int] accepts the text before the
    first [x] and the text after it. *)
Definition token_ok (token : string) : bool :=
  let t := Str.lower (Str.strip token) in
  Str.contains "x" t
  && match PyInt.parse 10 (fst (Str.split1 "x" t)),
           PyInt.parse 10 (snd (Str.split1 "x" t)) with
     | Some _, Some _ => true
     | _, _ => false
     end.

(** ["".join(c*2 for c in s)] *)
Fixpoint double_chars (s : string) : string :=
  match s with
  | EmptyString => EmptyString
  | String c s' => String c (String c (double_chars s'))
  end.

Definition parse_hex_color (s : string) : result (Z * Z * Z) :=
  let s := Str.lstrip_char "#" (Str.strip s) in
  let n := String.length s in
  if negb (Nat.eqb n 6 || Nat.eqb n 3) then Raise BadColorLength
  else
    let s := if Nat.eqb n 3 then double_chars s else s in
    r <- PyInt.int 16 (substring 0 2 s) ;;
    g <- PyInt.int 16 (substring 2 2 s) ;;
    b <- PyInt.int 16 (substring 4 2 s) ;;
    Ok (r, g, b).

(** [a / b] on ints. *)
Definition true_div (a b : Z) : result Q :=
  if b =? 0 then Raise ZeroDivisionError
  else lift OverflowError (Float.int_div a b).

(** [max(1, int(round(o * scale)))] *)
Definition scaled (o : Z) (scale : Q) : result Z :=
  v <- lift OverflowError (Float.int_mul o scale) ;;
  Ok (Z.max 1 (Float.round_half_even v)).

(** The common prologue of the three strategies: EXIF orientation first,
    then conversion to RGB unless the image is RGB or RGBA already. *)
Definition oriented_rgb (im : Image) : Image :=
  let im := exif_transpose im in
  if mode_eqb (mode im) RGB || mode_eqb (mode im) RGBA then im
  else convert RGB im.

(** The pixel that [Image.new("RGB", size, bg)] fills the canvas with: the
    three channels of [bg], each clipped to a byte.  Every colour that
    [parse_hex_color] returns has channels that fit Pillow's C ints. *)
Definition color_pixel (bg : Z * Z * Z) : Pixel :=
  let '(r, g, b) := bg in [clip8 r; clip8 g; clip8 b].

Definition fit_and_pad (im : Image) (target : Z * Z) (bg : Z * Z * Z)
  : result Image :=
  let '(tw, th) := target in
  let im := oriented_rgb im in
  let '(ow, oh) := size im in
  sx <- true_div tw ow ;;
  sy <- true_div th oh ;;
  let scale := Float.fmin sx sy in
  nw <- scaled ow scale ;;
  nh <- scaled oh scale ;;
  resized <- resize im (nw, nh) ;;
  canvas <- new RGB (tw, th) (color_pixel bg) ;;
  let x := (tw - nw) / 2 in
  let y := (th - nh) / 2 in
  Ok (paste canvas resized (x, y)).

Definition cover_and_crop (im : Image) (target : Z * Z) : result Image :=
  let '(tw, th) := target in
  let im := oriented_rgb im in
  let '(ow, oh) := size im in
  sx <- true_div tw ow ;;
  sy <- true_div th oh ;;
  let scale := Float.fmax sx sy in
  nw <- scaled ow scale ;;
  nh <- scaled oh scale ;;
  resized <- resize im (nw, nh) ;;
  let x := (nw - tw) / 2 in
  let y := (nh - th) / 2 in
  crop resized (x, y, x + tw, y + th).

Definition stretch_resize (im : Image) (target : Z * Z) : result Image :=
  let '(tw, th) := target in
  let im := oriented_rgb im in
  resize im (tw, th).

(** [os.makedirs(d, exist_ok=True)] *)
Definition ensure_outdir (d : string) : list Event := [MakeDirs d].

Definition file_names (entries : list entry) : list string :=
  flat_map (fun e => match e with File n => [n] | Dir _ _ => [] end) entries.

Definition dir_names (entries : list entry) : list string :=
  flat_map (fun e => match e with File _ => [] | Dir n _ => [n] end) entries.

(** [os.walk] below one entry of [top]: a sub-directory yields its own
    triple, then those of its sub-directories; a file yields nothing. *)
Fixpoint walk_entry (top : string) (e : entry)
  : list (string * list string * list string) :=
  match e with
  | File _ => []
  | Dir name children =>
      let root := Path.join top name in
      (root, dir_names children, file_names children)
        :: flat_map (walk_entry root) children
  end.

(** [os.walk(top)], top-down, for a directory with the given listing. *)
Definition walk (top : string) (entries : list entry)
  : list (string * list string * list string) :=
  (top, dir_names entries, file_names entries)
    :: flat_map (walk_entry top) entries.

Definition image_suffixes : list string :=
  [".png"; ".jpg"; ".jpeg"; ".heic"; ".webp"].

(** [f.lower().endswith((".png", ".jpg", ".jpeg", ".heic", ".webp"))] *)
Definition has_image_suffix (f : string) : bool :=
  existsb (Str.endswith (Str.lower f)) image_suffixes.

Definition gather_inputs (w : World) (paths : list string) : list string :=
  flat_map
    (fun p =>
       match dirs w p with
       | Some entries =>
           flat_map
             (fun '(root, _, files) =>
                map (Path.join root) (filter has_image_suffix files))
             (walk p entries)
       | None => [p]
       end)
    paths.

(** The file name that [save_variant] builds. *)
Definition variant_name (base : string) (size : Z * Z) (fmt suffix : string)
  : string :=
  let '(w, h) := size in
  let '(name, _) := Path.splitext (Path.basename base) in
  name ++ "_" ++ Str.of_int w ++ "x" ++ Str.of_int h ++ suffix ++ "."
       ++ Str.lower fmt.

(** The path that [save_variant] writes. *)
Definition variant_path (outdir base : string) (size : Z * Z)
    (fmt suffix : string) : string :=
  Path.join outdir (variant_name base size fmt suffix).

(** [save_variant]: the path written, and the save itself. *)
Definition save_variant (img : Image) (outdir base : string) (size : Z * Z)
    (fmt suffix : string) : string * Event :=
  let path := variant_path outdir base size fmt suffix in
  if String.eqb (Str.lower fmt) "jpg" || String.eqb (Str.lower fmt) "jpeg"
  then
    let img := if mode_eqb (mode img) RGBA then convert RGB img else img in
    (path, SaveFile path img (Some 95) true)
  else (path, SaveFile path img None false).

(** The image that [save_variant] hands to [img.save]. *)
Definition written_image (fmt : string) (img : Image) : Image :=
  if String.eqb (Str.lower fmt) "jpg" || String.eqb (Str.lower fmt) "jpeg"
  then if mode_eqb (mode img) RGBA then convert RGB img else img
  else img.

(** The path under which [main] saves the variant of [source] for [target]
    in the given orientation: the landscape variant carries the swapped
    dimensions and the suffix. *)
Definition output_path (outdir fmt source : string) (target : Z * Z)
    (land : bool) : string :=
  if land
  then variant_path outdir source (snd target, fst target) fmt "_landscape"
  else variant_path outdir source target fmt "".

Inductive LayoutMode : Type := Pad | Crop | Stretch.

(** The parsed command line of Tool B. *)
Record Args : Type := mkArgs {
  input : list string;
  outdir : string;
  sizes : string;
  layout : LayoutMode;
  bg : string;
  format : string;
  landscape : bool
}.

Definition apply_layout (m : LayoutMode) (im : Image) (target : Z * Z)
    (bg : Z * Z * Z) : result Image :=
  match m with
  | Pad => fit_and_pad im target bg
  | Crop => cover_and_crop im target
  | Stretch => stretch_resize im target
  end.

(** One iteration of the loop over targets, given the strategy's output. *)
Definition write_variants (args : Args) (path : string) (target : Z * Z)
    (out_im : Image) : list Event :=
  let '(tw, th) := target in
  let '(saved, ev) := save_variant out_im (outdir args) path (tw, th) (format args) "" in
  ([ev; Stdout (Wrote saved)] ++
   (if landscape args then
      let out_land := rotate_90_expand out_im in
      let '(lw, lh) := (th, tw) in
      let '(saved_l, ev_l) :=
        save_variant out_land (outdir args) path (lw, lh) (format args) "_landscape" in
      [ev_l; Stdout (Wrote saved_l)]
    else []))%list.

(** The loop over targets for one opened image: the effects so far, and the
    exception that left the loop, if any. *)
Fixpoint process_targets (args : Args) (bg : Z * Z * Z) (path : string)
    (im : Image) (targets : list (Z * Z)) : list Event * option exn :=
  match targets with
  | [] => ([], None)
  | target :: rest =>
      match apply_layout (layout args) im target bg with
      | Raise e => ([], Some e)
      | Ok out_im =>
          let '(evs, r) := process_targets args bg path im rest in
          ((write_variants args path target out_im ++ evs)%list, r)
      end
  end.

(** The body of the loop over inputs, with its [try]/[except]. *)
Definition process_input (w : World) (args : Args) (bg : Z * Z * Z)
    (targets : list (Z * Z)) (path : string) : list Event :=
  match open_image w path with
  | Raise e => [OpenImage path; Stderr (FailedOn path e)]
  | Ok im =>
      let '(evs, r) := process_targets args bg path im targets in
      (OpenImage path :: evs ++
       match r with
       | Some e => [Stderr (FailedOn path e)]
       | None => []
       end)%list
  end.

(** [main], after [argparse]: the exit code and the effects. *)
Definition main (w : World) (args : Args) : Z * list Event :=
  match parse_sizes (sizes args) with
  | Raise e => (2, [Stderr (SizesError e)])
  | Ok targets =>
      match parse_hex_color (bg args) with
      | Raise e => (2, [Stderr (BgError e)])
      | Ok bg =>
          let inputs := gather_inputs w (input args) in
          match inputs with
          | [] => (2, [Stderr NoInputs])
          | _ =>
              (0, (ensure_outdir (outdir args) ++
                   flat_map (process_input w args bg targets) inputs)%list)
          end
      end
  end.

End Tools.

(** ** The binary64 model against the Standard Library's [SpecFloat] *)

Module FloatCheck.

(** The rational that a [spec_float] denotes; [None] for infinities and
    NaN. *)
Definition of_spec (f : spec_float) : option Q :=
  match f with
  | S754_zero _ => Some 0%Q
  | S754_finite s m e =>
      Some ((if s then inject_Z (Zneg m) else inject_Z (Zpos m)) * Float.pow2 e)%Q
  | S754_infinity _ | S754_nan => None
  end.

(** [float(z)] in [SpecFloat]. *)
Definition spec_of_int (z : Z) : spec_float := binary_normalize 53 1024 z 0 false.

Definition same (a b : option Q) : bool :=
  match a, b with
  | Some x, Some y => Qeq_bool x y
  | None, None => true
  | _, _ => false
  end.

Definition grid : list Z :=
  [1; 3; 7; 1179; 1290; 2556; 2796; 65535; 999983; 2147483647].

(** [a / b] of the model against [SFdiv]. *)
Definition div_agrees (a b : Z) : bool :=
  same (Float.int_div a b)
       (of_spec (SFdiv 53 1024 (spec_of_int a) (spec_of_int b))).

(** [o * (a / b)] of the model against [SFmul] and [SFdiv]. *)
Definition mul_agrees (o a b : Z) : bool :=
  match Float.int_div a b with
  | Some s =>
      same (Float.int_mul o s)
           (of_spec (SFmul 53 1024 (spec_of_int o)
                       (SFdiv 53 1024 (spec_of_int a) (spec_of_int b))))
  | None => false
  end.

(** Rounding of [m * 2^e] against [binary_normalize]. *)
Definition round_agrees (m e : Z) : bool :=
  same (Float.round64 (inject_Z m * Float.pow2 e))
       (of_spec (binary_normalize 53 1024 m e false)).

End FloatCheck.

(** ** Concrete codec and inputs, for examples *)

Module Fixtures.

Import PIL.
Local Open Scope string_scope.
Local Open Scope Z_scope.

(** Nearest-neighbour resampling stands in for the Lanczos filter. *)
Definition nearest_neighbour (im : Image) (nw nh x y : Z) : Pixel :=
  pixel im (x * width im / nw) (y * height im / nh).

(** Pixel conversion: grey to RGB replicates, RGBA to RGB drops alpha. *)
Definition to_mode (m m' : Mode) (p : Pixel) : Pixel :=
  match m, m', p with
  | L, RGB, [l] => [l; l; l]
  | LA, RGB, [l; _] => [l; l; l]
  | RGBA, RGB, [r; g; b; _] => [r; g; b]
  | _, _, _ => p
  end.

(** An image of one colour. *)
Definition solid (m : Mode) (w h : Z) (p : Pixel) : Image :=
  mkImage m w h 1 (fun _ _ => p).

(** The screenshot of the specification's scenario: 1179 by 2556, RGB. *)
Definition screenshot : Image := solid RGB 1179 2556 [10; 20; 30].

(** A small RGBA image and a small grey image with alpha. *)
Definition rgba_icon : Image := solid RGBA 4 6 [1; 2; 3; 128].
Definition la_icon : Image := solid LA 4 6 [7; 128].

(** A 90 by 60 icon, the 3x master of Tool A. *)
Definition icon : Image := solid RGBA 90 60 [1; 2; 3; 255].

(** A file system with a directory [shots] holding a PNG and a text file,
    a nested directory with two more files, a directory [docs] without
    images, and a few decodable files. *)
Definition shots_listing : list entry :=
  [File "a.png"; File "notes.txt";
   Dir "more" [File "B.JPG"; File "readme.md"]].

Definition world : World :=
  mkWorld
    (fun p => if String.eqb p "shots" then Some shots_listing
              else if String.eqb p "docs" then Some [File "readme.md"]
              else None)
    (fun p =>
       if String.eqb p "shots/a.png" then Ok screenshot
       else if String.eqb p "shots/more/B.JPG" then Ok rgba_icon
       else if String.eqb p "img/icon@3x.png" then Ok icon
       else Raise (CannotOpen p)).

(** A command line: a directory and a missing file, both default sizes,
    pad mode, landscape variants requested. *)
Definition demo_args : Args :=
  mkArgs ["shots"; "x.png"] "out" "1290x2796,1320x2868" Pad "#000000" "png" true.

(** A 2 by 5 thumbnail, too small to be shrunk to a third, and a file
    system in which every path opens as that thumbnail. *)
Definition thumb : Image := solid RGB 2 5 [9; 9; 9].

Definition thumb_world : World := mkWorld (fun _ => None) (fun _ => Ok thumb).

(** A command line for the nested JPEG: two targets, stretched. *)
Definition stretch_args : Args :=
  mkArgs ["shots/more/B.JPG"] "out" "8x8,9x9" Stretch "#000" "jpg" true.

End Fixtures.

(** * Properties *)

(** ** Binary64 rounding *)

Module FloatFacts.

Import Float.
Local Open Scope Q_scope.

Lemma rne_spec (n : Z) (d : positive) :
  (- Zpos d <= 2 * (rne n d * Zpos d - n) <= Zpos d)%Z.
Proof.
  unfold rne.
  pose proof (Z.div_mod n (Zpos d) ltac:(lia)) as E.
  pose proof (Z.mod_pos_bound n (Zpos d) ltac:(lia)) as B.
  destruct (Z.compare_spec (2 * (n mod Zpos d)) (Zpos d)) as [H|H|H];
    [destruct (Z.even (n / Zpos d))|..]; nia.
Qed.

Lemma round_half_even_spec (x : Q) :
  Qabs (inject_Z (round_half_even x) - x) <= 1 # 2.
Proof.
  unfold round_half_even. destruct x as [n d]; cbn [Qnum Qden].
  pose proof (rne_spec n d) as H.
  apply Qabs_Qle_condition.
  unfold Qle, Qminus, Qplus, Qopp, inject_Z; cbn.
  split; nia.
Qed.

Lemma pow2_pos e : 0 < pow2 e.
Proof. apply Qpower_0_lt. reflexivity. Qed.

Lemma pow2_add a b : pow2 (a + b) == pow2 a * pow2 b.
Proof. apply Qpower_plus. discriminate. Qed.

Lemma pow2_inject k : (0 <= k)%Z -> pow2 k == inject_Z (2 ^ k).
Proof. intros H. unfold pow2. rewrite Zpower_Qpower by assumption. reflexivity. Qed.

Lemma pow2_sub a b : pow2 (a - b) == pow2 a / pow2 b.
Proof. unfold pow2. apply Qpower_minus. discriminate. Qed.

Lemma Qabs_make n d : Qabs (n # d) = (Z.abs n # d).
Proof. reflexivity. Qed.

(** A quotient of integers between two powers of two. *)
Lemma pow2_quot_le (a b : Z) (N : Z) (d : positive) :
  (0 <= a)%Z -> (0 <= b)%Z -> (2 ^ a <= N)%Z -> (Zpos d <= 2 ^ b)%Z ->
  pow2 (a - b) <= N # d.
Proof.
  intros Ha Hb HN Hd.
  rewrite pow2_sub, !pow2_inject by assumption.
  assert (0 < 2 ^ b)%Z by lia.
  apply Qle_shift_div_r. { unfold Qlt; cbn. lia. }
  unfold Qle; cbn. nia.
Qed.

Lemma pow2_quot_gt (a b : Z) (N : Z) (d : positive) :
  (0 <= a)%Z -> (0 <= b)%Z -> (N < 2 ^ a)%Z -> (2 ^ b <= Zpos d)%Z -> (0 <= N)%Z ->
  N # d < pow2 (a - b).
Proof.
  intros Ha Hb HN Hd H0.
  rewrite pow2_sub, !pow2_inject by assumption.
  assert (0 < 2 ^ b)%Z by lia.
  apply Qlt_shift_div_l. { unfold Qlt; cbn. lia. }
  unfold Qlt; cbn. nia.
Qed.

Lemma binade_lower (q : Q) : ~ q == 0 -> pow2 (binade q) <= Qabs q.
Proof.
  intros Hq. unfold binade.
  destruct (Qle_bool _ _) eqn:E.
  - now apply Qle_bool_iff.
  - destruct q as [n d]. cbn [Qnum Qden]. rewrite Qabs_make.
    assert (Hn : (0 < Z.abs n)%Z).
    { destruct n; try lia. exfalso; apply Hq; reflexivity. }
    pose proof (Z.log2_spec _ Hn) as [L1 L2].
    pose proof (Z.log2_spec (Zpos d) ltac:(lia)) as [D1 D2].
    pose proof (Z.log2_nonneg (Z.abs n)). pose proof (Z.log2_nonneg (Zpos d)).
    replace (Z.log2 (Z.abs n) - Z.log2 (Zpos d) - 1)%Z
      with (Z.log2 (Z.abs n) - Z.succ (Z.log2 (Zpos d)))%Z by lia.
    apply pow2_quot_le; lia.
Qed.

Lemma binade_upper (q : Q) : ~ q == 0 -> Qabs q < pow2 (binade q + 1).
Proof.
  intros Hq. unfold binade.
  destruct (Qle_bool _ _) eqn:E.
  - destruct q as [n d]. cbn [Qnum Qden]. rewrite Qabs_make.
    assert (Hn : (0 < Z.abs n)%Z).
    { destruct n; try lia. exfalso; apply Hq; reflexivity. }
    pose proof (Z.log2_spec _ Hn) as [L1 L2].
    pose proof (Z.log2_spec (Zpos d) ltac:(lia)) as [D1 D2].
    pose proof (Z.log2_nonneg (Z.abs n)). pose proof (Z.log2_nonneg (Zpos d)).
    replace (Z.log2 (Z.abs n) - Z.log2 (Zpos d) + 1)%Z
      with (Z.succ (Z.log2 (Z.abs n)) - Z.log2 (Zpos d))%Z by lia.
    apply pow2_quot_gt; lia.
  - replace (_ - 1 + 1)%Z with (Z.log2 (Z.abs (Qnum q)) - Z.log2 (Zpos (Qden q)))%Z by lia.
    apply Qnot_le_lt. intros H. apply Qle_bool_iff in H. congruence.
Qed.


Lemma scale_round_error (q P : Q) :
  0 < P -> Qabs (inject_Z (round_half_even (q / P)) * P - q) <= P * (1 # 2).
Proof.
  intros HP.
  assert (E : inject_Z (round_half_even (q / P)) * P - q
              == (inject_Z (round_half_even (q / P)) - q / P) * P).
  { field. intros H0. rewrite H0 in HP. discriminate. }
  rewrite E, Qabs_Qmult, (Qabs_pos P) by (apply Qlt_le_weak; assumption).
  rewrite (Qmult_comm _ P).
  apply Qmult_le_l; [assumption|]. apply round_half_even_spec.
Qed.

Lemma nearest_error (q : Q) :
  ~ q == 0 -> Qabs (nearest q - q) <= Qabs q * u + eta.
Proof.
  intros Hq. unfold nearest. set (e := Z.max _ _).
  eapply Qle_trans; [apply scale_round_error, pow2_pos|].
  pose proof (binade_lower q Hq) as HB.
  pose proof (Qabs_nonneg q) as Hn.
  destruct (Z.max_spec (binade q - (prec - 1)) emin) as [[_ E]|[_ E]];
    fold e in E; rewrite E.
  - assert (0 <= Qabs q * u).
    { apply Qmult_le_0_compat; [assumption|]. apply Qlt_le_weak, pow2_pos. }
    assert (pow2 emin * (1 # 2) == eta) by reflexivity. lra.
  - replace (binade q - (prec - 1))%Z with (binade q + (-52))%Z by (unfold prec; lia).
    rewrite pow2_add.
    assert (Hu : pow2 (-52) * (1 # 2) == u) by reflexivity.
    rewrite <- Qmult_assoc, Hu.
    assert (0 < eta) by apply pow2_pos.
    assert (pow2 (binade q) * u <= Qabs q * u).
    { apply Qmult_le_compat_r; [assumption|]. apply Qlt_le_weak, pow2_pos. }
    lra.
Qed.

Lemma round64_error (q v : Q) :
  round64 q = Some v -> Qabs (v - q) <= Qabs q * u + eta.
Proof.
  unfold round64.
  destruct (Qeq_bool q 0) eqn:Z0.
  - intros [= <-]. apply Qeq_bool_iff in Z0. rewrite Z0. vm_compute. discriminate.
  - destruct (Qle_bool _ _); [discriminate|]. intros [= <-].
    apply nearest_error, Qeq_bool_neq; assumption.
Qed.

(** No overflow below [2^1023]. *)
Lemma round64_total (q : Q) :
  Qabs q <= pow2 1023 -> exists v, round64 q = Some v.
Proof.
  intros Hb. unfold round64.
  destruct (Qeq_bool q 0) eqn:Z0; [now eexists|].
  destruct (Qle_bool _ _) eqn:O; [|now eexists].
  exfalso. apply Qle_bool_iff in O.
  pose proof (nearest_error q (Qeq_bool_neq _ _ Z0)) as E.
  pose proof (Qabs_triangle (nearest q - q) q) as T.
  assert (R : nearest q - q + q == nearest q) by ring.
  rewrite R in T.
  assert (C : pow2 1023 * (1 + u) + eta < pow2 emax) by (vm_compute; reflexivity).
  assert (Qabs q * u <= pow2 1023 * u).
  { apply Qmult_le_compat_r; [assumption|]. apply Qlt_le_weak, pow2_pos. }
  lra.
Qed.


Lemma round64_approx (q v : Q) :
  0 <= q -> round64 q = Some v -> approx v q.
Proof.
  intros Hq H. apply round64_error in H.
  rewrite (Qabs_pos q) in H by assumption.
  apply Qabs_Qle_condition in H. unfold approx. lra.
Qed.

Ltac float_consts :=
  let uv := eval vm_compute in u in
  let ev := eval vm_compute in eta in
  change u with uv in *; change eta with ev in *.

Lemma approx_fmin sx sy A B :
  approx sx A -> approx sy B -> approx (fmin sx sy) (Qmin A B).
Proof.
  unfold approx, fmin. intros [H1 H2] [H3 H4].
  destruct (Qlt_le_dec sy sx);
    destruct (Q.min_spec A B) as [[? E]|[? E]]; rewrite E;
    float_consts; lra.
Qed.

Lemma approx_fmax sx sy A B :
  approx sx A -> approx sy B -> approx (fmax sx sy) (Qmax A B).
Proof.
  unfold approx, fmax. intros [H1 H2] [H3 H4].
  destruct (Qlt_le_dec sx sy);
    destruct (Q.max_spec A B) as [[? E]|[? E]]; rewrite E;
    float_consts; lra.
Qed.


(** Error of [fl (fl o * s)] against [o * S] when [s] approximates [S]. *)
Lemma chain_bounds (o S s fa v : Q) :
  1 <= o <= M -> / M <= S <= M ->
  approx s S -> approx fa o -> approx v (fa * s) ->
  o * S * (1 - 4 * u) - pow2 (-1000) <= v <= o * S * (1 + 4 * u) + pow2 (-1000).
Proof.
  unfold approx. intros [Ho1 Ho2] [HS1 HS2] [Hs1 Hs2] [Hf1 Hf2] [Hv1 Hv2].
  assert (HM : / M == 1 # 8589934592) by reflexivity.
  assert (HM' : M == 8589934592 # 1) by reflexivity.
  rewrite HM in HS1. rewrite HM' in *. clear HM HM'.
  set (p := pow2 (-1000)). 
  let pv := eval vm_compute in p in change p with pv.
  float_consts.
  assert (U : fa * s <= (o * (1 + (1 # 9007199254740992)) + eta) * (S * (1 + (1 # 9007199254740992)) + eta)).
  { float_consts. apply Qmult_le_compat_nonneg; split; lra. }
  assert (Lo : (o * (1 - (1 # 9007199254740992)) - eta) * (S * (1 - (1 # 9007199254740992)) - eta) <= fa * s).
  { float_consts. apply Qmult_le_compat_nonneg; split; lra. }
  assert (X0 : 0 <= o * S) by (apply Qmult_le_0_compat; lra).
  revert U Lo.
  match goal with |- ?a <= ?b -> _ => 
    assert (E1 : b == o * S * ((1 + (1 # 9007199254740992)) * (1 + (1 # 9007199254740992)))
                   + o * (eta * (1 + (1 # 9007199254740992))) + S * (eta * (1 + (1 # 9007199254740992))) + eta * eta) by ring end.
  match goal with |- _ -> ?a <= ?b -> _ => 
    assert (E2 : a == o * S * ((1 - (1 # 9007199254740992)) * (1 - (1 # 9007199254740992)))
                   - o * (eta * (1 - (1 # 9007199254740992))) - S * (eta * (1 - (1 # 9007199254740992))) + eta * eta) by ring end.
  rewrite E1, E2. clear E1 E2.
  generalize dependent (o * S). generalize dependent (fa * s).
  intros P Hv1 Hv2 X HX U Lo.
  float_consts. split; lra.
Qed.

End FloatFacts.

(** The model computes what [SpecFloat] computes: on quotients and products
    of sizes, on subnormal ties and at the overflow threshold. *)
Example int_div_matches_SpecFloat :
  forallb (fun a => forallb (FloatCheck.div_agrees a) FloatCheck.grid)
    FloatCheck.grid = true.
Proof. vm_compute. reflexivity. Qed.

Example int_mul_matches_SpecFloat :
  forallb (fun o =>
     forallb (fun a => forallb (FloatCheck.mul_agrees o a) [1179; 2556; 7])
       [1290; 2796; 1])
    FloatCheck.grid = true.
Proof. vm_compute. reflexivity. Qed.

Example round64_matches_SpecFloat_at_the_edges :
  forallb (fun '(m, e) => FloatCheck.round_agrees m e)
    [(1, -1075); (3, -1075); (3, -1076); (2 ^ 53 + 1, 0); (2 ^ 53 + 3, 0);
     (2 ^ 1024 - 2 ^ 970, 0); (2 ^ 1024 - 2 ^ 970 - 1, 0); (-5, -2)]%Z = true.
Proof. vm_compute. reflexivity. Qed.

(** The scale of the specification's scenario, 1179 by 2556 into 1290 by
    2796: [min(1290/1179, 2796/2556)] is [0x1.18099d722dabep+0]. *)
Example scenario_scale :
  Float.int_div 2796 2556 = Some (4926472831818430 # 4503599627370496).
Proof. vm_compute. reflexivity. Qed.

(** ** Geometry of the scaled dimensions *)

Module Geometry.

Import Float FloatFacts.
Local Open Scope Q_scope.

(** The lemmas hold on a range slightly wider than [PIL.in_range]. *)
Local Abbreviation wide z := (1 <= z <= 2 ^ 33)%Z (only parsing).

Lemma in_range_wide (z : Z) : PIL.in_range z -> wide z.
Proof. unfold PIL.in_range, PIL.max_dim. lia. Qed.

Lemma inject_Z_bounds (z lo hi : Z) :
  (lo <= z <= hi)%Z -> inject_Z lo <= inject_Z z <= inject_Z hi.
Proof. intros [H1 H2]. split; rewrite <- Zle_Qle; assumption. Qed.

Lemma M_val : M == 8589934592 # 1.
Proof. reflexivity. Qed.

Lemma quot_bounds (a b : Z) :
  (1 <= a <= 2 ^ 33)%Z -> (1 <= b <= 2 ^ 33)%Z ->
  / M <= inject_Z a / inject_Z b <= M.
Proof.
  intros Ha Hb.
  apply (inject_Z_bounds a 1 (2^33)) in Ha. apply (inject_Z_bounds b 1 (2^33)) in Hb.
  fold M in Ha, Hb. change (inject_Z 1) with 1 in *.
  assert (0 < inject_Z b) by lra.
  split.
  - apply Qle_shift_div_l; [assumption|].
    assert (E : / M * inject_Z b <= / M * M).
    { apply Qmult_le_l; [reflexivity|]. tauto. }
    assert (E' : / M * M == 1) by reflexivity. lra.
  - apply Qle_shift_div_r; [assumption|].
    assert (E : M * 1 <= M * inject_Z b).
    { apply Qmult_le_l; [reflexivity|]. tauto. }
    lra.
Qed.

Lemma true_div_approx (a b : Z) :
  (1 <= a <= 2 ^ 33)%Z -> (1 <= b <= 2 ^ 33)%Z ->
  exists s, true_div a b = Ok s /\ approx s (inject_Z a / inject_Z b).
Proof.
  intros Ha Hb. pose proof (quot_bounds a b Ha Hb) as [Q1 Q2].
  unfold true_div. destruct (Z.eqb_spec b 0) as [E|_]; [lia|].
  destruct b as [|p|p]; try lia. cbn [Float.int_div].
  assert (Eq : a # p == inject_Z a / inject_Z (Zpos p)) by apply Qmake_Qdiv.
  assert (Pos : 0 <= a # p).
  { rewrite Eq. assert (0 < / M) by reflexivity. lra. }
  destruct (round64_total (a # p)) as [s Hs].
  { rewrite Qabs_pos by assumption. rewrite Eq.
    assert (M <= pow2 1023) by (vm_compute; discriminate). lra. }
  exists s. rewrite Hs. split; [reflexivity|].
  pose proof (round64_approx _ _ Pos Hs) as A. unfold approx in *.
  rewrite <- Eq. exact A.
Qed.

Lemma scaled_chain (o : Z) (S s : Q) :
  (1 <= o <= 2 ^ 33)%Z -> / M <= S <= M -> approx s S ->
  exists v,
    scaled o s = Ok (Z.max 1 (round_half_even v)) /\
    inject_Z o * S * (1 - 4 * u) - pow2 (-1000) <= v
      <= inject_Z o * S * (1 + 4 * u) + pow2 (-1000).
Proof.
  intros Ho HS Hs.
  apply (inject_Z_bounds o 1 (2^33)) in Ho. fold M in Ho. change (inject_Z 1) with 1 in Ho.
  assert (HM : / M == 1 # 8589934592) by reflexivity.
  assert (Oabs : Qabs (inject_Z o) <= pow2 1023).
  { rewrite Qabs_pos by lra. rewrite M_val in Ho.
    assert ((8589934592 # 1) <= pow2 1023) by (vm_compute; discriminate). lra. }
  destruct (round64_total _ Oabs) as [fa Hfa].
  assert (Afa : approx fa (inject_Z o)) by (apply round64_approx; [lra | assumption]).
  assert (Bs : 0 <= s <= 34359738368 # 1).
  { unfold approx in Hs. rewrite HM, M_val in HS. float_consts. lra. }
  assert (Bf : 0 <= fa <= 34359738368 # 1).
  { unfold approx in Afa. rewrite M_val in Ho. float_consts. lra. }
  assert (Pos : 0 <= fa * s) by (apply Qmult_le_0_compat; tauto).
  assert (Up : fa * s <= (34359738368 # 1) * (34359738368 # 1)).
  { apply Qmult_le_compat_nonneg; tauto. }
  destruct (round64_total (fa * s)) as [v Hv].
  { rewrite Qabs_pos by assumption.
    assert ((34359738368 # 1) * (34359738368 # 1) <= pow2 1023) by (vm_compute; discriminate).
    lra. }
  exists v. split.
  - unfold scaled, Float.int_mul, Float.of_int. rewrite Hfa, Hv. reflexivity.
  - apply chain_bounds with (s := s) (fa := fa); try assumption.
    apply round64_approx; assumption.
Qed.

Lemma round_half_even_le (x : Q) (n : Z) :
  x < inject_Z n + (1 # 2) -> (round_half_even x <= n)%Z.
Proof.
  intros H. pose proof (round_half_even_spec x) as E.
  apply Qabs_Qle_condition in E.
  assert (L : inject_Z (round_half_even x) < inject_Z (n + 1)).
  { rewrite inject_Z_plus. change (inject_Z 1) with 1. lra. }
  rewrite <- Zlt_Qlt in L. lia.
Qed.

Lemma round_half_even_ge (x : Q) (n : Z) :
  inject_Z n - (1 # 2) < x -> (n <= round_half_even x)%Z.
Proof.
  intros H. pose proof (round_half_even_spec x) as E.
  apply Qabs_Qle_condition in E.
  assert (L : inject_Z (n - 1) < inject_Z (round_half_even x)).
  { unfold Z.sub. rewrite inject_Z_plus, inject_Z_opp.
    change (inject_Z 1) with 1. lra. }
  rewrite <- Zlt_Qlt in L. lia.
Qed.

Ltac small_consts :=
  let pv := eval vm_compute in (pow2 (-1000)) in
  change (pow2 (-1000)) with pv in *;
  float_consts.

(** Fitting: when the exact product does not exceed the target [t], neither
    does the rounded dimension, and it is within a pixel of the product. *)
Lemma scaled_fit (o t : Z) (S s : Q) :
  (1 <= o <= 2 ^ 33)%Z -> (1 <= t <= 2 ^ 33)%Z -> / M <= S <= M ->
  inject_Z o * S <= inject_Z t -> approx s S ->
  exists n, scaled o s = Ok n /\ (1 <= n <= t)%Z /\
            Qabs (inject_Z n - inject_Z o * S) < 1.
Proof.
  intros Ho Ht HS HX Hs.
  destruct (scaled_chain o S s Ho HS Hs) as (v & Hn & Hv1 & Hv2).
  exists (Z.max 1 (round_half_even v)). split; [assumption|].
  pose proof (inject_Z_bounds o 1 (2^33) Ho) as Ho'.
  pose proof (inject_Z_bounds t 1 (2^33) Ht) as Ht'.
  change (inject_Z 1) with 1 in *. change (inject_Z (2 ^ 33)) with (8589934592 # 1) in *.
  assert (HM : / M == 1 # 8589934592) by reflexivity. rewrite HM, M_val in HS. clear HM.
  assert (X0 : (1 # 8589934592) <= inject_Z o * S).
  { assert (E : 1 * S <= inject_Z o * S) by (apply Qmult_le_compat_r; lra). lra. }
  pose proof (round_half_even_spec v) as R. apply Qabs_Qle_condition in R.
  revert Hv1 Hv2 HX X0. generalize (inject_Z o * S). intros X Hv1 Hv2 HX X0.
  small_consts.
  assert (Hle : (round_half_even v <= t)%Z).
  { apply round_half_even_le. lra. }
  split; [lia|].
  apply Qabs_Qlt_condition.
  destruct (Z.max_spec 1 (round_half_even v)) as [[Hc E]|[Hc E]]; rewrite E.
  - lra.
  - rewrite Zle_Qle in Hc. change (inject_Z 1) with 1 in *. lra.
Qed.

(** Covering: when the exact product reaches the target [t], so does the
    rounded dimension. *)
Lemma scaled_cover (o t : Z) (S s : Q) :
  (1 <= o <= 2 ^ 33)%Z -> (1 <= t <= 2 ^ 33)%Z -> / M <= S <= M ->
  inject_Z t <= inject_Z o * S -> approx s S ->
  exists n, scaled o s = Ok n /\ (t <= n)%Z.
Proof.
  intros Ho Ht HS HX Hs.
  destruct (scaled_chain o S s Ho HS Hs) as (v & Hn & Hv1 & Hv2).
  exists (Z.max 1 (round_half_even v)). split; [assumption|].
  pose proof (inject_Z_bounds t 1 (2^33) Ht) as Ht'.
  change (inject_Z 1) with 1 in *. change (inject_Z (2 ^ 33)) with (8589934592 # 1) in *.
  revert Hv1 Hv2 HX. generalize (inject_Z o * S). intros X Hv1 Hv2 HX.
  small_consts.
  assert (Hge : (t <= round_half_even v)%Z).
  { apply round_half_even_ge. lra. }
  lia.
Qed.

Lemma mul_quot (a b : Z) : (1 <= b)%Z -> inject_Z b * (inject_Z a / inject_Z b) == inject_Z a.
Proof.
  intros Hb. field. intros E.
  assert (H : inject_Z 1 <= inject_Z b) by (rewrite <- Zle_Qle; assumption).
  rewrite E in H. unfold Qle in H; cbn in H. lia.
Qed.

Lemma mul_le_l (o a b : Q) : 0 <= o -> a <= b -> o * a <= o * b.
Proof.
  intros Ho H. rewrite (Qmult_comm o a), (Qmult_comm o b).
  apply Qmult_le_compat_r; assumption.
Qed.

Lemma wide_pos (o : Z) : wide o -> 0 <= inject_Z o.
Proof.
  intros [H _]. change 0 with (inject_Z 0). rewrite <- Zle_Qle. lia.
Qed.

Lemma pad_geometry (ow oh tw th : Z) :
  wide ow -> wide oh -> wide tw -> wide th ->
  exists sx sy nw nh,
    true_div tw ow = Ok sx /\ true_div th oh = Ok sy /\
    scaled ow (fmin sx sy) = Ok nw /\ scaled oh (fmin sx sy) = Ok nh /\
    (1 <= nw <= tw)%Z /\ (1 <= nh <= th)%Z /\
    approx (fmin sx sy) (exact_fit_scale ow oh tw th) /\
    Qabs (inject_Z nw - inject_Z ow * exact_fit_scale ow oh tw th) < 1 /\
    Qabs (inject_Z nh - inject_Z oh * exact_fit_scale ow oh tw th) < 1.
Proof.
  intros How Hoh Htw Hth.
  destruct (true_div_approx tw ow Htw How) as (sx & Ex & Ax).
  destruct (true_div_approx th oh Hth Hoh) as (sy & Ey & Ay).
  pose proof (quot_bounds tw ow Htw How) as Bx.
  pose proof (quot_bounds th oh Hth Hoh) as By.
  pose proof (approx_fmin _ _ _ _ Ax Ay) as As.
  fold (exact_ratio tw ow) in *. fold (exact_ratio th oh) in *.
  fold (exact_fit_scale ow oh tw th) in As.
  assert (BS : / M <= exact_fit_scale ow oh tw th <= M).
  { unfold exact_fit_scale.
    destruct (Q.min_spec (exact_ratio tw ow) (exact_ratio th oh)) as [[_ E]|[_ E]];
      rewrite E; assumption. }
  assert (Lx : inject_Z ow * exact_fit_scale ow oh tw th <= inject_Z tw).
  { apply Qle_trans with (inject_Z ow * exact_ratio tw ow).
    - apply mul_le_l; [apply wide_pos; assumption|]. apply Q.le_min_l.
    - unfold exact_ratio. rewrite mul_quot by apply How. apply Qle_refl. }
  assert (Ly : inject_Z oh * exact_fit_scale ow oh tw th <= inject_Z th).
  { apply Qle_trans with (inject_Z oh * exact_ratio th oh).
    - apply mul_le_l; [apply wide_pos; assumption|]. apply Q.le_min_r.
    - unfold exact_ratio. rewrite mul_quot by apply Hoh. apply Qle_refl. }
  destruct (scaled_fit ow tw _ _ How Htw BS Lx As) as (nw & En & Bn & Dn).
  destruct (scaled_fit oh th _ _ Hoh Hth BS Ly As) as (nh & Eh & Bh & Dh).
  exists sx, sy, nw, nh. tauto.
Qed.

Lemma crop_geometry (ow oh tw th : Z) :
  wide ow -> wide oh -> wide tw -> wide th ->
  exists sx sy nw nh,
    true_div tw ow = Ok sx /\ true_div th oh = Ok sy /\
    scaled ow (fmax sx sy) = Ok nw /\ scaled oh (fmax sx sy) = Ok nh /\
    approx (fmax sx sy) (exact_cover_scale ow oh tw th) /\
    (tw <= nw)%Z /\ (th <= nh)%Z.
Proof.
  intros How Hoh Htw Hth.
  destruct (true_div_approx tw ow Htw How) as (sx & Ex & Ax).
  destruct (true_div_approx th oh Hth Hoh) as (sy & Ey & Ay).
  pose proof (quot_bounds tw ow Htw How) as Bx.
  pose proof (quot_bounds th oh Hth Hoh) as By.
  pose proof (approx_fmax _ _ _ _ Ax Ay) as As.
  fold (exact_ratio tw ow) in *. fold (exact_ratio th oh) in *.
  fold (exact_cover_scale ow oh tw th) in As.
  assert (BS : / M <= exact_cover_scale ow oh tw th <= M).
  { unfold exact_cover_scale.
    destruct (Q.max_spec (exact_ratio tw ow) (exact_ratio th oh)) as [[_ E]|[_ E]];
      rewrite E; assumption. }
  assert (Lx : inject_Z tw <= inject_Z ow * exact_cover_scale ow oh tw th).
  { apply Qle_trans with (inject_Z ow * exact_ratio tw ow).
    - unfold exact_ratio. rewrite mul_quot by apply How. apply Qle_refl.
    - apply mul_le_l; [apply wide_pos; assumption|]. apply Q.le_max_l. }
  assert (Ly : inject_Z th <= inject_Z oh * exact_cover_scale ow oh tw th).
  { apply Qle_trans with (inject_Z oh * exact_ratio th oh).
    - unfold exact_ratio. rewrite mul_quot by apply Hoh. apply Qle_refl.
    - apply mul_le_l; [apply wide_pos; assumption|]. apply Q.le_max_r. }
  destruct (scaled_cover ow tw _ _ How Htw BS Lx As) as (nw & En & Bn).
  destruct (scaled_cover oh th _ _ Hoh Hth BS Ly As) as (nh & Eh & Bh).
  exists sx, sy, nw, nh. tauto.
Qed.

(** When the exact covering size is within Pillow's range, so is the rounded
    one. *)
Lemma cover_fits (ow oh tw th : Z) :
  wide ow -> wide oh -> wide tw -> wide th ->
  inject_Z ow * exact_cover_scale ow oh tw th <= inject_Z PIL.max_dim ->
  inject_Z oh * exact_cover_scale ow oh tw th <= inject_Z PIL.max_dim ->
  exists sx sy nw nh,
    true_div tw ow = Ok sx /\ true_div th oh = Ok sy /\
    scaled ow (fmax sx sy) = Ok nw /\ scaled oh (fmax sx sy) = Ok nh /\
    (tw <= nw)%Z /\ (th <= nh)%Z /\
    (nw <= PIL.max_dim)%Z /\ (nh <= PIL.max_dim)%Z.
Proof.
  intros How Hoh Htw Hth Fw Fh.
  destruct (crop_geometry ow oh tw th How Hoh Htw Hth)
    as (sx & sy & nw & nh & Ex & Ey & Enw & Enh & As & Bw & Bh).
  pose proof (quot_bounds tw ow Htw How) as Bx.
  pose proof (quot_bounds th oh Hth Hoh) as By.
  fold (exact_ratio tw ow) in Bx. fold (exact_ratio th oh) in By.
  assert (BS : / M <= exact_cover_scale ow oh tw th <= M).
  { unfold exact_cover_scale.
    destruct (Q.max_spec (exact_ratio tw ow) (exact_ratio th oh)) as [[_ E]|[_ E]];
      rewrite E; assumption. }
  assert (Wm : wide PIL.max_dim) by (unfold PIL.max_dim; lia).
  destruct (scaled_fit ow PIL.max_dim _ _ How Wm BS Fw As) as (n1 & E1 & B1 & _).
  destruct (scaled_fit oh PIL.max_dim _ _ Hoh Wm BS Fh As) as (n2 & E2 & B2 & _).
  rewrite Enw in E1. rewrite Enh in E2.
  injection E1 as <-. injection E2 as <-.
  exists sx, sy, nw, nh. repeat split; first [assumption | lia].
Qed.

End Geometry.

(** ** The layout strategies *)

Section LayoutFacts.

Import PIL.
Local Open Scope Z_scope.

Variable resample : Image -> Z -> Z -> Z -> Z -> Pixel.
Variable convert_pixel : Mode -> Mode -> Pixel -> Pixel.

Local Abbreviation oriented_rgb := (oriented_rgb convert_pixel).
Local Abbreviation fit_and_pad := (fit_and_pad resample convert_pixel).
Local Abbreviation cover_and_crop := (cover_and_crop resample convert_pixel).
Local Abbreviation stretch_resize := (stretch_resize resample convert_pixel).
Local Abbreviation apply_layout := (apply_layout resample convert_pixel).
Local Abbreviation resize := (PIL.resize resample).
Local Abbreviation paste := (PIL.paste convert_pixel).

Lemma transpose_size (t : Transpose) (im : Image) :
  size (transpose t im) = size im \/
  size (transpose t im) = (height im, width im).
Proof. destruct t; cbn; auto. Qed.

Lemma transpose_mode (t : Transpose) (im : Image) :
  mode (transpose t im) = mode im.
Proof. destruct t; reflexivity. Qed.

Lemma exif_transpose_size (im : Image) :
  size (exif_transpose im) = size im \/
  size (exif_transpose im) = (height im, width im).
Proof.
  unfold exif_transpose. destruct (exif_method _); [|auto].
  destruct (transpose_size t im) as [E|E]; [left|right]; exact E.
Qed.

Lemma exif_transpose_mode (im : Image) : mode (exif_transpose im) = mode im.
Proof.
  unfold exif_transpose. destruct (exif_method _); [|reflexivity].
  apply transpose_mode.
Qed.

Lemma oriented_rgb_size (im : Image) :
  size (oriented_rgb im) = size (exif_transpose im).
Proof. unfold oriented_rgb. destruct (_ || _); reflexivity. Qed.

Lemma oriented_rgb_mode (im : Image) :
  mode (oriented_rgb im) = if mode_eqb (mode im) RGBA then RGBA else RGB.
Proof.
  unfold oriented_rgb. rewrite exif_transpose_mode.
  destruct (mode im) eqn:E; cbn; rewrite ?exif_transpose_mode; auto.
Qed.

Lemma oriented_rgb_decodable (im : Image) :
  decodable im -> decodable (oriented_rgb im).
Proof.
  intros [Hw Hh]. unfold decodable.
  pose proof (oriented_rgb_size im) as E.
  destruct (exif_transpose_size im) as [E'|E']; rewrite E' in E;
    injection E as -> ->; auto.
Qed.

Lemma c_int_spec (z : Z) : c_int z = true <-> - max_dim - 1 <= z <= max_dim.
Proof. unfold c_int. rewrite andb_true_iff, !Z.leb_le. tauto. Qed.

Lemma in_range_c_int (z : Z) : in_range z -> c_int z = true.
Proof. intros H. apply c_int_spec. unfold in_range, max_dim in *. lia. Qed.

Lemma resize_size (im out : Image) (nw nh : Z) :
  resize im (nw, nh) = Ok out -> size out = (nw, nh).
Proof.
  unfold PIL.resize. destruct (_ && _) eqn:E.
  - intros [= <-]. apply andb_true_iff in E as [E1 E2].
    apply Z.eqb_eq in E1, E2. unfold size. congruence.
  - destruct (negb _); [discriminate|]. destruct (_ || _); [discriminate|].
    intros [= <-]. reflexivity.
Qed.

Lemma resize_mode (im out : Image) (sz : Z * Z) :
  resize im sz = Ok out -> mode out = mode im.
Proof.
  destruct sz as [nw nh]. unfold PIL.resize. destruct (_ && _).
  - intros [= <-]. reflexivity.
  - destruct (negb _); [discriminate|]. destruct (_ || _); [discriminate|].
    intros [= <-]. reflexivity.
Qed.

(** A successful resize of a decodable image has both sides in range. *)
Lemma resize_range (im out : Image) (nw nh : Z) :
  decodable im -> resize im (nw, nh) = Ok out -> in_range nw /\ in_range nh.
Proof.
  intros [Hw Hh]. unfold PIL.resize. destruct (_ && _) eqn:E.
  - intros _. apply andb_true_iff in E as [E1 E2].
    apply Z.eqb_eq in E1, E2. subst. auto.
  - destruct (c_int nw && c_int nh) eqn:C; [|discriminate]. cbn [negb].
    apply andb_true_iff in C as [C1 C2]. apply c_int_spec in C1, C2.
    destruct (Z.ltb_spec nw 1); [discriminate|].
    destruct (Z.ltb_spec nh 1); [discriminate|].
    intros _. unfold in_range. lia.
Qed.

Lemma resize_ok (im : Image) (nw nh : Z) :
  in_range nw -> in_range nh -> exists out, resize im (nw, nh) = Ok out.
Proof.
  intros H1 H2. unfold PIL.resize.
  destruct (_ && _); [eexists; reflexivity|].
  rewrite (in_range_c_int _ H1), (in_range_c_int _ H2). cbn [andb negb].
  destruct (Z.ltb_spec nw 1); [unfold in_range in *; lia|].
  destruct (Z.ltb_spec nh 1); [unfold in_range in *; lia|].
  eexists; reflexivity.
Qed.

Lemma new_inv (m : Mode) (w h : Z) (c : Pixel) (out : Image) :
  new m (w, h) c = Ok out ->
  (0 <= w <= max_dim /\ 0 <= h <= max_dim) /\
  mode out = m /\ size out = (w, h) /\ forall x y, pixel out x y = c.
Proof.
  unfold new.
  destruct (Z.ltb_spec w 0); [discriminate|].
  destruct (Z.ltb_spec h 0); [discriminate|]. cbn [orb].
  destruct (c_int w && c_int h) eqn:C; [|discriminate]. cbn [negb].
  apply andb_true_iff in C as [C1 C2]. apply c_int_spec in C1, C2.
  intros [= <-]. repeat split; auto; lia.
Qed.

Lemma new_ok (m : Mode) (w h : Z) (c : Pixel) :
  0 <= w <= max_dim -> 0 <= h <= max_dim -> exists out, new m (w, h) c = Ok out.
Proof.
  intros H1 H2. unfold new.
  destruct (Z.ltb_spec w 0); [lia|]. destruct (Z.ltb_spec h 0); [lia|].
  cbn [orb].
  replace (c_int w) with true by (symmetry; apply c_int_spec; unfold max_dim in *; lia).
  replace (c_int h) with true by (symmetry; apply c_int_spec; unfold max_dim in *; lia).
  eexists; reflexivity.
Qed.

Lemma crop_inv (im out : Image) (x0 y0 x1 y1 : Z) :
  crop im (x0, y0, x1, y1) = Ok out ->
  (x0 <= x1 /\ y0 <= y1) /\
  (- max_dim - 1 <= x0 /\ x1 <= max_dim /\ - max_dim - 1 <= y0 /\ y1 <= max_dim) /\
  mode out = mode im /\ size out = (x1 - x0, y1 - y0) /\
  forall i j, pixel out i j =
    if (0 <=? x0 + i) && (x0 + i <? width im)
       && (0 <=? y0 + j) && (y0 + j <? height im)
    then pixel im (x0 + i) (y0 + j) else blank (mode im).
Proof.
  unfold crop.
  destruct (Z.ltb_spec x1 x0); [discriminate|].
  destruct (Z.ltb_spec y1 y0); [discriminate|]. cbn [orb].
  destruct (c_int x0 && c_int y0 && c_int x1 && c_int y1) eqn:C; [|discriminate].
  cbn [negb]. rewrite !andb_true_iff, !c_int_spec in C.
  intros [= <-]. repeat split; auto; lia.
Qed.

Lemma crop_ok (im : Image) (x0 y0 x1 y1 : Z) :
  x0 <= x1 -> y0 <= y1 ->
  - max_dim - 1 <= x0 -> x1 <= max_dim -> - max_dim - 1 <= y0 -> y1 <= max_dim ->
  exists out, crop im (x0, y0, x1, y1) = Ok out.
Proof.
  intros. unfold crop.
  destruct (Z.ltb_spec x1 x0); [lia|]. destruct (Z.ltb_spec y1 y0); [lia|].
  cbn [orb].
  replace (c_int x0) with true by (symmetry; apply c_int_spec; lia).
  replace (c_int y0) with true by (symmetry; apply c_int_spec; lia).
  replace (c_int x1) with true by (symmetry; apply c_int_spec; lia).
  replace (c_int y1) with true by (symmetry; apply c_int_spec; lia).
  eexists; reflexivity.
Qed.

(** Inversion of a monadic step. *)
Lemma bind_ok {A B : Type} (r : result A) (k : A -> result B) (b : B) :
  bind r k = Ok b -> exists a, r = Ok a /\ k a = Ok b.
Proof. destruct r; cbn; [eauto | discriminate]. Qed.

(** The steps of a successful [fit_and_pad]. *)
Lemma fit_and_pad_inv im tw th bg out :
  fit_and_pad im (tw, th) bg = Ok out ->
  let src := oriented_rgb im in
  exists sx sy nw nh resized canvas,
    true_div tw (width src) = Ok sx /\ true_div th (height src) = Ok sy /\
    scaled (width src) (Float.fmin sx sy) = Ok nw /\
    scaled (height src) (Float.fmin sx sy) = Ok nh /\
    resize src (nw, nh) = Ok resized /\
    new RGB (tw, th) (color_pixel bg) = Ok canvas /\
    out = paste canvas resized ((tw - nw) / 2, (th - nh) / 2).
Proof.
  intros H src. unfold fit_and_pad in H. cbn [size] in H. fold src in H.
  apply bind_ok in H as (sx & Ex & H). apply bind_ok in H as (sy & Ey & H).
  apply bind_ok in H as (nw & Enw & H). apply bind_ok in H as (nh & Enh & H).
  apply bind_ok in H as (resized & Er & H). apply bind_ok in H as (canvas & Ec & H).
  injection H as <-. exists sx, sy, nw, nh, resized, canvas. auto 10.
Qed.

(** The steps of a successful [cover_and_crop]. *)
Lemma cover_and_crop_inv im tw th out :
  cover_and_crop im (tw, th) = Ok out ->
  let src := oriented_rgb im in
  exists sx sy nw nh resized,
    true_div tw (width src) = Ok sx /\ true_div th (height src) = Ok sy /\
    scaled (width src) (Float.fmax sx sy) = Ok nw /\
    scaled (height src) (Float.fmax sx sy) = Ok nh /\
    resize src (nw, nh) = Ok resized /\
    crop resized ((nw - tw) / 2, (nh - th) / 2,
                  (nw - tw) / 2 + tw, (nh - th) / 2 + th) = Ok out.
Proof.
  intros H src. unfold cover_and_crop in H. cbn [size] in H. fold src in H.
  apply bind_ok in H as (sx & Ex & H). apply bind_ok in H as (sy & Ey & H).
  apply bind_ok in H as (nw & Enw & H). apply bind_ok in H as (nh & Enh & H).
  apply bind_ok in H as (resized & Er & H).
  exists sx, sy, nw, nh, resized. auto 10.
Qed.

Lemma fit_and_pad_size im tw th bg out :
  fit_and_pad im (tw, th) bg = Ok out -> size out = (tw, th).
Proof.
  intros H. apply fit_and_pad_inv in H
    as (sx & sy & nw & nh & resized & canvas & _ & _ & _ & _ & _ & Ec & ->).
  apply new_inv in Ec as (_ & _ & S & _). exact S.
Qed.

Lemma cover_and_crop_size im tw th out :
  cover_and_crop im (tw, th) = Ok out -> size out = (tw, th).
Proof.
  intros H. apply cover_and_crop_inv in H
    as (sx & sy & nw & nh & resized & _ & _ & _ & _ & _ & Ec).
  apply crop_inv in Ec as (_ & _ & _ & S & _). rewrite S. f_equal; lia.
Qed.

Lemma stretch_resize_size im tw th out :
  stretch_resize im (tw, th) = Ok out -> size out = (tw, th).
Proof. unfold stretch_resize. apply resize_size. Qed.

(** [fit_and_pad] returns on a decodable image and a target in range. *)
Lemma fit_and_pad_total im tw th bg :
  decodable im -> in_range tw -> in_range th ->
  exists out, fit_and_pad im (tw, th) bg = Ok out.
Proof.
  intros Him Htw Hth.
  destruct (oriented_rgb_decodable im Him) as [How Hoh].
  destruct (Geometry.pad_geometry _ _ tw th
              (Geometry.in_range_wide _ How) (Geometry.in_range_wide _ Hoh)
              (Geometry.in_range_wide _ Htw) (Geometry.in_range_wide _ Hth))
    as (sx & sy & nw & nh & Ex & Ey & Enw & Enh & Bw & Bh & _).
  destruct (resize_ok (oriented_rgb im) nw nh) as [resized Er];
    try (unfold in_range in *; lia).
  destruct (new_ok RGB tw th (color_pixel bg)) as [canvas Ec];
    try (unfold in_range in *; lia).
  eexists. unfold fit_and_pad. cbn [size].
  rewrite Ex, Ey; cbn [bind]. rewrite Enw, Enh; cbn [bind].
  rewrite Er; cbn [bind]. rewrite Ec; cbn [bind]. reflexivity.
Qed.

(** [cover_and_crop] returns when, in addition, the covering size is within
    Pillow's range. *)
Lemma cover_and_crop_total im tw th :
  decodable im -> in_range tw -> in_range th ->
  let src := oriented_rgb im in
  cover_in_range (width src) (height src) tw th ->
  exists out, cover_and_crop im (tw, th) = Ok out.
Proof.
  intros Him Htw Hth src [Fw Fh].
  destruct (oriented_rgb_decodable im Him) as [How Hoh]. fold src in How, Hoh.
  destruct (Geometry.cover_fits (width src) (height src) tw th
              (Geometry.in_range_wide _ How) (Geometry.in_range_wide _ Hoh)
              (Geometry.in_range_wide _ Htw) (Geometry.in_range_wide _ Hth) Fw Fh)
    as (sx & sy & nw & nh & Ex & Ey & Enw & Enh & Bw & Bh & Mw & Mh).
  destruct (resize_ok src nw nh) as [resized Er];
    try (unfold in_range in *; lia).
  destruct (crop_ok resized ((nw - tw) / 2) ((nh - th) / 2)
              ((nw - tw) / 2 + tw) ((nh - th) / 2 + th)) as [out Eo];
    try (unfold in_range, max_dim in *;
         pose proof (Z.div_pos (nw - tw) 2 ltac:(lia) ltac:(lia));
         pose proof (Z.div_pos (nh - th) 2 ltac:(lia) ltac:(lia));
         pose proof (Z.mul_div_le (nw - tw) 2 ltac:(lia));
         pose proof (Z.mul_div_le (nh - th) 2 ltac:(lia)); lia).
  exists out. unfold cover_and_crop. cbn [size]. fold src.
  rewrite Ex, Ey; cbn [bind]. rewrite Enw, Enh; cbn [bind].
  rewrite Er; cbn [bind]. exact Eo.
Qed.


(** C1.  For each of the three strategies and every target with
    [tw >= 1] and [th >= 1]: whenever the strategy returns a raster, its
    width is exactly [tw] and its height exactly [th].  It does return one
    for a decodable source and a target within Pillow's range; for crop this
    also needs the covering size to be within that range. *)
Theorem layout_output_size (m : LayoutMode) im tw th bg :
  1 <= tw -> 1 <= th ->
  (forall out, apply_layout m im (tw, th) bg = Ok out ->
               width out = tw /\ height out = th) /\
  (decodable im -> tw <= max_dim -> th <= max_dim ->
   (m = Crop ->
    cover_in_range (width (oriented_rgb im)) (height (oriented_rgb im)) tw th) ->
   exists out, apply_layout m im (tw, th) bg = Ok out /\
               width out = tw /\ height out = th).
Proof.
  intros Htw Hth.
  assert (P : forall out, apply_layout m im (tw, th) bg = Ok out ->
                          width out = tw /\ height out = th).
  { intros out H.
    assert (S : size out = (tw, th)).
    { destruct m; unfold apply_layout in H.
      - eapply fit_and_pad_size; eassumption.
      - eapply cover_and_crop_size; eassumption.
      - eapply stretch_resize_size; eassumption. }
    injection S as <- <-. auto. }
  split; [exact P|].
  intros Him Mw Mh Hc.
  assert (Rw : in_range tw) by (unfold in_range; lia).
  assert (Rh : in_range th) by (unfold in_range; lia).
  assert (E : exists out, apply_layout m im (tw, th) bg = Ok out).
  { destruct m; unfold apply_layout.
    - apply fit_and_pad_total; assumption.
    - apply cover_and_crop_total; auto.
    - unfold stretch_resize. apply resize_ok; assumption. }
  destruct E as [out E]. exists out. split; [exact E|]. apply P; exact E.
Qed.

Lemma Ok_inj {A : Type} (a b : A) : Ok a = Ok b -> a = b.
Proof. now intros [= ->]. Qed.


(** C3.  Crop mode on a decodable source: the scale is
    [max(tw / ow, th / oh)] in binary64; the resized image [(nw, nh)] covers
    the target, [nw >= tw] and [nh >= th]; and the output is the [tw] by
    [th] window of the resized image at offset
    [((nw - tw) // 2, (nh - th) // 2)]: every output pixel is a pixel of the
    resized image inside its bounds, so no padding appears. *)
Theorem cover_and_crop_window im tw th :
  decodable im -> 1 <= tw -> 1 <= th ->
  (tw <= max_dim -> th <= max_dim ->
   cover_in_range (width (oriented_rgb im)) (height (oriented_rgb im)) tw th ->
   exists out, cover_and_crop im (tw, th) = Ok out) /\
  forall out, cover_and_crop im (tw, th) = Ok out ->
    let src := oriented_rgb im in
    let ow := width src in
    let oh := height src in
    exists sx sy nw nh resized,
      true_div tw ow = Ok sx /\ true_div th oh = Ok sy /\
      Float.approx (Float.fmax sx sy) (Float.exact_cover_scale ow oh tw th) /\
      scaled ow (Float.fmax sx sy) = Ok nw /\
      scaled oh (Float.fmax sx sy) = Ok nh /\
      resize src (nw, nh) = Ok resized /\ size resized = (nw, nh) /\
      (tw <= nw /\ th <= nh) /\
      let x := (nw - tw) / 2 in
      let y := (nh - th) / 2 in
      forall i j, 0 <= i < tw -> 0 <= j < th ->
        (0 <= x + i < nw /\ 0 <= y + j < nh) /\
        pixel out i j = pixel resized (x + i) (y + j).
Proof.
  intros Him Htw Hth. split.
  { intros Mw Mh Hc. apply cover_and_crop_total; [assumption|..];
      first [exact Hc | unfold in_range; lia]. }
  intros out H src ow oh.
  apply cover_and_crop_inv in H
    as (sx & sy & nw & nh & resized & Ex & Ey & Enw & Enh & Er & Ec).
  fold src in Ex, Ey, Enw, Enh, Er. fold ow oh in Ex, Ey, Enw, Enh.
  pose proof (oriented_rgb_decodable im Him) as Hsrc. fold src in Hsrc.
  destruct Hsrc as [How Hoh]. fold ow oh in How, Hoh.
  destruct (resize_range src resized nw nh (conj How Hoh) Er) as [Rw Rh].
  pose proof (resize_size _ _ _ _ Er) as Sr.
  apply crop_inv in Ec as (_ & (X0 & X1 & Y0 & Y1) & _ & _ & Po).
  assert (Ww : 1 <= tw <= 2 ^ 33) by (unfold in_range, max_dim in *; lia).
  assert (Wh : 1 <= th <= 2 ^ 33) by (unfold in_range, max_dim in *; lia).
  destruct (Geometry.crop_geometry ow oh tw th
              (Geometry.in_range_wide _ How) (Geometry.in_range_wide _ Hoh) Ww Wh)
    as (sx' & sy' & nw' & nh' & Ex' & Ey' & Enw' & Enh' & As & Bw & Bh).
  rewrite Ex in Ex'. apply Ok_inj in Ex'. subst sx'.
  rewrite Ey in Ey'. apply Ok_inj in Ey'. subst sy'.
  rewrite Enw in Enw'. apply Ok_inj in Enw'. subst nw'.
  rewrite Enh in Enh'. apply Ok_inj in Enh'. subst nh'.
  exists sx, sy, nw, nh, resized.
  repeat (split; [first [assumption | lia]|]).
  intros x y i j Hi Hj.
  assert (Hx : 0 <= x /\ x + tw <= nw).
  { subst x. split; [apply Z.div_pos; lia|].
    pose proof (Z.mul_div_le (nw - tw) 2 ltac:(lia)). lia. }
  assert (Hy : 0 <= y /\ y + th <= nh).
  { subst y. split; [apply Z.div_pos; lia|].
    pose proof (Z.mul_div_le (nh - th) 2 ltac:(lia)). lia. }
  split; [lia|].
  rewrite Po. fold x y. injection Sr as -> ->.
  destruct (Z.leb_spec 0 (x + i)); [|lia].
  destruct (Z.ltb_spec (x + i) nw); [|lia].
  destruct (Z.leb_spec 0 (y + j)); [|lia].
  destruct (Z.ltb_spec (y + j) nh); [|lia].
  reflexivity.
Qed.

Lemma layout_mode (m : LayoutMode) im target bg out :
  apply_layout m im target bg = Ok out ->
  mode out = match m with
             | Pad => RGB
             | Crop | Stretch => mode (oriented_rgb im)
             end.
Proof.
  destruct target as [tw th].
  destruct m; unfold apply_layout; intros H.
  - apply fit_and_pad_inv in H
      as (sx & sy & nw & nh & resized & canvas & _ & _ & _ & _ & _ & Ec & ->).
    apply new_inv in Ec as (_ & Mc & _). exact Mc.
  - apply cover_and_crop_inv in H
      as (sx & sy & nw & nh & resized & _ & _ & _ & _ & Er & Ec).
    apply crop_inv in Ec as (_ & _ & Mc & _). apply resize_mode in Er. congruence.
  - unfold stretch_resize in H. apply resize_mode in H. exact H.
Qed.

(** C9, amended.  Each strategy measures the image after
    [exif_transpose], and works on an image whose mode is RGBA when the
    source mode is RGBA and RGB otherwise.  Crop and stretch return that
    mode; pad always returns RGB.  Hence the output carries an alpha channel
    only if the source did, and not always when it did. *)
Theorem layout_alpha_only_from_rgba (m : LayoutMode) im target bg out :
  apply_layout m im target bg = Ok out ->
  size (oriented_rgb im) = size (exif_transpose im) /\
  mode (oriented_rgb im) = (if mode_eqb (mode im) RGBA then RGBA else RGB) /\
  mode out = match m with
             | Pad => RGB
             | Crop | Stretch => if mode_eqb (mode im) RGBA then RGBA else RGB
             end /\
  (has_alpha (mode out) = true -> has_alpha (mode im) = true).
Proof.
  intros H. apply layout_mode in H.
  pose proof (oriented_rgb_mode im) as Mo. rewrite Mo in H.
  split; [apply oriented_rgb_size|]. split; [exact Mo|]. split; [exact H|].
  rewrite H. destruct m; destruct (mode im); cbn; congruence.
Qed.

End LayoutFacts.

(** ** Strings, paths and file names *)

Module StrFacts.

Local Open Scope string_scope.

Lemma append_nil_r (s : string) : s ++ "" = s.
Proof. induction s; cbn; congruence. Qed.

Lemma append_assoc (a b c : string) : (a ++ b) ++ c = a ++ (b ++ c).
Proof. induction a; cbn; congruence. Qed.

Lemma append_inv_head (a x y : string) : a ++ x = a ++ y -> x = y.
Proof. induction a; cbn; [auto | intros [= H]; auto]. Qed.

Lemma length_append (a b : string) :
  String.length (a ++ b) = (String.length a + String.length b)%nat.
Proof. induction a; cbn; congruence. Qed.

Lemma append_inv_tail (x y a : string) : x ++ a = y ++ a -> x = y.
Proof.
  revert y. induction x as [|c x IH]; intros [|d y] H; cbn in H.
  - reflexivity.
  - apply (f_equal String.length) in H. cbn in H. rewrite length_append in H. lia.
  - apply (f_equal String.length) in H. cbn in H. rewrite length_append in H. lia.
  - injection H as -> H. f_equal. apply IH; exact H.
Qed.

Lemma contains_append (c : ascii) (a b : string) :
  Str.contains c (a ++ b) = Str.contains c a || Str.contains c b.
Proof.
  induction a as [|d a IH]; cbn; [reflexivity|].
  rewrite IH. apply orb_assoc.
Qed.

(** Two decompositions at the last occurrence of a character agree. *)
Lemma append_last_inj (c : ascii) (a1 r1 a2 r2 : string) :
  Str.contains c r1 = false -> Str.contains c r2 = false ->
  a1 ++ String c r1 = a2 ++ String c r2 -> a1 = a2 /\ r1 = r2.
Proof.
  intros H1 H2. revert a2.
  induction a1 as [|d a1 IH]; intros [|d2 a2] E; cbn in E.
  - injection E as ->. auto.
  - injection E as <- E. subst r1.
    rewrite contains_append in H1. cbn in H1. rewrite Ascii.eqb_refl in H1.
    rewrite orb_true_r in H1. discriminate.
  - injection E as -> E. subst r2.
    rewrite contains_append in H2. cbn in H2. rewrite Ascii.eqb_refl in H2.
    rewrite orb_true_r in H2. discriminate.
  - injection E as -> E. destruct (IH a2 E) as [-> ->]. auto.
Qed.

Lemma lower_append (a b : string) :
  Str.lower (a ++ b) = Str.lower a ++ Str.lower b.
Proof. induction a; cbn; congruence. Qed.

Lemma endswith_refl (s : string) : Str.endswith s s = true.
Proof. destruct s; cbn; rewrite ?Ascii.eqb_refl, ?String.eqb_refl; reflexivity. Qed.

Lemma endswith_append (a b suffix : string) :
  Str.endswith b suffix = true -> Str.endswith (a ++ b) suffix = true.
Proof.
  intros H. induction a as [|c a IH]; cbn; [exact H|].
  rewrite IH. apply orb_true_r.
Qed.

Import Str.

Lemma all_chars_contains (P : ascii -> bool) (c : ascii) (s : string) :
  all_chars P s = true -> P c = false -> Str.contains c s = false.
Proof.
  intros H Hc. induction s as [|d s IH]; cbn in *; [reflexivity|].
  apply andb_true_iff in H as [Hd Hs]. rewrite (IH Hs), orb_false_r.
  destruct (Ascii.eqb_spec d c) as [->|]; [congruence | reflexivity].
Qed.

Lemma string_of_uint_digits (u : Decimal.uint) :
  all_chars digit_char (NilEmpty.string_of_uint u) = true.
Proof. induction u; cbn; auto. Qed.

Lemma of_int_chars (z : Z) :
  all_chars (fun c => digit_char c || Ascii.eqb c "-") (Str.of_int z) = true.
Proof.
  assert (W : forall u, all_chars (fun c => digit_char c || Ascii.eqb c "-")
                          (NilZero.string_of_uint u) = true).
  { intros u. destruct u; try reflexivity;
      (cbn; pose proof (string_of_uint_digits u) as H;
       clear - H; induction (NilEmpty.string_of_uint u) as [|c s IH];
       [reflexivity | cbn in *; apply andb_true_iff in H as [-> H]; cbn; auto]). }
  unfold Str.of_int. destruct (Z.to_int z); cbn [NilZero.string_of_int]; [apply W|].
  cbn. apply W.
Qed.

Lemma of_int_no_char (c : ascii) (z : Z) :
  digit_char c || Ascii.eqb c "-" = false -> Str.contains c (Str.of_int z) = false.
Proof. intros H. eapply all_chars_contains; [apply of_int_chars | exact H]. Qed.

Lemma of_int_inj (z z' : Z) : Str.of_int z = Str.of_int z' -> z = z'.
Proof.
  unfold Str.of_int. intros H.
  assert (N : forall z, Z.to_int z <> Decimal.Pos Decimal.Nil /\
                        Z.to_int z <> Decimal.Neg Decimal.Nil).
  { intros [|p|p]; cbn; split; try discriminate;
      intros [= E]; now apply (Unsigned.to_uint_nonnil p). }
  apply (f_equal NilZero.int_of_string) in H.
  rewrite !NilZero.isi in H by apply N.
  injection H as H. apply DecimalZ.to_int_inj. exact H.
Qed.


(** *** Paths *)

Lemma basename_no_slash (p : string) : contains "/" (Path.basename p) = false.
Proof.
  induction p as [|c p IH]; [reflexivity|].
  cbn [Path.basename]. destruct (contains "/" (String c p)) eqn:E; assumption.
Qed.

Lemma basename_id (b : string) : contains "/" b = false -> Path.basename b = b.
Proof. destruct b; cbn [Path.basename]; [reflexivity|]. intros ->. reflexivity. Qed.

Lemma head_nil (b : string) : contains "/" b = false -> Path.head b = "".
Proof. destruct b; cbn [Path.head]; [reflexivity|]. intros ->. reflexivity. Qed.

Lemma rsplit_append (c : ascii) (s a b : string) :
  Path.rsplit c s = Some (a, b) -> s = a ++ b.
Proof.
  revert a b. induction s as [|d s IH]; intros a b; cbn; [discriminate|].
  destruct (Path.rsplit c s) as [[a' b']|].
  - intros [= <- <-]. cbn. f_equal. apply IH. reflexivity.
  - destruct (Ascii.eqb d c); [|discriminate]. intros [= <- <-]. reflexivity.
Qed.

Lemma stem_no_slash (p : string) : contains "/" (Path.stem p) = false.
Proof.
  unfold Path.stem, Path.splitext.
  pose proof (basename_no_slash p) as N. set (b := Path.basename p) in *.
  rewrite (basename_id b N), (head_nil b N).
  destruct (Path.rsplit "." b) as [[st ext]|] eqn:E; [|exact N].
  destruct (Path.all_dots st); [exact N|]. cbn.
  apply rsplit_append in E. rewrite E, contains_append in N.
  apply orb_false_iff in N. tauto.
Qed.

Import Path PyInt.
Lemma join_relative (a name rest : string) :
  contains "/" name = false ->
  Path.join a (name ++ String "_" rest) = join_prefix a ++ name ++ String "_" rest.
Proof.
  intros N. unfold Path.join, join_prefix.
  assert (P : startswith (name ++ String "_" rest) "/" = false).
  { destruct name as [|c name]; cbn; [reflexivity|].
    cbn in N. apply orb_false_iff in N as [-> _]. reflexivity. }
  rewrite P. destruct (_ || _); [reflexivity|]. now rewrite append_assoc.
Qed.

Lemma variant_path_eq (outdir base : string) (w h : Z) (fmt suffix : string) :
  variant_path outdir base (w, h) fmt suffix
  = join_prefix outdir ++ Path.stem base ++ String "_"
      (of_int w ++ String "x" (of_int h ++ suffix ++ "." ++ lower fmt)).
Proof.
  unfold variant_path, variant_name, Path.stem.
  pose proof (stem_no_slash base) as N. unfold Path.stem in N.
  destruct (Path.splitext (Path.basename base)) as [name ext]. cbn [fst] in *.
  apply join_relative. exact N.
Qed.

Lemma variant_path_inj (outdir fmt b1 b2 : string) (w1 h1 w2 h2 : Z) (l1 l2 : bool) :
  variant_path outdir b1 (w1, h1) fmt (if l1 then "_landscape" else "")
  = variant_path outdir b2 (w2, h2) fmt (if l2 then "_landscape" else "") ->
  Path.stem b1 = Path.stem b2 /\ w1 = w2 /\ h1 = h2 /\ l1 = l2.
Proof.
  rewrite !variant_path_eq. intros E.
  apply append_inv_head in E.
  (* drop the common extension *)
  assert (R : forall st w h (l : bool),
             st ++ String "_" (of_int w ++ String "x"
                    (of_int h ++ (if l then "_landscape" else "") ++ "." ++ lower fmt))
             = ((st ++ String "_" (of_int w)) ++ String "x"
                   (of_int h ++ (if l then "_landscape" else ""))) ++ "." ++ lower fmt).
  { intros. rewrite ?append_assoc. cbn [append]. rewrite ?append_assoc.
    reflexivity. }
  rewrite !R in E. apply append_inv_tail in E.
  assert (Nx : forall h (l : bool),
             contains "x" (of_int h ++ (if l then "_landscape" else "")) = false).
  { intros h l. rewrite contains_append, of_int_no_char by reflexivity.
    destruct l; reflexivity. }
  apply append_last_inj in E as [E1 E2]; try apply Nx.
  apply append_last_inj in E1 as [Es Ew]; try (apply of_int_no_char; reflexivity).
  apply of_int_inj in Ew.
  assert (El : l1 = l2).
  { destruct l1, l2; try reflexivity; exfalso.
    - rewrite append_nil_r in E2.
      pose proof (of_int_no_char "_" h2 eq_refl) as C.
      rewrite <- E2, contains_append in C. cbn in C.
      rewrite orb_true_r in C. discriminate.
    - rewrite append_nil_r in E2.
      pose proof (of_int_no_char "_" h1 eq_refl) as C.
      rewrite E2, contains_append in C. cbn in C.
      rewrite orb_true_r in C. discriminate. }
  subst l2. apply append_inv_tail in E2. apply of_int_inj in E2. auto.
Qed.



(** *** Gathering inputs *)

Lemma join_suffix (a b : string) : exists pre, Path.join a b = pre ++ b.
Proof.
  unfold Path.join. destruct (startswith b "/").
  - exists "". reflexivity.
  - destruct (_ || _).
    + exists a. reflexivity.
    + exists (a ++ "/"). now rewrite append_assoc.
Qed.

Lemma join_keeps_suffix (root f ext : string) :
  endswith (lower f) ext = true ->
  endswith (lower (Path.join root f)) ext = true.
Proof.
  intros H. destruct (join_suffix root f) as [pre ->].
  rewrite lower_append. apply endswith_append. exact H.
Qed.



(** *** Size tokens *)

Lemma lstrip_append (a r : string) (c : ascii) :
  is_space c = false -> lstrip (a ++ String c r) = lstrip a ++ String c r.
Proof.
  intros Hc. induction a as [|d a IH]; cbn.
  - now rewrite Hc.
  - destruct (is_space d); [exact IH | reflexivity].
Qed.

Lemma rstrip_append (a r : string) (c : ascii) :
  is_space c = false -> rstrip (a ++ String c r) = a ++ String c (rstrip r).
Proof.
  intros Hc. induction a as [|d a IH]; cbn.
  - now rewrite Hc.
  - rewrite IH. destruct a; cbn; now rewrite andb_false_r.
Qed.

Lemma lstrip_idem (s : string) : lstrip (lstrip s) = lstrip s.
Proof.
  induction s as [|c s IH]; cbn; [reflexivity|].
  destruct (is_space c) eqn:E; [exact IH|]. cbn. now rewrite E.
Qed.

Lemma rstrip_idem (s : string) : rstrip (rstrip s) = rstrip s.
Proof.
  induction s as [|c s IH]; cbn; [reflexivity|].
  destruct (is_space c && is_empty (rstrip s)) eqn:E; [reflexivity|].
  cbn. rewrite IH, E. reflexivity.
Qed.

Lemma lstrip_rstrip (s : string) : lstrip (rstrip s) = rstrip (lstrip s).
Proof.
  induction s as [|c s IH]; cbn; [reflexivity|].
  destruct (is_space c) eqn:E; cbn.
  - destruct (rstrip s) eqn:R; cbn.
    + rewrite <- IH. reflexivity.
    + rewrite E. exact IH.
  - rewrite E. cbn. reflexivity.
Qed.

Lemma strip_lstrip (s : string) : strip (lstrip s) = strip s.
Proof. unfold strip. now rewrite lstrip_idem. Qed.

Lemma strip_rstrip (s : string) : strip (rstrip s) = strip s.
Proof. unfold strip. now rewrite lstrip_rstrip, rstrip_idem. Qed.

Lemma all_chars_lstrip P s : all_chars P s = true -> all_chars P (lstrip s) = true.
Proof.
  induction s as [|c s IH]; cbn; [auto|]. intros H.
  destruct (is_space c); [|exact H].
  apply andb_true_iff in H as [_ H]. auto.
Qed.

Lemma all_chars_rstrip P s : all_chars P s = true -> all_chars P (rstrip s) = true.
Proof.
  induction s as [|c s IH]; cbn; [auto|]. intros H.
  apply andb_true_iff in H as [Hc H].
  destruct (_ && _); [reflexivity|]. cbn. now rewrite Hc, IH.
Qed.

Lemma all_chars_strip_inv P s :
  (forall c, is_space c = true -> P c = true) ->
  all_chars P (strip s) = true -> all_chars P s = true.
Proof.
  intros HP. unfold strip.
  assert (R : forall t, all_chars P (rstrip t) = true -> all_chars P t = true).
  { induction t as [|c t IH]; cbn; [auto|].
    destruct (is_space c && is_empty (rstrip t)) eqn:E.
    - intros _. apply andb_true_iff in E as [Ec Er].
      rewrite (HP c Ec). cbn. apply IH. destruct (rstrip t); [reflexivity | discriminate].
    - cbn. intros H. apply andb_true_iff in H as [-> H]. cbn. auto. }
  intros H. apply R in H. clear R.
  induction s as [|c s IH]; cbn in *; [reflexivity|].
  destruct (is_space c) eqn:E.
  - rewrite (HP c E). cbn. auto.
  - exact H.
Qed.

(** *** The whitespace of [int] *)

Lemma is_blank_space (c : ascii) : PyInt.is_blank c = true -> is_space c = true.
Proof.
  destruct c as [[] [] [] [] [] [] [] []]; vm_compute; intros H;
    first [discriminate H | reflexivity].
Qed.

(** The characters that [str.strip] and [int] treat alike. *)
Local Abbreviation same_space :=
  (fun c : ascii => Bool.eqb (is_space c) (PyInt.is_blank c)).

Lemma all_chars_impl (P Q : ascii -> bool) (s : string) :
  (forall c, P c = true -> Q c = true) ->
  all_chars P s = true -> all_chars Q s = true.
Proof.
  intros I. induction s as [|c s IH]; cbn; [reflexivity|]. intros H.
  apply andb_true_iff in H as [Hc Hs]. now rewrite (I c Hc), IH.
Qed.

Lemma lskip_lstrip (s : string) :
  all_chars same_space s = true -> PyInt.lskip s = lstrip s.
Proof.
  induction s as [|c s IH]; cbn; [reflexivity|]. intros H.
  apply andb_true_iff in H as [Hc Hs]. apply eqb_prop in Hc. rewrite <- Hc.
  destruct (is_space c); [exact (IH Hs) | reflexivity].
Qed.

Lemma rskip_rstrip (s : string) :
  all_chars same_space s = true -> PyInt.rskip s = rstrip s.
Proof.
  induction s as [|c s IH]; cbn; [reflexivity|]. intros H.
  apply andb_true_iff in H as [Hc Hs]. apply eqb_prop in Hc.
  now rewrite <- Hc, (IH Hs).
Qed.

(** On a string without the separators 28 to 31, [int] skips what
    [str.strip] removes. *)
Lemma trim_strip (s : string) :
  all_chars same_space s = true -> PyInt.trim s = strip s.
Proof.
  intros H. unfold PyInt.trim, strip. rewrite (lskip_lstrip s H).
  apply rskip_rstrip, all_chars_lstrip, H.
Qed.

Lemma all_chars_trim_inv P s :
  (forall c, PyInt.is_blank c = true -> P c = true) ->
  all_chars P (PyInt.trim s) = true -> all_chars P s = true.
Proof.
  intros HP. unfold PyInt.trim.
  assert (R : forall t, all_chars P (PyInt.rskip t) = true -> all_chars P t = true).
  { induction t as [|c t IH]; cbn; [reflexivity|].
    destruct (PyInt.is_blank c && is_empty (PyInt.rskip t)) eqn:E.
    - apply andb_true_iff in E as [Ec Et]. intros _.
      rewrite (HP c Ec). cbn. apply IH.
      destruct (PyInt.rskip t); [reflexivity | discriminate].
    - cbn. intros H. apply andb_true_iff in H as [-> H]. cbn. auto. }
  intros H. apply R in H. clear R.
  induction s as [|c s IH]; cbn in *; [reflexivity|].
  destruct (PyInt.is_blank c) eqn:E.
  - rewrite (HP c E). cbn. auto.
  - exact H.
Qed.

Lemma digits_chars (acc : Z) (pu : bool) (s : string) (v : Z) :
  PyInt.digits 10 acc pu s = Some v -> all_chars literal_char s = true.
Proof.
  revert acc pu. induction s as [|c s IH]; intros acc pu; cbn; [reflexivity|].
  destruct (Ascii.eqb_spec c "_") as [->|Hc].
  - destruct pu; [discriminate|]. intros H. cbn. eapply IH; exact H.
  - unfold PyInt.digit_value.
    destruct ((48 <=? Z.of_N (code c)) && (Z.of_N (code c) <=? 57))%Z eqn:D.
    + destruct (_ <? 10)%Z; [|discriminate]. intros H.
      assert (L : literal_char c = true).
      { unfold literal_char, digit_char.
        apply andb_true_iff in D as [D1 D2].
        apply Z.leb_le in D1, D2.
        replace (N.leb 48 (code c)) with true by (symmetry; apply N.leb_le; lia).
        replace (N.leb (code c) 57) with true by (symmetry; apply N.leb_le; lia).
        cbn. now rewrite orb_true_r. }
      rewrite L. cbn. eapply IH; exact H.
    + destruct ((97 <=? Z.of_N (code c)) && (Z.of_N (code c) <=? 122))%Z eqn:D2.
      * apply andb_true_iff in D2 as [A B]. apply Z.leb_le in A.
        destruct (Z.ltb_spec (Z.of_N (code c) - 87) 10); [lia | discriminate].
      * destruct ((65 <=? Z.of_N (code c)) && (Z.of_N (code c) <=? 90))%Z eqn:D3;
          [|discriminate].
        apply andb_true_iff in D3 as [A B]. apply Z.leb_le in A.
        destruct (Z.ltb_spec (Z.of_N (code c) - 55) 10); [lia | discriminate].
Qed.

Lemma magnitude_chars (s : string) (v : Z) :
  PyInt.magnitude 10 s = Some v -> all_chars literal_char s = true.
Proof.
  unfold PyInt.magnitude. change (10 =? 16)%Z with false. cbv iota.
  destruct s as [|c s]; [discriminate|].
  destruct (Ascii.eqb c "_"); [discriminate|]. apply digits_chars.
Qed.

Lemma parse_chars (s : string) (v : Z) :
  PyInt.parse 10 s = Some v -> all_chars literal_char s = true.
Proof.
  unfold PyInt.parse. intros H.
  apply all_chars_trim_inv.
  { intros c Hc. unfold literal_char. now rewrite Hc. }
  destruct (PyInt.trim s) as [|c t]; [discriminate|].
  destruct (Ascii.eqb_spec c "+") as [->|_].
  { cbn. eapply magnitude_chars; exact H. }
  destruct (Ascii.eqb_spec c "-") as [->|_].
  { cbn. destruct (PyInt.magnitude 10 t) eqn:E; [|discriminate].
    eapply magnitude_chars; exact E. }
  eapply magnitude_chars; exact H.
Qed.

Lemma literal_char_plain (c : ascii) :
  literal_char c = true ->
  lower_char c = c /\ Ascii.eqb c "x" = false /\ Ascii.eqb c "," = false.
Proof.
  destruct c as [[] [] [] [] [] [] [] []]; vm_compute; intros H;
    first [discriminate H | auto].
Qed.

Lemma literal_same_space (s : string) :
  all_chars literal_char s = true -> all_chars same_space s = true.
Proof.
  apply all_chars_impl. intros c.
  destruct c as [[] [] [] [] [] [] [] []]; vm_compute; intros H;
    first [discriminate H | reflexivity].
Qed.

(** What [str.strip] removes from a literal, [int] skips anyway. *)
Lemma parse_lstrip (base : Z) (s : string) :
  all_chars literal_char s = true -> PyInt.parse base (lstrip s) = PyInt.parse base s.
Proof.
  intros H. unfold PyInt.parse.
  rewrite (trim_strip (lstrip s)), strip_lstrip, <- (trim_strip s);
    [reflexivity | | apply all_chars_lstrip]; apply literal_same_space, H.
Qed.

Lemma parse_rstrip (base : Z) (s : string) :
  all_chars literal_char s = true -> PyInt.parse base (rstrip s) = PyInt.parse base s.
Proof.
  intros H. unfold PyInt.parse.
  rewrite (trim_strip (rstrip s)), strip_rstrip, <- (trim_strip s);
    [reflexivity | | apply all_chars_rstrip]; apply literal_same_space, H.
Qed.

Lemma literal_lower (s : string) : all_chars literal_char s = true -> lower s = s.
Proof.
  induction s as [|c s IH]; cbn; [reflexivity|]. intros H.
  apply andb_true_iff in H as [Hc H].
  destruct (literal_char_plain c Hc) as (-> & _). now rewrite IH.
Qed.

Lemma literal_no_x (s : string) :
  all_chars literal_char s = true -> contains "x" s = false.
Proof.
  intros H. eapply all_chars_contains; [exact H | reflexivity].
Qed.

Lemma literal_no_comma (s : string) :
  all_chars literal_char s = true -> contains "," s = false.
Proof.
  intros H. eapply all_chars_contains; [exact H | reflexivity].
Qed.

Lemma split_none (c : ascii) (s : string) : contains c s = false -> split c s = [s].
Proof.
  induction s as [|d s IH]; cbn; [reflexivity|]. intros H.
  apply orb_false_iff in H as [-> H]. now rewrite IH.
Qed.

Lemma split1_first (c : ascii) (a b : string) :
  contains c a = false -> split1 c (a ++ String c b) = (a, b).
Proof.
  induction a as [|d a IH]; cbn.
  - now rewrite Ascii.eqb_refl.
  - intros H. apply orb_false_iff in H as [-> H]. now rewrite IH.
Qed.

Lemma parse_sizes_token (a b : string) (w h : Z) :
  PyInt.parse 10 a = Some w -> PyInt.parse 10 b = Some h ->
  parse_sizes (a ++ String "x" b) = Ok [(w, h)].
Proof.
  intros Ha Hb.
  pose proof (parse_chars a w Ha) as Ca. pose proof (parse_chars b h Hb) as Cb.
  unfold parse_sizes.
  rewrite split_none.
  2:{ rewrite contains_append. cbn.
      now rewrite (literal_no_comma a Ca), (literal_no_comma b Cb). }
  cbn [parse_tokens]. unfold strip.
  rewrite lstrip_append, rstrip_append by reflexivity.
  rewrite lower_append. cbn [lower].
  rewrite (literal_lower (lstrip a)) by (apply all_chars_lstrip; exact Ca).
  rewrite (literal_lower (rstrip b)) by (apply all_chars_rstrip; exact Cb).
  change (lower_char "x") with "x"%char.
  rewrite contains_append. cbn [contains]. rewrite Ascii.eqb_refl, orb_true_r. cbn [negb].
  rewrite split1_first by (apply literal_no_x, all_chars_lstrip; exact Ca).
  unfold PyInt.int.
  rewrite (parse_lstrip 10 a Ca), (parse_rstrip 10 b Cb), Ha, Hb. reflexivity.
Qed.

(** *** Reading back the decimal text of an int *)

Local Open Scope Z_scope.

(** One step of [digits] on a literal digit character. *)
Ltac digit_step :=
  cbn [digits];
  match goal with
  | |- context [Ascii.eqb ?c "_"] =>
      let b := eval vm_compute in (Ascii.eqb c "_") in
      change (Ascii.eqb c "_") with b
  end;
  match goal with
  | |- context [digit_value ?c] =>
      let v := eval vm_compute in (digit_value c) in
      change (digit_value c) with v
  end;
  cbv iota;
  match goal with
  | |- context [(?d <? 10)] => change (d <? 10) with true
  end;
  cbv iota.

(** [digits] on the decimal text of a positive accumulator. *)
Lemma digits_of_uint_acc (u : Decimal.uint) (a : positive) :
  digits 10 (Zpos a) false (NilEmpty.string_of_uint u)
  = Some (Zpos (Pos.of_uint_acc u a)).
Proof.
  revert a. induction u; intros a; cbn [NilEmpty.string_of_uint Pos.of_uint_acc];
    [reflexivity|..]; digit_step; rewrite <- IHu; f_equal; lia.
Qed.

Lemma digits_of_uint (u : Decimal.uint) :
  u <> Decimal.Nil ->
  digits 10 0 false (NilEmpty.string_of_uint u) = Some (Z.of_N (Pos.of_uint u)).
Proof.
  induction u; intros H; [congruence|..];
    cbn [NilEmpty.string_of_uint Pos.of_uint]; digit_step;
    try apply digits_of_uint_acc.
  change (0 * 10 + 0) with 0.
  destruct u; try (apply IHu; discriminate). reflexivity.
Qed.

Lemma all_chars_strip (s : string) :
  all_chars (fun c => negb (is_space c)) s = true -> strip s = s.
Proof.
  intros H. unfold strip.
  assert (L : lstrip s = s).
  { destruct s as [|c s]; [reflexivity|]. cbn in *.
    apply andb_true_iff in H as [Hc _]. apply negb_true_iff in Hc. now rewrite Hc. }
  rewrite L. clear L.
  induction s as [|c s IH]; [reflexivity|]. cbn in *.
  apply andb_true_iff in H as [Hc Hs]. apply negb_true_iff in Hc.
  rewrite Hc, (IH Hs). reflexivity.
Qed.

Lemma trim_no_space (s : string) :
  all_chars (fun c => negb (is_space c)) s = true -> PyInt.trim s = s.
Proof.
  intros H. rewrite trim_strip; [apply all_chars_strip, H|].
  revert H. apply all_chars_impl. intros c Hc. apply negb_true_iff in Hc.
  rewrite Hc. destruct (PyInt.is_blank c) eqn:E; [|reflexivity].
  apply is_blank_space in E. congruence.
Qed.

Lemma uint_text_no_space (u : Decimal.uint) :
  all_chars (fun c => negb (is_space c)) (NilEmpty.string_of_uint u) = true.
Proof. induction u; cbn [NilEmpty.string_of_uint all_chars]; [reflexivity|..];
  rewrite IHu; reflexivity. Qed.

Lemma parse_uint_text (u : Decimal.uint) :
  u <> Decimal.Nil ->
  parse 10 (NilEmpty.string_of_uint u) = Some (Z.of_N (Pos.of_uint u)) /\
  magnitude 10 (NilEmpty.string_of_uint u) = Some (Z.of_N (Pos.of_uint u)).
Proof.
  intros H.
  assert (Mg : magnitude 10 (NilEmpty.string_of_uint u) = Some (Z.of_N (Pos.of_uint u))).
  { unfold magnitude. change (10 =? 16) with false. cbv iota.
    rewrite <- (digits_of_uint u H).
    destruct u; try congruence; reflexivity. }
  split; [|exact Mg].
  unfold parse. rewrite trim_no_space by apply uint_text_no_space.
  rewrite <- Mg. destruct u; try congruence; reflexivity.
Qed.

(** [int(str(z)) == z] *)
Lemma parse_of_int (z : Z) : parse 10 (of_int z) = Some z.
Proof.
  unfold of_int. destruct z as [|p|p]; [reflexivity|..]; cbn [Z.to_int NilZero.string_of_int].
  - pose proof (Unsigned.to_uint_nonnil p) as N.
    pose proof (Unsigned.of_to p) as E.
    destruct (parse_uint_text _ N) as [P _]. rewrite E in P.
    unfold NilZero.string_of_uint. destruct (Pos.to_uint p); try congruence; exact P.
  - pose proof (Unsigned.to_uint_nonnil p) as N.
    pose proof (Unsigned.of_to p) as E.
    destruct (parse_uint_text _ N) as [_ M]. rewrite E in M.
    unfold parse.
    rewrite trim_no_space.
    2:{ cbn [all_chars]. unfold NilZero.string_of_uint.
        destruct (Pos.to_uint p) eqn:U; try reflexivity;
          rewrite <- U; apply uint_text_no_space. }
    change (Ascii.eqb "-" "+") with false. change (Ascii.eqb "-" "-") with true.
    cbv iota.
    unfold NilZero.string_of_uint. destruct (Pos.to_uint p); try congruence;
      rewrite M; reflexivity.
Qed.

(** Every pair of ints has a token that [parse_sizes] reads back. *)
Lemma parse_sizes_of_ints (w h : Z) :
  parse_sizes (of_int w ++ String "x" (of_int h)) = Ok [(w, h)].
Proof. apply parse_sizes_token; apply parse_of_int. Qed.

End StrFacts.

Section NamingFacts.

Import Str Path StrFacts.
Local Open Scope string_scope.

(** C6, amended.  Two (source, target, orientation) tuples are saved under
    the same path exactly when the sources have the same stem (file name
    without directory and extension) and target and orientation are equal. *)
Theorem output_path_unique_per_stem (outdir fmt s1 s2 : string) (t1 t2 : Z * Z)
    (l1 l2 : bool) :
  output_path outdir fmt s1 t1 l1 = output_path outdir fmt s2 t2 l2
  <-> Path.stem s1 = Path.stem s2 /\ t1 = t2 /\ l1 = l2.
Proof.
  split.
  - destruct t1 as [w1 h1], t2 as [w2 h2]. unfold output_path. intros E.
    destruct l1, l2; cbn [fst snd] in E;
      [ apply (variant_path_inj _ _ _ _ _ _ _ _ true true) in E
      | apply (variant_path_inj _ _ _ _ _ _ _ _ true false) in E
      | apply (variant_path_inj _ _ _ _ _ _ _ _ false true) in E
      | apply (variant_path_inj _ _ _ _ _ _ _ _ false false) in E ];
      destruct E as (Es & Ew & Eh & El); try discriminate; subst; auto.
  - intros (Es & -> & ->). destruct t2 as [w h]. unfold output_path.
    destruct l2; cbn [fst snd]; rewrite !variant_path_eq, Es; reflexivity.
Qed.

(** C8, amended.  A path is returned by [gather_inputs] exactly when it is
    an input path that is not a directory, returned as given whatever its
    extension, or a file met in the walk of an input directory whose
    lower-cased name ends with [.png], [.jpg], [.jpeg], [.heic] or [.webp],
    joined to the directory it was met in; such a path ends with that
    suffix too, so a [.txt] file inside a directory is not returned for
    it. *)
Theorem gather_inputs_sources (w : World) (paths : list string) (p : string) :
  In p (gather_inputs w paths) <->
  (In p paths /\ dirs w p = None) \/
  (exists d entries root ds files f ext,
     In d paths /\ dirs w d = Some entries /\
     In (root, ds, files) (walk d entries) /\ In f files /\
     p = Path.join root f /\
     In ext [".png"; ".jpg"; ".jpeg"; ".heic"; ".webp"] /\
     endswith (lower f) ext = true /\ endswith (lower p) ext = true).
Proof.
  unfold gather_inputs. split.
  - intros H. apply in_flat_map in H as (d & Hd & H).
    destruct (dirs w d) as [entries|] eqn:E.
    + right. apply in_flat_map in H as ([[root ds] files] & Hw & H).
      apply in_map_iff in H as (f & <- & Hf).
      apply filter_In in Hf as [Hin Hf].
      unfold has_image_suffix in Hf.
      apply existsb_exists in Hf as (ext & Hext & He).
      exists d, entries, root, ds, files, f, ext.
      repeat split; try assumption. apply join_keeps_suffix; exact He.
    + left. destruct H as [<-|[]]. auto.
  - intros [[Hp E]|(d & entries & root & ds & files & f & ext
                    & Hd & E & Hw & Hf & -> & Hext & He & _)].
    + apply in_flat_map. exists p. split; [exact Hp|]. rewrite E. left; reflexivity.
    + apply in_flat_map. exists d. split; [exact Hd|]. rewrite E.
      apply in_flat_map. exists (root, ds, files). split; [exact Hw|].
      apply in_map, filter_In. split; [exact Hf|].
      unfold has_image_suffix. apply existsb_exists. exists ext. split; assumption.
Qed.

End NamingFacts.

(** ** The tools *)

Section ToolFacts.

Import PIL.
Local Open Scope string_scope.
Local Open Scope Z_scope.

Variable resample : Image -> Z -> Z -> Z -> Z -> Pixel.
Variable convert_pixel : Mode -> Mode -> Pixel -> Pixel.

Local Abbreviation resize := (PIL.resize resample).
Local Abbreviation generate_ios_assets := (generate_ios_assets resample).
Local Abbreviation save_variant := (save_variant convert_pixel).
Local Abbreviation write_variants := (write_variants convert_pixel).
Local Abbreviation apply_layout := (apply_layout resample convert_pixel).
Local Abbreviation process_targets := (process_targets resample convert_pixel).
Local Abbreviation process_input := (process_input resample convert_pixel).
Local Abbreviation main := (main resample convert_pixel).

Lemma third_in_range (z : Z) :
  3 <= z <= max_dim -> in_range (z / 3) /\ in_range (z / 3 * 2).
Proof.
  intros H. unfold in_range, max_dim in *.
  assert (1 <= z / 3) by (apply Z.div_le_lower_bound; lia).
  pose proof (Z.mul_div_le z 3 ltac:(lia)). lia.
Qed.

(** C4.  Tool A on an input image of width [W] and height [H]: the first
    file saved is the 3x variant, which is the input image itself; every
    further file saved is the 2x variant with size
    [(W // 3 * 2, H // 3 * 2)] or the 1x variant with size
    [(W // 3, H // 3)]; and when both sides are at least 3 all three are
    saved, in this order, and the call ends without an exception. *)
Theorem generate_ios_assets_sizes (w : World) (image_path : string) (img : Image) :
  open_image w image_path = Ok img ->
  let W := width img in
  let H := height img in
  let stem := Str.replace "@3x" "" (fst (Path.splitext (Path.basename image_path))) in
  let ext := snd (Path.splitext (Path.basename image_path)) in
  let dir := Path.dirname image_path in
  let p3 := Path.join dir (stem ++ "@3x" ++ ext) in
  let p2 := Path.join dir (stem ++ "@2x" ++ ext) in
  let p1 := Path.join dir (stem ++ ext) in
  let run := generate_ios_assets w image_path in
  (exists rest,
     saves (fst run) = (p3, img) :: rest /\
     forall p im, In (p, im) rest ->
       (p = p2 /\ size im = (W / 3 * 2, H / 3 * 2)) \/
       (p = p1 /\ size im = (W / 3, H / 3))) /\
  (3 <= W <= max_dim -> 3 <= H <= max_dim ->
   exists img_2x img_1x,
     saves (fst run) = [(p3, img); (p2, img_2x); (p1, img_1x)] /\
     size img_2x = (W / 3 * 2, H / 3 * 2) /\
     size img_1x = (W / 3, H / 3) /\
     snd run = None).
Proof.
  intros Hopen W H stem ext dir p3 p2 p1 run.
  subst run. unfold generate_ios_assets. rewrite Hopen.
  subst stem ext. destruct (Path.splitext (Path.basename image_path)) as [filename e].
  cbn [fst snd] in *. fold W H.
  destruct (resize img (W / 3 * 2, H / 3 * 2)) as [img_2x|e2] eqn:E2.
  - pose proof (resize_size _ _ _ _ _ E2) as S2.
    destruct (resize img (W / 3, H / 3)) as [img_1x|e1] eqn:E1.
    + pose proof (resize_size _ _ _ _ _ E1) as S1.
      split.
      * eexists. split; [reflexivity|]. cbn. intros p im [[= <- <-]|[[= <- <-]|[]]]; auto.
      * intros _ _. exists img_2x, img_1x. auto.
    + split.
      * eexists. split; [reflexivity|]. cbn. intros p im [[= <- <-]|[]]; auto.
      * intros HW HH. exfalso.
        destruct (resize_ok resample img (W / 3) (H / 3)) as [x Ex];
          [apply third_in_range; assumption | apply third_in_range; assumption |].
        congruence.
  - split.
    + eexists. split; [reflexivity|]. cbn. intros p im [].
    + intros HW HH. exfalso.
      destruct (resize_ok resample img (W / 3 * 2) (H / 3 * 2)) as [x Ex];
        [apply third_in_range; assumption | apply third_in_range; assumption |].
      congruence.
Qed.


Lemma save_variant_spec (img : Image) (outdir base : string) (sz : Z * Z)
    (fmt suffix : string) :
  exists q o,
    save_variant img outdir base sz fmt suffix
      = (variant_path outdir base sz fmt suffix,
         SaveFile (variant_path outdir base sz fmt suffix)
           (written_image convert_pixel fmt img) q o).
Proof.
  unfold save_variant, written_image.
  destruct (_ || _); do 2 eexists; reflexivity.
Qed.

Lemma written_image_size (fmt : string) (img : Image) :
  size (written_image convert_pixel fmt img) = size img.
Proof.
  unfold written_image. destruct (_ || _); [|reflexivity].
  destruct (mode_eqb _ _); reflexivity.
Qed.

(** The conversion for the output format commutes with the rotation. *)
Lemma written_image_rotate (fmt : string) (img : Image) (x y : Z) :
  pixel (written_image convert_pixel fmt (rotate_90_expand img)) x y
  = pixel (written_image convert_pixel fmt img) (width img - 1 - y) x.
Proof.
  unfold written_image. destruct (_ || _); [|reflexivity].
  unfold rotate_90_expand. cbn [transpose mode].
  destruct (mode_eqb _ _); reflexivity.
Qed.

(** C7.  For the output [out_im] of a strategy for target [(tw, th)], the
    loop body of [main] saves the base variant under the name with
    [tw]x[th]; when [--landscape] is set it saves exactly one more file,
    whose raster is the base output rotated by 90 degrees with expansion,
    of size [(th, tw)], under the name that carries the swapped dimensions
    and the [_landscape] suffix; without the flag nothing else is saved. *)
Theorem landscape_variant (args : Args) (path : string) (tw th : Z) (out_im : Image) :
  size out_im = (tw, th) ->
  let stem := fst (Path.splitext (Path.basename path)) in
  let p_base := variant_path (outdir args) path (tw, th) (format args) "" in
  let p_land := variant_path (outdir args) path (th, tw) (format args) "_landscape" in
  let base := written_image convert_pixel (format args) out_im in
  let land := written_image convert_pixel (format args) (rotate_90_expand out_im) in
  p_land = Path.join (outdir args)
             (stem ++ "_" ++ Str.of_int th ++ "x" ++ Str.of_int tw
                   ++ "_landscape" ++ "." ++ Str.lower (format args)) /\
  size base = (tw, th) /\
  size land = (th, tw) /\
  (forall x y, pixel land x y = pixel base (tw - 1 - y) x) /\
  saves (write_variants args path (tw, th) out_im)
  = if landscape args then [(p_base, base); (p_land, land)] else [(p_base, base)].
Proof.
  intros Hsz stem p_base p_land base land.
  injection Hsz as Hw Hh.
  split.
  { subst p_land stem. unfold variant_path, variant_name.
    destruct (Path.splitext (Path.basename path)); reflexivity. }
  split. { subst base. rewrite written_image_size. unfold size. congruence. }
  split. { subst land. rewrite written_image_size. unfold rotate_90_expand, size.
           cbn [transpose width height]. congruence. }
  split. { intros x y. subst land base. rewrite written_image_rotate. now rewrite Hw. }
  unfold write_variants.
  destruct (save_variant_spec out_im (outdir args) path (tw, th) (format args) "")
    as (q & o & ->).
  destruct (landscape args); [|reflexivity].
  destruct (save_variant_spec (rotate_90_expand out_im) (outdir args) path
              (th, tw) (format args) "_landscape") as (q' & o' & ->).
  reflexivity.
Qed.

Lemma write_variants_base (args : Args) (path : string) (t : Z * Z) (out : Image) :
  In (snd (save_variant out (outdir args) path t (format args) ""))
     (write_variants args path t out).
Proof.
  unfold write_variants. destruct t as [tw th].
  destruct (save_variant out (outdir args) path (tw, th) (format args) "") as [saved ev].
  left. reflexivity.
Qed.

Lemma process_targets_ok (args : Args) (bgc : Z * Z * Z) (path : string)
    (im : Image) (targets : list (Z * Z)) :
  (forall t, In t targets -> is_ok (apply_layout (layout args) im t bgc) = true) ->
  snd (process_targets args bgc path im targets) = None /\
  forall t, In t targets ->
    exists out, apply_layout (layout args) im t bgc = Ok out /\
      In (snd (save_variant out (outdir args) path t (format args) ""))
         (fst (process_targets args bgc path im targets)).
Proof.
  induction targets as [|t0 rest IH]; intros Hall.
  - split; [reflexivity|]. intros t [].
  - cbn [process_targets].
    pose proof (Hall t0 (or_introl eq_refl)) as H0.
    destruct (apply_layout (layout args) im t0 bgc) as [out0|e0] eqn:E0; [|discriminate].
    destruct IH as [IH1 IH2]. { intros t Ht. apply Hall. right; exact Ht. }
    destruct (process_targets args bgc path im rest) as [evs r]. cbn [fst snd] in *.
    split; [exact IH1|].
    intros t [<-|Ht].
    + exists out0. split; [exact E0|]. apply in_or_app. left. apply write_variants_base.
    + destruct (IH2 t Ht) as (out & Eo & Hin). exists out. split; [exact Eo|].
      apply in_or_app. right. exact Hin.
Qed.

Lemma process_targets_fail (args : Args) (bgc : Z * Z * Z) (path : string)
    (im : Image) (targets : list (Z * Z)) (t : Z * Z) (e : exn) :
  In t targets -> apply_layout (layout args) im t bgc = Raise e ->
  exists e', snd (process_targets args bgc path im targets) = Some e'.
Proof.
  induction targets as [|t0 rest IH]; intros Hin He; [destruct Hin|].
  cbn [process_targets].
  destruct (apply_layout (layout args) im t0 bgc) as [out0|e0] eqn:E0.
  - destruct Hin as [<-|Hin]; [congruence|].
    destruct (IH Hin He) as [e' He'].
    destruct (process_targets args bgc path im rest) as [evs r]. cbn [snd] in *.
    exists e'. exact He'.
  - exists e0. reflexivity.
Qed.

Lemma process_input_opens (w : World) (args : Args) bgc targets path :
  In (OpenImage path) (process_input w args bgc targets path).
Proof.
  unfold process_input. destruct (open_image w path).
  - destruct (process_targets _ _ _ _ _). left; reflexivity.
  - left; reflexivity.
Qed.

Lemma parse_tokens_ok (tokens : list string) :
  is_ok (parse_tokens tokens) = forallb token_ok tokens.
Proof.
  induction tokens as [|t rest IH]; [reflexivity|].
  change (forallb token_ok (t :: rest)) with (token_ok t && forallb token_ok rest).
  rewrite <- IH. cbn [parse_tokens]. unfold token_ok.
  destruct (Str.contains "x" (Str.lower (Str.strip t))); [|reflexivity].
  cbn [negb andb].
  destruct (Str.split1 "x" (Str.lower (Str.strip t))) as [a b]. cbn [fst snd].
  unfold PyInt.int.
  destruct (PyInt.parse 10 a); [|reflexivity].
  destruct (PyInt.parse 10 b); [|reflexivity].
  cbn [lift bind]. destruct (parse_tokens rest); reflexivity.
Qed.

(** The exit codes of [main].  It returns 2 exactly when [parse_sizes]
    raises, which it does exactly when one of the comma-separated tokens is
    rejected, [parse_hex_color] raises or no input is found; it then prints one line
    to the error stream and does nothing else.  Otherwise it returns 0,
    creates the output directory and handles every input in turn: each is
    opened; a failure to open it, or of a strategy on one of its targets, is
    logged to the error stream with the path; and an input whose targets all
    succeed has every variant saved, whatever happened to the others. *)
Lemma main_exit_codes (w : World) (args : Args) :
  let inputs := gather_inputs w (input args) in
  let code := fst (main w args) in
  let trace := snd (main w args) in
  (code = 2 <->
     is_ok (parse_sizes (sizes args)) = false \/
     is_ok (parse_hex_color (bg args)) = false \/
     inputs = []) /\
  is_ok (parse_sizes (sizes args))
    = forallb token_ok (Str.split "," (sizes args)) /\
  (code = 2 ->
     (exists line, trace = [Stderr line]) /\
     forallb (fun ev => negb (is_effect ev)) trace = true) /\
  (code <> 2 ->
     code = 0 /\
     exists targets bgc,
       parse_sizes (sizes args) = Ok targets /\
       parse_hex_color (bg args) = Ok bgc /\
       trace = (MakeDirs (outdir args)
                  :: flat_map (process_input w args bgc targets) inputs)%list /\
       (forall p, In p inputs -> In (OpenImage p) trace) /\
       (forall p e, In p inputs -> open_image w p = Raise e ->
                    In (Stderr (FailedOn p e)) trace) /\
       (forall p im t e, In p inputs -> open_image w p = Ok im -> In t targets ->
                         apply_layout (layout args) im t bgc = Raise e ->
                         exists e', In (Stderr (FailedOn p e')) trace) /\
       (forall p im, In p inputs -> open_image w p = Ok im ->
          (forall t, In t targets ->
                     is_ok (apply_layout (layout args) im t bgc) = true) ->
          forall t, In t targets ->
            exists out, apply_layout (layout args) im t bgc = Ok out /\
              In (snd (save_variant out (outdir args) p t (format args) "")) trace)).
Proof.
  intros inputs code trace. subst code trace.
  assert (T : is_ok (parse_sizes (sizes args))
              = forallb token_ok (Str.split "," (sizes args)))
    by apply parse_tokens_ok.
  revert T. generalize (forallb token_ok (Str.split "," (sizes args))).
  intros ok T. unfold main.
  destruct (parse_sizes (sizes args)) as [targets|e1] eqn:E1.
  2:{ cbn. split; [tauto|]. split; [exact T|]. split; [eauto|].
      intros H; congruence. }
  destruct (parse_hex_color (bg args)) as [bgc|e2] eqn:E2.
  2:{ cbn. split; [tauto|]. split; [exact T|]. split; [eauto|].
      intros H; congruence. }
  fold inputs. destruct inputs as [|p0 ps] eqn:Ei.
  { cbn. split; [tauto|]. split; [exact T|]. split; [eauto|].
    intros H; congruence. }
  rewrite <- Ei. cbn [fst snd is_ok ensure_outdir app].
  split. { split; [discriminate|]. intros [H|[H|H]]; try discriminate. congruence. }
  split; [exact T|].
  split; [discriminate|].
  intros _. split; [reflexivity|]. exists targets, bgc.
  split; [reflexivity|]. split; [reflexivity|]. split; [reflexivity|].
  assert (Sub : forall p ev, In p inputs ->
                  In ev (process_input w args bgc targets p) ->
                  In ev (MakeDirs (outdir args)
                           :: flat_map (process_input w args bgc targets) inputs)).
  { intros p ev Hp Hev. right. apply in_flat_map. exists p. auto. }
  repeat split.
  - intros p Hp. apply (Sub p); [exact Hp|]. apply process_input_opens.
  - intros p e Hp He. apply (Sub p); [exact Hp|].
    unfold process_input. rewrite He. right; left; reflexivity.
  - intros p im t e Hp Ho Ht He.
    destruct (process_targets_fail args bgc p im targets t e Ht He) as [e' He'].
    exists e'. apply (Sub p); [exact Hp|].
    unfold process_input. rewrite Ho.
    destruct (process_targets args bgc p im targets) as [evs r]. cbn [snd] in He'.
    subst r. right. apply in_or_app. right. left; reflexivity.
  - intros p im Hp Ho Hall t Ht.
    destruct (process_targets_ok args bgc p im targets Hall) as [Hn Hs].
    destruct (Hs t Ht) as (out & Eo & Hin). exists out. split; [exact Eo|].
    apply (Sub p); [exact Hp|].
    unfold process_input. rewrite Ho.
    destruct (process_targets args bgc p im targets) as [evs r]. cbn [fst] in Hin.
    right. apply in_or_app. left. exact Hin.
Qed.



End ToolFacts.

(** ** Runs of the batch driver *)

Section Runs.

Import PIL Fixtures.
Local Open Scope string_scope.
Local Open Scope Z_scope.

Local Abbreviation run := (main nearest_neighbour to_mode world).

(** A directory and a missing file: the directory's two images give four
    files each, the missing file is reported, the exit code is 0. *)
Example run_demo :
  fst (run demo_args) = 0 /\
  errors (snd (run demo_args)) = [FailedOn "x.png" (CannotOpen "x.png")] /\
  map fst (saves (snd (run demo_args)))
  = ["out/a_1290x2796.png"; "out/a_2796x1290_landscape.png";
     "out/a_1320x2868.png"; "out/a_2868x1320_landscape.png";
     "out/B_1290x2796.png"; "out/B_2796x1290_landscape.png";
     "out/B_1320x2868.png"; "out/B_2868x1320_landscape.png"] /\
  map (fun '(_, im) => size im) (saves (snd (run demo_args)))
  = [(1290, 2796); (2796, 1290); (1320, 2868); (2868, 1320);
     (1290, 2796); (2796, 1290); (1320, 2868); (2868, 1320)].
Proof. vm_compute. repeat split. Qed.

Example run_bad_size :
  run (mkArgs ["shots"] "out" "1290x2796,1320" Pad "#000000" "png" false)
  = (2, [Stderr (SizesError (BadSizeToken "1320"))]).
Proof. vm_compute. reflexivity. Qed.

Example run_bad_colour :
  run (mkArgs ["shots"] "out" "1290x2796" Pad "#12345" "png" false)
  = (2, [Stderr (BgError BadColorLength)]).
Proof. vm_compute. reflexivity. Qed.

Example run_no_inputs :
  run (mkArgs ["docs"] "out" "1290x2796" Pad "#000" "png" false)
  = (2, [Stderr NoInputs]).
Proof. vm_compute. reflexivity. Qed.

Example parse_sizes_examples :
  parse_sizes "1290x2796, 1320X2868" = Ok [(1290, 2796); (1320, 2868)] /\
  parse_sizes "0x100" = Ok [(0, 100)] /\
  parse_sizes "-5x10" = Ok [(-5, 10)] /\
  parse_sizes "1x2x3" = Raise (InvalidLiteral 10 "2x3") /\
  parse_sizes "" = Raise (BadSizeToken "").
Proof. vm_compute. repeat split. Qed.

(** [str.strip] removes the separators 28 to 31, [int] does not skip
    them: a size with such a character before the [x] is rejected. *)
Example int_keeps_separators :
  Str.strip (String "1" (String "2" (String (ascii_of_nat 31) ""))) = "12" /\
  PyInt.parse 10 (String "1" (String "2" (String (ascii_of_nat 31) ""))) = None /\
  PyInt.parse 10 (String " " (String "1" (String "2" (String (ascii_of_nat 9) ""))))
  = Some 12 /\
  is_ok (parse_sizes (String "1" (String "2" (String (ascii_of_nat 31) "x34"))))
  = false.
Proof. vm_compute. repeat split. Qed.

Example parse_hex_color_examples :
  parse_hex_color "#000000" = Ok (0, 0, 0) /\
  parse_hex_color " #fFf " = Ok (255, 255, 255) /\
  parse_hex_color "1a2B3c" = Ok (26, 43, 60) /\
  parse_hex_color "#ggg" = Raise (InvalidLiteral 16 "gg").
Proof. vm_compute. repeat split. Qed.

(** A zero width passes the argument checks and fails in the strategy, once
    per input. *)
Example run_zero_width :
  fst (run (mkArgs ["shots"] "out" "0x100" Stretch "#000" "png" false)) = 0 /\
  errors (snd (run (mkArgs ["shots"] "out" "0x100" Stretch "#000" "png" false)))
  = [FailedOn "shots/a.png" BadImageSize; FailedOn "shots/more/B.JPG" BadImageSize].
Proof. vm_compute. repeat split. Qed.

End Runs.

(** ** The theorems at concrete inputs *)

Import PIL Fixtures.
Local Open Scope string_scope.
Local Open Scope Z_scope.

Lemma screenshot_decodable : decodable screenshot.
Proof. unfold decodable, in_range, max_dim; cbn. lia. Defined.

Lemma icons_decodable : decodable rgba_icon /\ decodable la_icon.
Proof. unfold decodable, in_range, max_dim; cbn. lia. Defined.

Lemma screenshot_cover_in_range :
  cover_in_range (width (oriented_rgb to_mode screenshot))
    (height (oriented_rgb to_mode screenshot)) 1290 2796.
Proof. split; vm_compute; discriminate. Defined.

Lemma layout_output_size_witness :
  (1 <= 1290 /\ 1 <= 2796) /\
  exists out,
    apply_layout nearest_neighbour to_mode Crop screenshot (1290, 2796) (0, 0, 0)
      = Ok out /\
    width out = 1290 /\ height out = 2796.
Proof.
  split; [lia|].
  apply (layout_output_size nearest_neighbour to_mode Crop screenshot
           1290 2796 (0, 0, 0));
    [lia | lia | exact screenshot_decodable | unfold max_dim; lia
    | unfold max_dim; lia | intros _; exact screenshot_cover_in_range].
Defined.


Lemma cover_and_crop_window_witness :
  (decodable screenshot /\ 1 <= 1290 /\ 1 <= 2796) /\
  exists nw nh resized out,
    cover_and_crop nearest_neighbour to_mode screenshot (1290, 2796) = Ok out /\
    size resized = (nw, nh) /\ 1290 <= nw /\ 2796 <= nh /\
    forall i j, 0 <= i < 1290 -> 0 <= j < 2796 ->
      pixel out i j = pixel resized ((nw - 1290) / 2 + i) ((nh - 2796) / 2 + j).
Proof.
  split; [split; [exact screenshot_decodable | lia]|].
  destruct (cover_and_crop_window nearest_neighbour to_mode screenshot
              1290 2796 screenshot_decodable) as [T P]; try lia.
  destruct T as [out E];
    [unfold max_dim; lia | unfold max_dim; lia | exact screenshot_cover_in_range |].
  destruct (P out E)
    as (sx & sy & nw & nh & resized & _ & _ & _ & _ & _ & _ & S
        & [Bw Bh] & Px).
  exists nw, nh, resized, out. repeat split; try assumption.
  intros i j Hi Hj. apply (Px i j Hi Hj).
Defined.

Lemma generate_ios_assets_sizes_witness :
  open_image world "img/icon@3x.png" = Ok icon /\
  exists img_2x img_1x,
    saves (fst (generate_ios_assets nearest_neighbour world "img/icon@3x.png"))
      = [("img/icon@3x.png", icon); ("img/icon@2x.png", img_2x);
         ("img/icon.png", img_1x)] /\
    size img_2x = (60, 40) /\ size img_1x = (30, 20).
Proof.
  split; [reflexivity|].
  destruct (generate_ios_assets_sizes nearest_neighbour world
              "img/icon@3x.png" icon eq_refl) as [_ H].
  destruct H as (img_2x & img_1x & E & S2 & S1 & _);
    [cbn [icon solid width]; unfold max_dim; lia
    | cbn [icon solid height]; unfold max_dim; lia |].
  exists img_2x, img_1x. repeat split; assumption.
Defined.

Lemma landscape_variant_witness :
  size screenshot = (1179, 2556) /\
  exists base land,
    saves (write_variants to_mode demo_args "shots/a.png" (1179, 2556) screenshot)
      = [("out/a_1179x2556.png", base); ("out/a_2556x1179_landscape.png", land)] /\
    size base = (1179, 2556) /\ size land = (2556, 1179).
Proof.
  split; [reflexivity|].
  destruct (landscape_variant to_mode demo_args "shots/a.png" 1179 2556
              screenshot eq_refl) as (_ & Sb & Sl & _ & E).
  do 2 eexists. split; [exact E|]. split; assumption.
Defined.

Lemma gather_inputs_sources_witness :
  In "shots/more/B.JPG" (gather_inputs world ["shots"; "notes.txt"]) /\
  exists root f ext,
    "shots/more/B.JPG" = Path.join root f /\
    In ext [".png"; ".jpg"; ".jpeg"; ".heic"; ".webp"] /\
    Str.endswith (Str.lower f) ext = true.
Proof.
  assert (H : In "shots/more/B.JPG" (gather_inputs world ["shots"; "notes.txt"])).
  { cbn. right; left; reflexivity. }
  split; [exact H|].
  destruct (proj1 (gather_inputs_sources world ["shots"; "notes.txt"]
                     "shots/more/B.JPG") H)
    as [[[D|[D|[]]] _]
       |(d & entries & root & ds & files & f & ext & _ & _ & _ & _ & Ep & He & Hs & _)].
  - discriminate D.
  - discriminate D.
  - exists root, f, ext. auto.
Defined.

Lemma stretch_rgba_icon :
  exists out,
    apply_layout nearest_neighbour to_mode Stretch rgba_icon (8, 8) (0, 0, 0)
      = Ok out.
Proof.
  unfold apply_layout, stretch_resize.
  apply resize_ok; unfold in_range, max_dim; lia.
Defined.

Lemma layout_alpha_only_from_rgba_witness :
  exists out,
    apply_layout nearest_neighbour to_mode Stretch rgba_icon (8, 8) (0, 0, 0)
      = Ok out /\
    mode out = RGBA /\ has_alpha (mode rgba_icon) = true.
Proof.
  destruct stretch_rgba_icon as [out E].
  exists out. split; [exact E|].
  destruct (layout_alpha_only_from_rgba nearest_neighbour to_mode Stretch
              rgba_icon (8, 8) (0, 0, 0) out E) as (_ & _ & M & _).
  split; [exact M | reflexivity].
Defined.


(** ** Where the specification's sentences fail *)


(** C6: two screenshots with the same file name in different directories
    are written to the same output file. *)
Lemma output_path_collision :
  ("shots/a.png", (1290, 2796), false) <> ("more/a.png", (1290, 2796), false) /\
  output_path "out" "png" "shots/a.png" (1290, 2796) false
  = output_path "out" "png" "more/a.png" (1290, 2796) false.
Proof. split; [discriminate | reflexivity]. Qed.

(** C8: a file named on the command line is returned whatever its
    extension. *)
Lemma gather_inputs_keeps_named_file :
  In "notes.txt" (gather_inputs world ["shots"; "notes.txt"]) /\
  forall ext, In ext image_suffixes ->
              Str.endswith (Str.lower "notes.txt") ext = false.
Proof.
  split.
  - cbn. right; right; left; reflexivity.
  - intros ext H. cbn in H.
    repeat (destruct H as [<-|H]; [reflexivity|]). destruct H.
Qed.

(** C9: pad always returns an RGB canvas, and a grey image with alpha is
    converted to RGB by every strategy. *)
Lemma alpha_is_dropped :
  (exists out,
     apply_layout nearest_neighbour to_mode Pad rgba_icon (8, 8) (0, 0, 0) = Ok out /\
     has_alpha (mode rgba_icon) = true /\ has_alpha (mode out) = false) /\
  (exists out,
     apply_layout nearest_neighbour to_mode Stretch la_icon (8, 8) (0, 0, 0) = Ok out /\
     has_alpha (mode la_icon) = true /\ has_alpha (mode out) = false).
Proof.
  split.
  - destruct (fit_and_pad_total nearest_neighbour to_mode rgba_icon 8 8 (0, 0, 0))
      as [out E];
      [apply icons_decodable | unfold in_range, max_dim; lia
      | unfold in_range, max_dim; lia |].
    exists out. split; [exact E|]. split; [reflexivity|].
    rewrite (layout_mode nearest_neighbour to_mode Pad rgba_icon (8, 8) (0, 0, 0)
               out E).
    reflexivity.
  - assert (T : exists out,
               apply_layout nearest_neighbour to_mode Stretch la_icon (8, 8) (0, 0, 0)
               = Ok out).
    { unfold apply_layout, stretch_resize.
      apply resize_ok; unfold in_range, max_dim; lia. }
    destruct T as [out E].
    exists out. split; [exact E|]. split; [reflexivity|].
    rewrite (layout_mode nearest_neighbour to_mode Stretch la_icon (8, 8) (0, 0, 0)
               out E).
    reflexivity.
Qed.

(** ** Where the code fails the specification *)

(** C5.  A colour with signed fields passes the argument checks.  For
    [--bg "#-f-f-f"] the parser returns [(-15, -15, -15)], and [main] goes
    on, writes the padded file and returns 0 without a line on the error
    stream, where the claim, and the parser's own message "bg color must be
    #RGB or #RRGGBB", call for exit code 2. *)
Theorem main_accepts_signed_colour :
  parse_hex_color "#-f-f-f" = Ok (-15, -15, -15) /\
  fst (main nearest_neighbour to_mode world
         (mkArgs ["shots/more/B.JPG"] "out" "8x8" Pad "#-f-f-f" "png" false)) = 0 /\
  map fst (saves (snd (main nearest_neighbour to_mode world
                         (mkArgs ["shots/more/B.JPG"] "out" "8x8" Pad "#-f-f-f"
                            "png" false))))
  = ["out/B_8x8.png"] /\
  errors (snd (main nearest_neighbour to_mode world
                 (mkArgs ["shots/more/B.JPG"] "out" "8x8" Pad "#-f-f-f" "png" false)))
  = [].
Proof. vm_compute. repeat split. Qed.

(** * Further properties of the code *)

(** ** Size lists *)

Module ParseFacts.

Import Str PyInt StrFacts.
Local Open Scope string_scope.
Local Open Scope Z_scope.

Lemma split_cons (c : ascii) (s : string) : exists hd tl, split c s = hd :: tl.
Proof.
  induction s as [|d s (hd & tl & IH)]; cbn; [eauto|].
  destruct (Ascii.eqb d c); [eauto|]. rewrite IH. eauto.
Qed.

Lemma split_append (c : ascii) (a b : string) :
  split c (a ++ String c b) = (split c a ++ split c b)%list.
Proof.
  induction a as [|d a IH]; cbn.
  - now rewrite Ascii.eqb_refl.
  - destruct (Ascii.eqb d c); [now rewrite IH|].
    rewrite IH. destruct (split_cons c a) as (hd & tl & ->). reflexivity.
Qed.

Lemma parse_tokens_app (l1 l2 : list string) :
  parse_tokens (l1 ++ l2)
  = (a <- parse_tokens l1 ;; b <- parse_tokens l2 ;; Ok (a ++ b)%list).
Proof.
  induction l1 as [|t l1 IH]; cbn [app parse_tokens bind].
  - destruct (parse_tokens l2); reflexivity.
  - destruct (contains "x" _); [|reflexivity]. cbn [negb].
    destruct (split1 "x" _) as [w h].
    destruct (PyInt.int 10 w); [|reflexivity]. cbn [bind].
    destruct (PyInt.int 10 h); [|reflexivity]. cbn [bind].
    rewrite IH. destruct (parse_tokens l1); [|reflexivity]. cbn [bind].
    destruct (parse_tokens l2); reflexivity.
Qed.

Lemma parse_tokens_length (ts : list string) (l : list (Z * Z)) :
  parse_tokens ts = Ok l -> List.length l = List.length ts.
Proof.
  revert l. induction ts as [|t ts IH]; cbn [parse_tokens]; intros l H.
  - injection H as <-. reflexivity.
  - destruct (contains "x" _); [|discriminate]. cbn [negb] in H.
    destruct (split1 "x" _) as [w h].
    destruct (PyInt.int 10 w); [|discriminate]. cbn [bind] in H.
    destruct (PyInt.int 10 h); [|discriminate]. cbn [bind] in H.
    destruct (parse_tokens ts) as [out|]; [|discriminate]. cbn [bind] in H.
    injection H as <-. cbn [List.length]. f_equal. apply IH. reflexivity.
Qed.

(** X1.  [parse_sizes] reads a comma-separated list piecewise: the sizes of
    [s1,s2] are those of [s1] followed by those of [s2], and the leftmost
    malformed token decides the exception. *)
Theorem parse_sizes_comma (s1 s2 : string) :
  parse_sizes (s1 ++ String "," s2)
  = (a <- parse_sizes s1 ;; b <- parse_sizes s2 ;; Ok (a ++ b)%list).
Proof. unfold parse_sizes. rewrite split_append. apply parse_tokens_app. Qed.

(** X2.  Whenever [parse_sizes] returns, it returns one pair per
    comma-separated token, hence at least one: the list of targets that
    [main] loops over is never empty. *)
Theorem parse_sizes_count (s : string) (l : list (Z * Z)) :
  parse_sizes s = Ok l ->
  List.length l = List.length (split "," s) /\ l <> [].
Proof.
  intros H. apply parse_tokens_length in H. split; [exact H|].
  destruct (split_cons "," s) as (hd & tl & E). rewrite E in H.
  destruct l; [discriminate|congruence].
Qed.

(** X3.  Round trip: for every non-empty list of int pairs, of any sign,
    the text made of their [{w}x{h}] forms joined by commas is read back by
    [parse_sizes] as that list. *)
Theorem parse_sizes_round_trip (l : list (Z * Z)) :
  l <> [] ->
  parse_sizes
    (String.concat ","
       (map (fun t => of_int (fst t) ++ "x" ++ of_int (snd t)) l))
  = Ok l.
Proof.
  induction l as [|[w h] l IH]; [congruence|]. intros _.
  destruct l as [|t l].
  - cbn [map String.concat fst snd]. apply parse_sizes_of_ints.
  - change (parse_sizes
              ((of_int w ++ "x" ++ of_int h) ++ String ","
                 (String.concat ","
                    (map (fun t => of_int (fst t) ++ "x" ++ of_int (snd t)) (t :: l))))
            = Ok ((w, h) :: t :: l)).
    unfold parse_sizes in *. rewrite split_append, parse_tokens_app.
    fold (parse_sizes (of_int w ++ "x" ++ of_int h)).
    change (of_int w ++ "x" ++ of_int h) with (of_int w ++ String "x" (of_int h)).
    rewrite parse_sizes_of_ints. cbn [bind].
    rewrite IH by discriminate. reflexivity.
Qed.

End ParseFacts.

(** ** Colours *)

Module ColourFacts.

Import Str PyInt StrFacts.
Local Open Scope string_scope.
Local Open Scope Z_scope.

(** What a hexadecimal digit is not. *)
Lemma hex_value_char (c : ascii) (v : Z) :
  hex_value c = Some v ->
  digit_value c = Some v /\ 0 <= v < 16 /\
  is_space c = false /\ Ascii.eqb c "#" = false /\
  Ascii.eqb c "+" = false /\ Ascii.eqb c "-" = false /\
  Ascii.eqb c "_" = false /\ Ascii.eqb c "x" = false /\ Ascii.eqb c "X" = false.
Proof.
  destruct c as [[] [] [] [] [] [] [] []]; vm_compute; intros H;
    first [discriminate H | injection H as <-; repeat split; congruence].
Qed.

(** [int(s, 16)] on two hexadecimal digits. *)
Lemma parse_hex_pair (a b : ascii) (va vb : Z) :
  hex_value a = Some va -> hex_value b = Some vb ->
  PyInt.int 16 (String a (String b "")) = Ok (16 * va + vb).
Proof.
  intros Ha Hb.
  destruct (hex_value_char a va Ha) as (Da & Ra & Sa & _ & Pa & Ma & Ua & _).
  destruct (hex_value_char b vb Hb) as (Db & Rb & Sb & _ & _ & _ & Ub & Xb & Xb').
  unfold PyInt.int, parse.
  rewrite trim_no_space by (cbn [all_chars]; now rewrite Sa, Sb).
  rewrite Pa, Ma. unfold magnitude. change (16 =? 16) with true. cbv iota.
  unfold skip_hex_prefix. rewrite Xb, Xb', andb_false_r. rewrite Ua.
  cbn [digits]. rewrite Ua, Da, Ub, Db.
  destruct (Z.ltb_spec va 16); [|lia]. destruct (Z.ltb_spec vb 16); [|lia].
  cbn [lift]. f_equal. lia.
Qed.

Lemma digit_value_nonneg (c : ascii) (d : Z) : digit_value c = Some d -> 0 <= d.
Proof.
  unfold digit_value.
  repeat match goal with
         | |- context [if ?b then _ else _] => destruct b eqn:?
         end; intros [= <-]; try discriminate;
    repeat match goal with
           | H : _ && _ = true |- _ => apply andb_true_iff in H as [? _]
           | H : (_ <=? _) = true |- _ => apply Z.leb_le in H
           end; lia.
Qed.

Lemma digits_bound (base acc : Z) (pu : bool) (s : string) (v : Z) :
  1 <= base -> 0 <= acc -> digits base acc pu s = Some v ->
  0 <= v < (acc + 1) * base ^ Z.of_nat (String.length s).
Proof.
  intros Hb. revert acc pu. induction s as [|c s IH]; intros acc pu Hacc H.
  - cbn in H. destruct pu; [discriminate|]. injection H as <-. cbn. lia.
  - cbn [digits] in H. cbn [String.length]. rewrite Nat2Z.inj_succ, Z.pow_succ_r by lia.
    assert (P : 1 <= base ^ Z.of_nat (String.length s)).
    { change 1 with (Z.succ 0). apply Zlt_le_succ, Z.pow_pos_nonneg; lia. }
    destruct (Ascii.eqb c "_").
    + destruct pu; [discriminate|]. apply IH in H; [|lia]. nia.
    + destruct (digit_value c) as [d|] eqn:D; [|discriminate].
      apply digit_value_nonneg in D.
      destruct (Z.ltb_spec d base); [|discriminate].
      apply IH in H; [|nia]. nia.
Qed.

Lemma skip_hex_prefix_length (s : string) :
  (String.length (skip_hex_prefix s) <= String.length s)%nat.
Proof.
  unfold skip_hex_prefix. destruct s as [|c [|x rest]]; try lia.
  destruct (_ && _); [|lia]. destruct rest as [|u rest']; cbn; [lia|].
  destruct (Ascii.eqb u "_"); cbn; lia.
Qed.

Lemma pow_length_le (base : Z) (n m : nat) :
  1 <= base -> (n <= m)%nat -> base ^ Z.of_nat n <= base ^ Z.of_nat m.
Proof. intros. apply Z.pow_le_mono_r; lia. Qed.

Lemma magnitude_bound (base : Z) (s : string) (v : Z) :
  1 <= base -> magnitude base s = Some v ->
  0 <= v < base ^ Z.of_nat (String.length s).
Proof.
  intros Hb. unfold magnitude.
  set (body := if base =? 16 then skip_hex_prefix s else s).
  assert (L : (String.length body <= String.length s)%nat).
  { subst body. destruct (base =? 16); [apply skip_hex_prefix_length | lia]. }
  destruct body as [|c body'] eqn:E; [discriminate|].
  destruct (Ascii.eqb c "_"); [discriminate|]. intros H.
  apply digits_bound in H; try lia.
  pose proof (pow_length_le base _ _ Hb L). lia.
Qed.

Lemma lskip_length (s : string) : (String.length (lskip s) <= String.length s)%nat.
Proof.
  induction s as [|c s IH]; cbn; [lia|]. destruct (is_blank c); cbn; lia.
Qed.

Lemma rskip_length (s : string) : (String.length (rskip s) <= String.length s)%nat.
Proof.
  induction s as [|c s IH]; cbn; [lia|]. destruct (_ && _); cbn; lia.
Qed.

Lemma trim_length (s : string) : (String.length (trim s) <= String.length s)%nat.
Proof.
  unfold trim. pose proof (rskip_length (lskip s)). pose proof (lskip_length s). lia.
Qed.

(** A literal of [n] characters denotes less than [base ^ n] in absolute
    value. *)
Lemma parse_bound (base : Z) (s : string) (v : Z) :
  1 <= base -> parse base s = Some v ->
  Z.abs v < base ^ Z.of_nat (String.length s).
Proof.
  intros Hb. unfold parse. pose proof (trim_length s) as L.
  destruct (trim s) as [|c s'] eqn:E; [discriminate|]. cbn [String.length] in L.
  assert (P : forall t w, (String.length t <= String.length s)%nat ->
                          magnitude base t = Some w ->
                          0 <= w < base ^ Z.of_nat (String.length s)).
  { intros t w Lt Hw. apply magnitude_bound in Hw; [|exact Hb].
    pose proof (pow_length_le base _ _ Hb Lt). lia. }
  destruct (Ascii.eqb c "+").
  - intros H. apply P in H; lia.
  - destruct (Ascii.eqb c "-").
    + destruct (magnitude base s') as [w|] eqn:M; [|discriminate].
      intros [= <-]. apply P in M; lia.
    + intros H. apply P in H; [lia|]. cbn [String.length]. lia.
Qed.

Lemma substring_length (n m : nat) (s : string) :
  (String.length (substring n m s) <= m)%nat.
Proof.
  revert n m. induction s as [|c s IH]; intros n m.
  - destruct n, m; cbn; lia.
  - destruct n; cbn.
    + destruct m; cbn; [lia|]. specialize (IH 0%nat m). lia.
    + apply IH.
Qed.

Lemma int_pair_bound (s : string) (n : nat) (v : Z) :
  PyInt.int 16 (substring n 2 s) = Ok v -> -255 <= v <= 255.
Proof.
  unfold PyInt.int. destruct (parse 16 _) as [w|] eqn:P; [|discriminate].
  intros [= <-]. apply parse_bound in P; [|lia].
  pose proof (substring_length n 2 s) as L.
  pose proof (pow_length_le 16 _ 2 ltac:(lia) L) as Q.
  change (16 ^ Z.of_nat 2) with 256 in Q. lia.
Qed.

(** X4.  Six hexadecimal digits, in either case, with or without the
    leading [#], are read as the three channels [16 * high + low], each
    between 0 and 255. *)
Theorem parse_hex_color_six_digits (c1 c2 c3 c4 c5 c6 : ascii) (v1 v2 v3 v4 v5 v6 : Z) :
  hex_value c1 = Some v1 -> hex_value c2 = Some v2 -> hex_value c3 = Some v3 ->
  hex_value c4 = Some v4 -> hex_value c5 = Some v5 -> hex_value c6 = Some v6 ->
  let digits := String c1 (String c2 (String c3 (String c4 (String c5 (String c6 ""))))) in
  let colour := (16 * v1 + v2, 16 * v3 + v4, 16 * v5 + v6) in
  parse_hex_color (String "#" digits) = Ok colour /\
  parse_hex_color digits = Ok colour /\
  (0 <= 16 * v1 + v2 <= 255 /\ 0 <= 16 * v3 + v4 <= 255 /\ 0 <= 16 * v5 + v6 <= 255).
Proof.
  intros H1 H2 H3 H4 H5 H6 ds colour.
  destruct (hex_value_char c1 v1 H1) as (_ & R1 & S1 & N1 & _).
  destruct (hex_value_char c2 v2 H2) as (_ & R2 & S2 & _).
  destruct (hex_value_char c3 v3 H3) as (_ & R3 & S3 & _).
  destruct (hex_value_char c4 v4 H4) as (_ & R4 & S4 & _).
  destruct (hex_value_char c5 v5 H5) as (_ & R5 & S5 & _).
  destruct (hex_value_char c6 v6 H6) as (_ & R6 & S6 & _).
  assert (A : all_chars (fun c => negb (is_space c)) ds = true).
  { subst ds. cbn [all_chars]. now rewrite S1, S2, S3, S4, S5, S6. }
  assert (E : parse_hex_color ds = Ok colour).
  { unfold parse_hex_color. rewrite (all_chars_strip _ A).
    subst ds. cbn [lstrip_char]. rewrite N1.
    cbn [String.length Nat.eqb orb negb substring].
    rewrite (parse_hex_pair c1 c2 v1 v2 H1 H2); cbn [bind].
    rewrite (parse_hex_pair c3 c4 v3 v4 H3 H4); cbn [bind].
    rewrite (parse_hex_pair c5 c6 v5 v6 H5 H6); cbn [bind]. reflexivity. }
  split; [|split; [exact E | lia]].
  rewrite <- E. unfold parse_hex_color.
  rewrite (all_chars_strip ds A).
  rewrite (all_chars_strip (String "#" ds)) by (cbn [all_chars]; rewrite A; reflexivity).
  cbn [lstrip_char]. rewrite Ascii.eqb_refl. reflexivity.
Qed.

(** X5.  The three-digit shorthand: each digit is doubled, so each
    channel is 17 times its digit, and [#abc] is read as [#aabbcc]. *)
Theorem parse_hex_color_three_digits (c1 c2 c3 : ascii) (v1 v2 v3 : Z) :
  hex_value c1 = Some v1 -> hex_value c2 = Some v2 -> hex_value c3 = Some v3 ->
  let digits := String c1 (String c2 (String c3 "")) in
  parse_hex_color (String "#" digits) = Ok (17 * v1, 17 * v2, 17 * v3) /\
  parse_hex_color digits = Ok (17 * v1, 17 * v2, 17 * v3) /\
  parse_hex_color (String "#" digits)
  = parse_hex_color (String "#" (double_chars digits)).
Proof.
  intros H1 H2 H3 ds.
  destruct (hex_value_char c1 v1 H1) as (_ & R1 & S1 & N1 & _).
  destruct (hex_value_char c2 v2 H2) as (_ & R2 & S2 & _).
  destruct (hex_value_char c3 v3 H3) as (_ & R3 & S3 & _).
  assert (A : all_chars (fun c => negb (is_space c)) ds = true).
  { subst ds. cbn [all_chars]. now rewrite S1, S2, S3. }
  assert (A2 : all_chars (fun c => negb (is_space c)) (double_chars ds) = true).
  { subst ds. cbn [all_chars double_chars]. now rewrite S1, S2, S3. }
  assert (P : forall text : string,
            lstrip_char "#" (strip text) = ds \/
            lstrip_char "#" (strip text) = double_chars ds ->
            parse_hex_color text = Ok (17 * v1, 17 * v2, 17 * v3)).
  { intros text E. unfold parse_hex_color.
    destruct E as [-> | ->]; subst ds;
      cbn [String.length Nat.eqb orb negb double_chars substring];
      rewrite (parse_hex_pair c1 c1 v1 v1 H1 H1); cbn [bind];
      rewrite (parse_hex_pair c2 c2 v2 v2 H2 H2); cbn [bind];
      rewrite (parse_hex_pair c3 c3 v3 v3 H3 H3); cbn [bind];
      replace (16 * v1 + v1) with (17 * v1) by lia;
      replace (16 * v2 + v2) with (17 * v2) by lia;
      replace (16 * v3 + v3) with (17 * v3) by lia; reflexivity. }
  assert (Hash : forall t, all_chars (fun c => negb (is_space c)) t = true ->
                   strip (String "#" t) = String "#" t).
  { intros t At. apply all_chars_strip. cbn [all_chars]. now rewrite At. }
  assert (L : forall t c, lstrip_char "#" (String "#" (String c t))
                          = lstrip_char "#" (String c t)).
  { intros t c. cbn [lstrip_char]. now rewrite Ascii.eqb_refl. }
  assert (D : lstrip_char "#" ds = ds) by (subst ds; cbn [lstrip_char]; now rewrite N1).
  assert (D2 : lstrip_char "#" (double_chars ds) = double_chars ds)
    by (subst ds; cbn [lstrip_char double_chars]; now rewrite N1).
  assert (E1 : parse_hex_color (String "#" ds) = Ok (17 * v1, 17 * v2, 17 * v3)).
  { apply P. left. rewrite (Hash _ A). subst ds. rewrite L. exact D. }
  split; [exact E1|]. split.
  - apply P. left. rewrite (all_chars_strip _ A). exact D.
  - rewrite E1. symmetry. apply P. right. rewrite (Hash _ A2).
    subst ds. cbn [double_chars]. rewrite L. exact D2.
Qed.

(** X6.  Whatever string [parse_hex_color] accepts, each channel lies
    between -255 and 255, the range of a two-character literal in base 16.
    The lower bound is not 0: [int] accepts a sign, see
    [parse_hex_color_negative]. *)
Theorem parse_hex_color_bound (s : string) (r g b : Z) :
  parse_hex_color s = Ok (r, g, b) ->
  -255 <= r <= 255 /\ -255 <= g <= 255 /\ -255 <= b <= 255.
Proof.
  unfold parse_hex_color. destruct (negb _); [discriminate|].
  set (t := if Nat.eqb _ 3 then _ else _). intros H.
  destruct (PyInt.int 16 (substring 0 2 t)) as [r'|] eqn:Er; [|discriminate].
  destruct (PyInt.int 16 (substring 2 2 t)) as [g'|] eqn:Eg; [|discriminate].
  destruct (PyInt.int 16 (substring 4 2 t)) as [b'|] eqn:Eb; [|discriminate].
  cbn [bind] in H. injection H as <- <- <-.
  apply int_pair_bound in Er, Eg, Eb. auto.
Qed.

Example parse_hex_color_negative :
  parse_hex_color "#-f-f-f" = Ok (-15, -15, -15).
Proof. vm_compute. reflexivity. Qed.

End ColourFacts.

(** ** The batch driver, run by run *)

Section BatchFacts.

Import PIL Str StrFacts.
Local Open Scope string_scope.
Local Open Scope Z_scope.

Variable resample : Image -> Z -> Z -> Z -> Z -> Pixel.
Variable convert_pixel : Mode -> Mode -> Pixel -> Pixel.

Local Abbreviation oriented_rgb := (oriented_rgb convert_pixel).
Local Abbreviation save_variant := (save_variant convert_pixel).
Local Abbreviation write_variants := (write_variants convert_pixel).
Local Abbreviation apply_layout := (apply_layout resample convert_pixel).
Local Abbreviation process_targets := (process_targets resample convert_pixel).
Local Abbreviation process_input := (process_input resample convert_pixel).
Local Abbreviation main := (main resample convert_pixel).

Lemma saves_app (a b : list Event) : saves (a ++ b) = (saves a ++ saves b)%list.
Proof. apply flat_map_app. Qed.

Lemma errors_app (a b : list Event) : errors (a ++ b) = (errors a ++ errors b)%list.
Proof. apply flat_map_app. Qed.

Lemma reported_app (a b : list Event) :
  reported (a ++ b) = (reported a ++ reported b)%list.
Proof. apply flat_map_app. Qed.

(** X7.  [gather_inputs] drops nothing: every input path that is not a
    directory is returned; so is every file met in the walk of an input
    directory whose name has one of the image suffixes, joined to its
    directory; and the result for a longer list of inputs is the
    concatenation of the results, in input order. *)
Theorem gather_inputs_complete (w : World) (paths : list string) :
  (forall p, In p paths -> dirs w p = None -> In p (gather_inputs w paths)) /\
  (forall d entries root ds files f,
     In d paths -> dirs w d = Some entries ->
     In (root, ds, files) (walk d entries) -> In f files ->
     has_image_suffix f = true ->
     In (Path.join root f) (gather_inputs w paths)) /\
  (forall more,
     gather_inputs w (paths ++ more)
     = (gather_inputs w paths ++ gather_inputs w more)%list).
Proof.
  unfold gather_inputs. repeat split.
  - intros p Hp E. apply in_flat_map. exists p. split; [exact Hp|].
    rewrite E. left; reflexivity.
  - intros d entries root ds files f Hd E Hw Hf Hs.
    apply in_flat_map. exists d. split; [exact Hd|]. rewrite E.
    apply in_flat_map. exists (root, ds, files). split; [exact Hw|].
    apply in_map, filter_In. auto.
  - intros more. apply flat_map_app.
Qed.

(** The three strategies return the target size. *)
Lemma layout_size (m : LayoutMode) im t bgc out :
  apply_layout m im t bgc = Ok out -> size out = t.
Proof.
  destruct t as [tw th]. destruct m; unfold apply_layout.
  - apply fit_and_pad_size.
  - apply cover_and_crop_size.
  - apply stretch_resize_size.
Qed.

(** [save_variant] in one equation: JPEG output gets the quality settings
    and loses an alpha band. *)
Lemma save_variant_eq (img : Image) (outdir base : string) (sz : Z * Z)
    (fmt suffix : string) :
  save_variant img outdir base sz fmt suffix
  = let jpeg := String.eqb (lower fmt) "jpg" || String.eqb (lower fmt) "jpeg" in
    (variant_path outdir base sz fmt suffix,
     SaveFile (variant_path outdir base sz fmt suffix)
       (written_image convert_pixel fmt img)
       (if jpeg then Some 95 else None) jpeg).
Proof.
  unfold save_variant, written_image. destruct (_ || _); reflexivity.
Qed.

(** The save of the variant of [source] for [t]: [land] selects the rotated
    one. *)
#[warnings="-inconsistent-scopes"]
Local Abbreviation variant_event args source t out land :=
  (let jpeg := String.eqb (lower (format args)) "jpg"
               || String.eqb (lower (format args)) "jpeg" in
   SaveFile (output_path (outdir args) (format args) source t land)
     (written_image convert_pixel (format args)
        (if land then rotate_90_expand out else out))
     (if jpeg then Some 95 else None) jpeg) (only parsing).

(** What one iteration of the loop over targets does. *)
Lemma write_variants_eq (args : Args) (path : string) (t : Z * Z) (out : Image) :
  write_variants args path t out
  = ([variant_event args path t out false;
      Stdout (Wrote (output_path (outdir args) (format args) path t false))]
     ++ if landscape args
        then [variant_event args path t out true;
              Stdout (Wrote (output_path (outdir args) (format args) path t true))]
        else [])%list.
Proof.
  destruct t as [tw th]. unfold write_variants.
  rewrite !save_variant_eq. unfold output_path. cbn [fst snd].
  destruct (landscape args); reflexivity.
Qed.

Lemma in_saves (trace : list Event) (p : string) (im : Image) :
  In (p, im) (saves trace) <-> exists q o, In (SaveFile p im q o) trace.
Proof.
  unfold saves. rewrite in_flat_map. split.
  - intros (ev & Hev & H). destruct ev; try destruct H.
    + injection H as <- <-. eauto.
    + destruct H.
  - intros (q & o & H). eexists. split; [exact H|]. left; reflexivity.
Qed.

(** Every save of the loop over targets is the variant of a target whose
    strategy call returned. *)
Lemma process_targets_saves (args : Args) bgc (path : string) (src : Image)
    (targets : list (Z * Z)) (p : string) (im : Image) q o :
  In (SaveFile p im q o) (fst (process_targets args bgc path src targets)) ->
  exists t out land,
    In t targets /\ apply_layout (layout args) src t bgc = Ok out /\
    (land = true -> landscape args = true) /\
    SaveFile p im q o = variant_event args path t out land.
Proof.
  induction targets as [|t0 rest IH]; cbn [process_targets fst]; [intros []|].
  destruct (apply_layout (layout args) src t0 bgc) as [out0|e0] eqn:E0; [|intros []].
  destruct (process_targets args bgc path src rest) as [evs r]. cbn [fst] in *.
  intros H. apply in_app_or in H as [H|H].
  - rewrite write_variants_eq in H. apply in_app_or in H as [H|H].
    + destruct H as [H|[H|[]]]; [|discriminate].
      exists t0, out0, false. repeat split; auto; [left; reflexivity | discriminate].
    + destruct (landscape args) eqn:L; [|destruct H].
      destruct H as [H|[H|[]]]; [|discriminate].
      exists t0, out0, true. repeat split; auto. left; reflexivity.
  - destruct (IH H) as (t & out & land & Ht & Eo & Hl & Ev).
    exists t, out, land. repeat split; auto. right; exact Ht.
Qed.

(** Every save of a run of [main] is such a variant, of a gathered input. *)
Lemma main_saves_inv (w : World) (args : Args) (p : string) (im : Image) q o :
  In (SaveFile p im q o) (snd (main w args)) ->
  exists targets bgc source src t out land,
    parse_sizes (sizes args) = Ok targets /\
    parse_hex_color (bg args) = Ok bgc /\
    In source (gather_inputs w (input args)) /\
    open_image w source = Ok src /\
    In t targets /\ apply_layout (layout args) src t bgc = Ok out /\
    (land = true -> landscape args = true) /\
    SaveFile p im q o = variant_event args source t out land.
Proof.
  unfold main.
  destruct (parse_sizes (sizes args)) as [targets|e1] eqn:E1;
    [|intros [H|[]]; discriminate].
  destruct (parse_hex_color (bg args)) as [bgc|e2] eqn:E2;
    [|intros [H|[]]; discriminate].
  destruct (gather_inputs w (input args)) as [|p0 ps] eqn:Ei;
    [intros [H|[]]; discriminate|].
  rewrite <- Ei. cbn [snd ensure_outdir app]. intros [H|H]; [discriminate|].
  apply in_flat_map in H as (source & Hs & H).
  unfold process_input in H.
  destruct (open_image w source) as [src|e] eqn:Eo.
  - destruct (process_targets args bgc source src targets) as [evs r] eqn:Ep.
    destruct H as [H|H]; [discriminate|]. apply in_app_or in H as [H|H].
    + assert (H' : In (SaveFile p im q o)
                     (fst (process_targets args bgc source src targets)))
        by (rewrite Ep; exact H).
      apply process_targets_saves in H' as (t & out & land & Ht & El & Hl & Ev).
      exists targets, bgc, source, src, t, out, land. auto 10.
    + destruct r; [destruct H as [H|[]]; discriminate | destruct H].
  - destruct H as [H|[H|[]]]; discriminate.
Qed.

Lemma variant_size (fmt : string) (t : Z * Z) (out : Image) (land : bool) :
  size out = t ->
  size (written_image convert_pixel fmt (if land then rotate_90_expand out else out))
  = if land then (snd t, fst t) else t.
Proof.
  intros <-. rewrite written_image_size. destruct land; reflexivity.
Qed.

(** X8.  Every file that [main] saves is a variant of a gathered input
    for one of the parsed targets: its path is the one built from that
    input, the target and the orientation, the landscape one only under
    [--landscape], and its raster has the target's size, swapped for the
    landscape variant. *)
Theorem main_saves_match_names (w : World) (args : Args) (p : string) (im : Image) :
  In (p, im) (saves (snd (main w args))) ->
  exists targets source t land,
    parse_sizes (sizes args) = Ok targets /\
    In source (gather_inputs w (input args)) /\
    In t targets /\ (land = true -> landscape args = true) /\
    p = output_path (outdir args) (format args) source t land /\
    size im = if land then (snd t, fst t) else t.
Proof.
  intros H. apply in_saves in H as (q & o & H).
  apply main_saves_inv in H
    as (targets & bgc & source & src & t & out & land & E1 & _ & Hs & _ & Ht & El & Hl & Ev).
  injection Ev as -> -> _ _.
  exists targets, source, t, land. repeat split; auto.
  apply variant_size. eapply layout_size; exact El.
Qed.

Lemma variant_mode (fmt : string) (out : Image) (land : bool) :
  mode out = RGB \/ mode out = RGBA ->
  let im := written_image convert_pixel fmt (if land then rotate_90_expand out else out) in
  if String.eqb (lower fmt) "jpg" || String.eqb (lower fmt) "jpeg"
  then mode im = RGB
  else mode im = mode out.
Proof.
  intros M im. subst im. unfold written_image.
  assert (R : mode (if land then rotate_90_expand out else out) = mode out)
    by (destruct land; reflexivity).
  destruct (_ || _); [|exact R].
  rewrite R. destruct M as [M | M]; rewrite M in *; cbn [mode_eqb];
    [exact R | reflexivity].
Qed.

Lemma layout_mode_rgb (m : LayoutMode) src t bgc out :
  apply_layout m src t bgc = Ok out -> mode out = RGB \/ mode out = RGBA.
Proof.
  intros H. apply layout_mode in H. rewrite H.
  destruct m; [auto|..]; rewrite oriented_rgb_mode;
    destruct (mode_eqb (mode src) RGBA); auto.
Qed.

(** X9.  Every save of a run of [main]: with format [jpg] or [jpeg] the
    raster is RGB, never RGBA, and it is saved with quality 95 and
    [optimize]; with any other format the raster is RGB or RGBA and it is
    saved without parameters. *)
Theorem main_jpeg_has_no_alpha (w : World) (args : Args) (p : string) (im : Image) q o :
  In (SaveFile p im q o) (snd (main w args)) ->
  if String.eqb (lower (format args)) "jpg" || String.eqb (lower (format args)) "jpeg"
  then mode im = RGB /\ q = Some 95 /\ o = true
  else (mode im = RGB \/ mode im = RGBA) /\ q = None /\ o = false.
Proof.
  intros H. apply main_saves_inv in H
    as (targets & bgc & source & src & t & out & land & _ & _ & _ & _ & _ & El & _ & Ev).
  injection Ev as _ -> -> ->.
  apply layout_mode_rgb in El.
  pose proof (variant_mode (format args) out land El) as M. cbv zeta in M.
  destruct (_ || _); [auto|]. rewrite M. auto.
Qed.

Lemma reported_write_variants (args : Args) (path : string) (t : Z * Z) (out : Image) :
  reported (write_variants args path t out)
  = map fst (saves (write_variants args path t out)).
Proof. rewrite write_variants_eq. destruct (landscape args); reflexivity. Qed.

Lemma reported_process_targets (args : Args) bgc path src targets :
  reported (fst (process_targets args bgc path src targets))
  = map fst (saves (fst (process_targets args bgc path src targets))).
Proof.
  induction targets as [|t0 rest IH]; cbn [process_targets]; [reflexivity|].
  destruct (apply_layout (layout args) src t0 bgc); [|reflexivity].
  destruct (process_targets args bgc path src rest) as [evs r]. cbn [fst] in *.
  rewrite reported_app, saves_app, map_app, IH, reported_write_variants. reflexivity.
Qed.

Lemma reported_process_input (w : World) (args : Args) bgc targets path :
  reported (process_input w args bgc targets path)
  = map fst (saves (process_input w args bgc targets path)).
Proof.
  unfold process_input. destruct (open_image w path) as [src|e]; [|reflexivity].
  pose proof (reported_process_targets args bgc path src targets) as R.
  destruct (process_targets args bgc path src targets) as [evs r]. cbn [fst] in R.
  change (OpenImage path :: evs ++ ?l)%list with ([OpenImage path] ++ evs ++ l)%list.
  rewrite !reported_app, !saves_app, !map_app, R.
  destruct r; reflexivity.
Qed.

(** X10.  The [Wrote] lines of a run of [main] list exactly the paths of
    the files saved, in the order of saving. *)
Theorem main_reports_what_it_saves (w : World) (args : Args) :
  reported (snd (main w args)) = map fst (saves (snd (main w args))).
Proof.
  unfold main.
  destruct (parse_sizes (sizes args)) as [targets|e1]; [|reflexivity].
  destruct (parse_hex_color (bg args)) as [bgc|e2]; [|reflexivity].
  destruct (gather_inputs w (input args)) as [|p0 ps] eqn:Ei; [reflexivity|].
  generalize (p0 :: ps). intros inputs. cbn [snd].
  rewrite reported_app, saves_app, map_app. cbn [ensure_outdir reported saves flat_map map app].
  induction inputs as [|x xs IH]; [reflexivity|].
  cbn [flat_map]. rewrite reported_app, saves_app, map_app, IH, reported_process_input.
  reflexivity.
Qed.


Lemma errors_process_targets (args : Args) bgc path src targets :
  errors (fst (process_targets args bgc path src targets)) = [].
Proof.
  induction targets as [|t0 rest IH]; cbn [process_targets]; [reflexivity|].
  destruct (apply_layout (layout args) src t0 bgc); [|reflexivity].
  destruct (process_targets args bgc path src rest) as [evs r]. cbn [fst] in *.
  rewrite errors_app, IH, write_variants_eq. destruct (landscape args); reflexivity.
Qed.



Lemma errors_process_input_length (w : World) (args : Args) bgc targets path :
  (List.length (errors (process_input w args bgc targets path)) <= 1)%nat /\
  forall line, In line (errors (process_input w args bgc targets path)) ->
               exists e, line = FailedOn path e.
Proof.
  unfold process_input. destruct (open_image w path) as [src|e].
  - pose proof (errors_process_targets args bgc path src targets) as Z0.
    destruct (process_targets args bgc path src targets) as [evs r]. cbn [fst] in Z0.
    change (OpenImage path :: evs ++ ?l)%list with ([OpenImage path] ++ evs ++ l)%list.
    rewrite !errors_app, Z0. destruct r as [e|]; cbn.
    + split; [lia|]. intros line [<-|[]]. eauto.
    + split; [lia|]. intros line [].
  - cbn. split; [lia|]. intros line [<-|[]]. eauto.
Qed.

(** X12.  When [main] returns 0, the error stream holds at most one line
    per gathered input, each a [Failed on] line for one of them.  In
    particular, when no input can be opened nothing is saved and every
    input is reported, in order; the exit code is 0 all the same. *)
Theorem main_error_stream (w : World) (args : Args) :
  fst (main w args) = 0 ->
  let inputs := gather_inputs w (input args) in
  let trace := snd (main w args) in
  (List.length (errors trace) <= List.length inputs)%nat /\
  (forall line, In line (errors trace) ->
     exists p e, line = FailedOn p e /\ In p inputs) /\
  ((forall p, In p inputs -> is_ok (open_image w p) = false) ->
   saves trace = [] /\
   errors trace
   = flat_map (fun p => match open_image w p with
                        | Raise e => [FailedOn p e]
                        | Ok _ => []
                        end) inputs /\
   List.length (errors trace) = List.length inputs).
Proof.
  unfold main.
  destruct (parse_sizes (sizes args)) as [targets|e1]; [|discriminate].
  destruct (parse_hex_color (bg args)) as [bgc|e2]; [|discriminate].
  destruct (gather_inputs w (input args)) as [|p0 ps] eqn:Ei; [discriminate|].
  intros _. cbv zeta. cbn [snd ensure_outdir app].
  generalize (p0 :: ps). clear. intros inputs.
  change (MakeDirs (outdir args) :: ?l) with ([MakeDirs (outdir args)] ++ l)%list.
  rewrite errors_app, saves_app. cbn [errors saves flat_map app].
  fold (errors (flat_map (process_input w args bgc targets) inputs)).
  fold (saves (flat_map (process_input w args bgc targets) inputs)).
  repeat split.
  - induction inputs as [|x xs IH]; [cbn; lia|].
    cbn [flat_map]. rewrite errors_app, length_app. cbn [List.length].
    pose proof (errors_process_input_length w args bgc targets x) as [L _]. lia.
  - intros line H. induction inputs as [|x xs IH]; [destruct H|].
    cbn [flat_map] in H. rewrite errors_app in H. apply in_app_or in H as [H|H].
    + apply errors_process_input_length in H as [e ->]. exists x, e.
      split; [reflexivity | left; reflexivity].
    + destruct (IH H) as (p & e & -> & Hp). exists p, e. split; [reflexivity | right; exact Hp].
  - induction inputs as [|x xs IH]; [reflexivity|].
    cbn [flat_map]. rewrite saves_app, IH by (intros p Hp; apply H; right; exact Hp).
    pose proof (H x (or_introl eq_refl)) as Hx. unfold process_input.
    destruct (open_image w x); [discriminate | reflexivity].
  - induction inputs as [|x xs IH]; [reflexivity|].
    cbn [flat_map]. rewrite errors_app, IH by (intros p Hp; apply H; right; exact Hp).
    pose proof (H x (or_introl eq_refl)) as Hx. unfold process_input.
    destruct (open_image w x); [discriminate | reflexivity].
  - induction inputs as [|x xs IH]; [reflexivity|].
    cbn [flat_map]. rewrite errors_app, length_app, IH by (intros p Hp; apply H; right; exact Hp).
    pose proof (H x (or_introl eq_refl)) as Hx. unfold process_input.
    destruct (open_image w x); [discriminate | reflexivity].
Qed.


Lemma process_input_no_makedirs (w : World) (args : Args) bgc targets path d :
  ~ In (MakeDirs d) (process_input w args bgc targets path).
Proof.
  unfold process_input. destruct (open_image w path) as [src|e].
  2:{ intros [H|[H|[]]]; discriminate. }
  assert (T : ~ In (MakeDirs d) (fst (process_targets args bgc path src targets))).
  { induction targets as [|t0 rest IH]; cbn [process_targets]; [intros []|].
    destruct (apply_layout (layout args) src t0 bgc); [|intros []].
    destruct (process_targets args bgc path src rest) as [evs r]. cbn [fst] in *.
    intros H. apply in_app_or in H as [H|H]; [|exact (IH H)].
    rewrite write_variants_eq in H.
    destruct (landscape args); cbn in H;
      repeat (destruct H as [H|H]; [discriminate|]); exact H. }
  destruct (process_targets args bgc path src targets) as [evs r]. cbn [fst] in T.
  intros [H|H]; [discriminate|]. apply in_app_or in H as [H|H]; [exact (T H)|].
  destruct r; [destruct H as [H|[]]; discriminate | destruct H].
Qed.

(** X14.  When [main] returns 0, creating the output directory is its
    first effect, before any input is opened, and it creates no other
    directory: in particular none that mirrors the input tree. *)
Theorem main_creates_outdir_first (w : World) (args : Args) :
  fst (main w args) = 0 ->
  exists rest,
    snd (main w args) = MakeDirs (outdir args) :: rest /\
    forall d, ~ In (MakeDirs d) rest.
Proof.
  unfold main.
  destruct (parse_sizes (sizes args)) as [targets|e1]; [|discriminate].
  destruct (parse_hex_color (bg args)) as [bgc|e2]; [|discriminate].
  destruct (gather_inputs w (input args)) as [|p0 ps]; [discriminate|].
  intros _. eexists. split; [reflexivity|].
  intros d H. apply in_flat_map in H as (p & _ & H).
  exact (process_input_no_makedirs w args bgc targets p d H).
Qed.

End BatchFacts.

(** ** File names *)

Module NameFacts.

Import Str Path StrFacts.
Local Open Scope string_scope.

Lemma no_slash_relative (s : string) :
  contains "/" s = false -> startswith s "/" = false.
Proof.
  destruct s as [|c s]; cbn; [reflexivity|]. intros H.
  apply orb_false_iff in H as [-> _]. reflexivity.
Qed.

Lemma join_plain (a name : string) :
  contains "/" name = false -> Path.join a name = join_prefix a ++ name.
Proof.
  intros N. unfold Path.join, join_prefix. rewrite (no_slash_relative _ N).
  destruct (_ || _); [reflexivity|]. now rewrite append_assoc.
Qed.

Lemma startswith_nil (s : string) : startswith s "" = true.
Proof. destruct s; reflexivity. Qed.

(** Removing occurrences of [old] adds no character. *)
Lemma contains_replace (c : ascii) (old s : string) (k : nat) :
  contains c s = false -> contains c (replace_from old "" s k) = false.
Proof.
  revert k. induction s as [|d s IH]; intros k H; [reflexivity|].
  cbn in H. apply orb_false_iff in H as [Hd Hs]. cbn [replace_from].
  destruct k; [|apply IH; exact Hs].
  destruct (startswith (String d s) old); cbn [append contains].
  - apply IH; exact Hs.
  - rewrite Hd. apply IH; exact Hs.
Qed.

Lemma replace_absent (old new s : string) :
  has_sub old s = false -> replace old new s = s.
Proof.
  unfold replace. induction s as [|c s IH]; [reflexivity|].
  cbn [has_sub replace_from]. intros H. apply orb_false_iff in H as [-> H].
  now rewrite IH.
Qed.

(** The marker at the end of a name that has none before it. *)
Lemma replace_marker_end (name : string) :
  has_sub "@3x" name = false -> replace "@3x" "" (name ++ "@3x") = name.
Proof.
  unfold replace. induction name as [|c n IH]; [reflexivity|].
  cbn [has_sub]. intros H. apply orb_false_iff in H as [S H].
  assert (S' : startswith (String c n ++ "@3x") "@3x" = false).
  { destruct n as [|d [|e n']]; cbn in *;
      destruct (Ascii.eqb c "@"); cbn in *; try reflexivity;
      try (destruct (Ascii.eqb d "3"); cbn in *; try reflexivity);
      try assumption.
    rewrite startswith_nil in *. exact S. }
  change (String c n ++ "@3x") with (String c (n ++ "@3x")) in *.
  cbn [replace_from]. rewrite S'. now rewrite IH.
Qed.

(** Stem and extension of a file name without directory. *)
Lemma splitext_plain (b : string) :
  contains "/" b = false ->
  fst (splitext b) ++ snd (splitext b) = b /\
  contains "/" (fst (splitext b)) = false /\
  contains "/" (snd (splitext b)) = false.
Proof.
  intros N. unfold splitext. rewrite (basename_id b N), (head_nil b N).
  destruct (rsplit "." b) as [[st ext]|] eqn:E.
  - destruct (all_dots st); cbn [fst snd append].
    + rewrite append_nil_r. auto.
    + apply rsplit_append in E. subst b. rewrite contains_append in N.
      apply orb_false_iff in N. tauto.
  - cbn [fst snd]. rewrite append_nil_r. auto.
Qed.

Lemma append_neq_marker (a b x y : string) :
  x <> y -> a ++ x ++ b <> a ++ y ++ b.
Proof.
  intros N E. apply append_inv_head in E. apply append_inv_tail in E. contradiction.
Qed.

(** X15.  For the three formats that [argparse] allows, the output path
    is the output directory followed by a plain file name
    [stem_WxH[_landscape].format]: the name has no slash, so every output is
    a direct child of the output directory, wherever its source lies. *)
Theorem output_path_direct_child (outdir fmt source : string) (t : Z * Z)
    (land : bool) :
  In fmt ["png"; "jpg"; "jpeg"] ->
  let sz := if land then (snd t, fst t) else t in
  let name := Path.stem source ++ "_" ++ of_int (fst sz) ++ "x" ++ of_int (snd sz)
                ++ (if land then "_landscape" else "") ++ "." ++ fmt in
  output_path outdir fmt source t land = join_prefix outdir ++ name /\
  contains "/" name = false.
Proof.
  intros F sz name.
  assert (L : lower fmt = fmt /\ contains "/" fmt = false).
  { destruct F as [<-|[<-|[<-|[]]]]; split; reflexivity. }
  destruct L as [L Nf]. split.
  - subst name sz. destruct t as [w h]. unfold output_path.
    destruct land; cbn [fst snd]; rewrite variant_path_eq, L; reflexivity.
  - subst name. rewrite !contains_append, stem_no_slash, Nf.
    rewrite !of_int_no_char by reflexivity. destruct land; reflexivity.
Qed.

End NameFacts.

Section AssetFacts.

Import PIL Str Path StrFacts NameFacts.
Local Open Scope string_scope.
Local Open Scope Z_scope.

Variable resample : Image -> Z -> Z -> Z -> Z -> Pixel.

Local Abbreviation resize := (PIL.resize resample).
Local Abbreviation generate_ios_assets := (generate_ios_assets resample).

(** The three file names of Tool A are plain names. *)
Lemma asset_names_plain (image_path tag : string) :
  contains "/" tag = false ->
  contains "/"
    (replace "@3x" "" (fst (splitext (basename image_path))) ++ tag
       ++ snd (splitext (basename image_path))) = false.
Proof.
  intros T.
  destruct (splitext_plain _ (basename_no_slash image_path)) as (_ & N1 & N2).
  rewrite !contains_append, T, N2. unfold replace.
  rewrite contains_replace by exact N1. reflexivity.
Qed.

(** The saves of Tool A are a prefix of the three variants. *)
Lemma generate_ios_assets_saves (w : World) (image_path : string) :
  let stem := replace "@3x" "" (fst (splitext (basename image_path))) in
  let ext := snd (splitext (basename image_path)) in
  let dir := dirname image_path in
  exists i3 i2 i1 n,
    saves (fst (generate_ios_assets w image_path))
    = firstn n [(Path.join dir (stem ++ "@3x" ++ ext), i3);
                (Path.join dir (stem ++ "@2x" ++ ext), i2);
                (Path.join dir (stem ++ "" ++ ext), i1)].
Proof.
  intros stem ext dir. subst stem ext. unfold generate_ios_assets.
  destruct (open_image w image_path) as [img|e].
  2:{ exists (mkImage RGB 0 0 1 (fun _ _ => [])), (mkImage RGB 0 0 1 (fun _ _ => [])),
        (mkImage RGB 0 0 1 (fun _ _ => [])), 0%nat. reflexivity. }
  destruct (splitext (basename image_path)) as [filename ext]. cbn [fst snd].
  destruct (resize img (width img / 3 * 2, height img / 3 * 2)) as [i2|e2].
  2:{ exists img, img, img, 1%nat. reflexivity. }
  destruct (resize img (width img / 3, height img / 3)) as [i1|e1].
  2:{ exists img, i2, img, 2%nat. reflexivity. }
  exists img, i2, i1, 3%nat. reflexivity.
Qed.

(** X16.  Tool A never overwrites one of its variants with another: the
    paths it saves are pairwise distinct, and each is a plain file name in
    the directory of the source. *)
Theorem ios_asset_paths (w : World) (image_path : string) :
  let written := saves (fst (generate_ios_assets w image_path)) in
  NoDup (map fst written) /\
  forall p im, In (p, im) written ->
    exists name, p = join_prefix (dirname image_path) ++ name /\
                 contains "/" name = false.
Proof.
  intros written. subst written.
  destruct (generate_ios_assets_saves w image_path) as (i3 & i2 & i1 & n & E).
  rewrite E. clear E.
  set (stem := replace "@3x" "" (fst (splitext (basename image_path)))).
  set (ext := snd (splitext (basename image_path))).
  pose proof (asset_names_plain image_path "@3x" eq_refl) as N3.
  pose proof (asset_names_plain image_path "@2x" eq_refl) as N2.
  pose proof (asset_names_plain image_path "" eq_refl) as N1.
  fold stem ext in N3, N2, N1.
  rewrite !(join_plain (dirname image_path)) by assumption.
  set (pre := join_prefix (dirname image_path)).
  assert (D : NoDup [pre ++ stem ++ "@3x" ++ ext; pre ++ stem ++ "@2x" ++ ext;
                     pre ++ stem ++ "" ++ ext]).
  { assert (A : forall x y, x <> y -> pre ++ stem ++ x ++ ext <> pre ++ stem ++ y ++ ext).
    { intros x y Nxy F. apply append_inv_head in F.
      revert F. apply append_neq_marker. exact Nxy. }
    constructor.
    - intros [F|[F|[]]]; symmetry in F; revert F; apply A; discriminate.
    - constructor; [|constructor; [intros [] | constructor]].
      intros [F|[]]. symmetry in F. revert F. apply A. discriminate. }
  split.
  - destruct n as [|[|[|n]]]; cbn [firstn map fst].
    + constructor.
    + constructor; [intros [] | constructor].
    + inversion D as [|? ? H1 D1]; subst. inversion D1 as [|? ? H2 D2]; subst.
      constructor; [|constructor; [intros [] | constructor]].
      intros [F|[]]. apply H1. left. exact F.
    + destruct n; exact D.
  - intros p im H.
    assert (H' : In (p, im) [(pre ++ stem ++ "@3x" ++ ext, i3);
                             (pre ++ stem ++ "@2x" ++ ext, i2);
                             (pre ++ stem ++ "" ++ ext, i1)]).
    { destruct n as [|[|[|n]]]; cbn [firstn] in H; rewrite ?firstn_nil in H;
        cbn [In] in *; tauto. }
    destruct H' as [H'|[H'|[H'|[]]]]; injection H' as <- _; eexists; split;
      try reflexivity; assumption.
Qed.

(** X17.  Tool A on a source whose name carries no [@3x] marker, with
    both sides at least 3: the three variants are saved, and the 1x variant
    goes under the source's own file name in the source's directory.  For a
    path without a directory part that is the source path itself: the source
    is replaced by its third-size version. *)
Theorem ios_assets_replace_unmarked_source (w : World) (image_path : string)
    (img : Image) :
  open_image w image_path = Ok img ->
  has_sub "@3x" (fst (splitext (basename image_path))) = false ->
  3 <= width img <= max_dim -> 3 <= height img <= max_dim ->
  let stem := fst (splitext (basename image_path)) in
  let ext := snd (splitext (basename image_path)) in
  let dir := dirname image_path in
  exists img_2x img_1x,
    saves (fst (generate_ios_assets w image_path))
    = [(Path.join dir (stem ++ "@3x" ++ ext), img);
       (Path.join dir (stem ++ "@2x" ++ ext), img_2x);
       (Path.join dir (basename image_path), img_1x)] /\
    size img_1x = (width img / 3, height img / 3) /\
    (contains "/" image_path = false ->
     Path.join dir (basename image_path) = image_path).
Proof.
  intros Ho Hm HW HH stem ext dir.
  destruct (splitext_plain _ (basename_no_slash image_path)) as (Eb & _ & _).
  fold stem ext in Eb.
  unfold generate_ios_assets. rewrite Ho.
  subst stem ext. destruct (splitext (basename image_path)) as [filename e].
  cbn [fst snd] in *. rewrite (replace_absent _ _ _ Hm).
  destruct (resize_ok resample img (width img / 3 * 2) (height img / 3 * 2))
    as [i2 E2]; try (apply third_in_range; assumption).
  destruct (resize_ok resample img (width img / 3) (height img / 3))
    as [i1 E1]; try (apply third_in_range; assumption).
  rewrite E2, E1. exists i2, i1. rewrite Eb.
  split; [reflexivity|]. split; [eapply resize_size; exact E1|].
  intros N. subst dir. unfold dirname. rewrite (head_nil _ N), (basename_id _ N).
  cbn. unfold Path.join. rewrite (no_slash_relative _ N). reflexivity.
Qed.

(** X18.  Tool A on a source named [name@3x.ext], with no other marker
    in [name]: the first file saved is the unchanged image under the
    source's own file name, and every further file is [name@2x.ext] or
    [name.ext] in the same directory. *)
Theorem ios_assets_marked_source (w : World) (image_path name : string)
    (img : Image) :
  open_image w image_path = Ok img ->
  fst (splitext (basename image_path)) = name ++ "@3x" ->
  has_sub "@3x" name = false ->
  let ext := snd (splitext (basename image_path)) in
  let dir := dirname image_path in
  exists rest,
    saves (fst (generate_ios_assets w image_path))
    = (Path.join dir (basename image_path), img) :: rest /\
    forall p im, In (p, im) rest ->
      p = Path.join dir (name ++ "@2x" ++ ext) \/ p = Path.join dir (name ++ ext).
Proof.
  intros Ho Hs Hm ext dir.
  destruct (splitext_plain _ (basename_no_slash image_path)) as (Eb & _ & _).
  fold ext in Eb.
  unfold generate_ios_assets. rewrite Ho.
  subst ext. destruct (splitext (basename image_path)) as [filename e].
  cbn [fst snd] in *. subst filename. rewrite (replace_marker_end _ Hm).
  rewrite append_assoc in Eb. rewrite Eb.
  destruct (resize img (width img / 3 * 2, height img / 3 * 2)) as [i2|e2].
  2:{ eexists. split; [reflexivity|]. intros p im []. }
  destruct (resize img (width img / 3, height img / 3)) as [i1|e1].
  - eexists. split; [reflexivity|]. intros p im [[= <- _]|[[= <- _]|[]]]; auto.
  - eexists. split; [reflexivity|]. intros p im [[= <- _]|[]]; auto.
Qed.

(** X19.  Tool A on an image with a side under 3 pixels: the 2x size has
    a zero side, so the call saves the [@3x] copy only and then fails with
    Pillow's size error; no 2x or 1x file is written. *)
Theorem ios_assets_tiny_image (w : World) (image_path : string) (img : Image) :
  open_image w image_path = Ok img ->
  decodable img ->
  width img < 3 \/ height img < 3 ->
  let stem := replace "@3x" "" (fst (splitext (basename image_path))) in
  let ext := snd (splitext (basename image_path)) in
  saves (fst (generate_ios_assets w image_path))
  = [(Path.join (dirname image_path) (stem ++ "@3x" ++ ext), img)] /\
  snd (generate_ios_assets w image_path) = Some BadImageSize.
Proof.
  intros Ho [Hw Hh] Hs stem ext. subst stem ext.
  unfold generate_ios_assets. rewrite Ho.
  destruct (splitext (basename image_path)) as [filename e]. cbn [fst snd].
  assert (R : resize img (width img / 3 * 2, height img / 3 * 2) = Raise BadImageSize).
  { unfold in_range, max_dim in *. unfold PIL.resize.
    pose proof (Z.div_pos (width img) 3 ltac:(lia) ltac:(lia)).
    pose proof (Z.div_pos (height img) 3 ltac:(lia) ltac:(lia)).
    pose proof (Z.mul_div_le (width img) 3 ltac:(lia)).
    pose proof (Z.mul_div_le (height img) 3 ltac:(lia)).
    assert (Z0 : width img / 3 = 0 \/ height img / 3 = 0).
    { destruct Hs; [left | right]; apply Z.div_small; lia. }
    replace ((width img / 3 * 2 =? width img) && (height img / 3 * 2 =? height img))
      with false.
    2:{ symmetry. apply andb_false_iff. destruct Z0 as [Z0|Z0]; [left | right];
          apply Z.eqb_neq; lia. }
    replace (c_int (width img / 3 * 2)) with true
      by (symmetry; apply c_int_spec; unfold max_dim; lia).
    replace (c_int (height img / 3 * 2)) with true
      by (symmetry; apply c_int_spec; unfold max_dim; lia).
    cbn [andb negb].
    replace ((width img / 3 * 2 <? 1) || (height img / 3 * 2 <? 1)) with true;
      [reflexivity|].
    symmetry. apply orb_true_iff. destruct Z0 as [Z0|Z0]; [left | right];
      apply Z.ltb_lt; lia. }
  rewrite R. split; reflexivity.
Qed.

(** X20.  The script of Tool A touches the file system exactly when
    [sys.argv] has three entries whose second is [-s]: it then runs
    [generate_ios_assets] on the third; for every other command line it
    prints the usage line and does nothing else. *)
Theorem image_shrinker_main_dispatch (w : World) (argv : list string) :
  ((exists ev, In ev (fst (image_shrinker_main resample w argv)) /\ is_effect ev = true)
   <-> exists prog path, argv = [prog; "-s"; path]) /\
  ((forall prog path, argv <> [prog; "-s"; path]) ->
   image_shrinker_main resample w argv = ([Stdout Usage], None)) /\
  (forall prog path,
     image_shrinker_main resample w [prog; "-s"; path] = generate_ios_assets w path).
Proof.
  assert (U : forall ev, In ev [Stdout Usage] -> is_effect ev = true -> False).
  { intros ev [<-|[]]. discriminate. }
  assert (O : forall path, In (OpenImage path) (fst (generate_ios_assets w path))).
  { intros path. unfold generate_ios_assets.
    destruct (open_image w path) as [img|e]; [|left; reflexivity].
    destruct (splitext (basename path)) as [filename ext].
    destruct (resize img (width img / 3 * 2, height img / 3 * 2));
      [|left; reflexivity].
    destruct (resize img (width img / 3, height img / 3)); left; reflexivity. }
  split; [split|split].
  - intros (ev & Hin & He).
    destruct argv as [|a [|b [|c [|d rest]]]]; cbn in Hin;
      try (exfalso; exact (U ev Hin He)).
    destruct (String.eqb_spec b "-s") as [->|_]; [eauto|].
    exfalso; exact (U ev Hin He).
  - intros (prog & path & ->). exists (OpenImage path). split; [|reflexivity].
    apply O.
  - intros N.
    destruct argv as [|a [|b [|c [|d rest]]]]; try reflexivity.
    cbn. destruct (String.eqb_spec b "-s") as [->|_]; [|reflexivity].
    exfalso. exact (N a c eq_refl).
  - intros prog path. reflexivity.
Qed.

End AssetFacts.

(** ** Exact geometry *)

Module TightFacts.

Import Float FloatFacts Geometry.
Local Open Scope Q_scope.

Local Abbreviation wide z := (1 <= z <= 2 ^ 33)%Z (only parsing).

(** Ratios compare as their cross products. *)
Lemma exact_ratio_le (a b c d : Z) :
  (1 <= b)%Z -> (1 <= d)%Z -> (a * d <= c * b)%Z ->
  exact_ratio a b <= exact_ratio c d.
Proof.
  intros Hb Hd H. unfold exact_ratio.
  destruct b as [|pb|pb]; try lia. destruct d as [|pd|pd]; try lia.
  rewrite <- !Qmake_Qdiv. unfold Qle; cbn [Qnum Qden]. exact H.
Qed.

(** An integer within less than one of another is that integer. *)
Lemma int_within_one (n t : Z) (X : Q) :
  X == inject_Z t -> Qabs (inject_Z n - X) < 1 -> n = t.
Proof.
  intros E H. rewrite E in H. apply Qabs_Qlt_condition in H as [H1 H2].
  assert (L1 : inject_Z (t - 1) < inject_Z n).
  { unfold Z.sub. rewrite inject_Z_plus, inject_Z_opp. change (inject_Z 1) with 1. lra. }
  assert (L2 : inject_Z n < inject_Z (t + 1)).
  { rewrite inject_Z_plus. change (inject_Z 1) with 1. lra. }
  rewrite <- Zlt_Qlt in L1, L2. lia.
Qed.

Lemma fit_scale_spec (ow oh tw th : Z) :
  wide ow -> wide oh ->
  ((tw * oh <= th * ow)%Z ->
   inject_Z ow * exact_fit_scale ow oh tw th == inject_Z tw) /\
  ((th * ow <= tw * oh)%Z ->
   inject_Z oh * exact_fit_scale ow oh tw th == inject_Z th).
Proof.
  intros How Hoh. unfold exact_fit_scale. split; intros H.
  - rewrite Q.min_l by (apply exact_ratio_le; lia).
    unfold exact_ratio. apply mul_quot. lia.
  - rewrite Q.min_r by (apply exact_ratio_le; lia).
    unfold exact_ratio. apply mul_quot. lia.
Qed.

Lemma cover_scale_spec (ow oh tw th : Z) :
  wide ow -> wide oh ->
  ((th * ow <= tw * oh)%Z ->
   inject_Z ow * exact_cover_scale ow oh tw th == inject_Z tw) /\
  ((tw * oh <= th * ow)%Z ->
   inject_Z oh * exact_cover_scale ow oh tw th == inject_Z th).
Proof.
  intros How Hoh. unfold exact_cover_scale. split; intros H.
  - rewrite Q.max_l by (apply exact_ratio_le; lia).
    unfold exact_ratio. apply mul_quot. lia.
  - rewrite Q.max_r by (apply exact_ratio_le; lia).
    unfold exact_ratio. apply mul_quot. lia.
Qed.

(** Fitting is exact on the axis with the smaller ratio. *)
Lemma pad_tight (ow oh tw th : Z) :
  wide ow -> wide oh -> wide tw -> wide th ->
  exists sx sy nw nh,
    true_div tw ow = Ok sx /\ true_div th oh = Ok sy /\
    scaled ow (fmin sx sy) = Ok nw /\ scaled oh (fmin sx sy) = Ok nh /\
    (1 <= nw <= tw)%Z /\ (1 <= nh <= th)%Z /\
    ((tw * oh <= th * ow)%Z -> nw = tw) /\
    ((th * ow <= tw * oh)%Z -> nh = th).
Proof.
  intros How Hoh Htw Hth.
  destruct (pad_geometry ow oh tw th How Hoh Htw Hth)
    as (sx & sy & nw & nh & Ex & Ey & Enw & Enh & Bw & Bh & _ & Dw & Dh).
  destruct (fit_scale_spec ow oh tw th How Hoh) as [Sw Sh].
  exists sx, sy, nw, nh. repeat (split; [assumption|]). split; intros H.
  - eapply int_within_one; [apply Sw; exact H | exact Dw].
  - eapply int_within_one; [apply Sh; exact H | exact Dh].
Qed.

(** Covering is exact on the axis with the larger ratio. *)
Lemma crop_tight (ow oh tw th : Z) :
  wide ow -> wide oh -> wide tw -> wide th ->
  exists sx sy nw nh,
    true_div tw ow = Ok sx /\ true_div th oh = Ok sy /\
    scaled ow (fmax sx sy) = Ok nw /\ scaled oh (fmax sx sy) = Ok nh /\
    (tw <= nw)%Z /\ (th <= nh)%Z /\
    ((th * ow <= tw * oh)%Z -> nw = tw) /\
    ((tw * oh <= th * ow)%Z -> nh = th).
Proof.
  intros How Hoh Htw Hth.
  destruct (crop_geometry ow oh tw th How Hoh Htw Hth)
    as (sx & sy & nw & nh & Ex & Ey & Enw & Enh & As & Bw & Bh).
  pose proof (quot_bounds tw ow Htw How) as Bx.
  pose proof (quot_bounds th oh Hth Hoh) as By.
  fold (exact_ratio tw ow) in Bx. fold (exact_ratio th oh) in By.
  assert (BS : / M <= exact_cover_scale ow oh tw th <= M).
  { unfold exact_cover_scale.
    destruct (Q.max_spec (exact_ratio tw ow) (exact_ratio th oh)) as [[_ E]|[_ E]];
      rewrite E; assumption. }
  destruct (cover_scale_spec ow oh tw th How Hoh) as [Sw Sh].
  exists sx, sy, nw, nh. repeat (split; [assumption|]). split; intros H.
  - assert (Lx : inject_Z ow * exact_cover_scale ow oh tw th <= inject_Z tw)
      by (rewrite (Sw H); apply Qle_refl).
    destruct (scaled_fit ow tw _ _ How Htw BS Lx As) as (n & En & Bn & _).
    rewrite Enw in En. injection En as <-. lia.
  - assert (Ly : inject_Z oh * exact_cover_scale ow oh tw th <= inject_Z th)
      by (rewrite (Sh H); apply Qle_refl).
    destruct (scaled_fit oh th _ _ Hoh Hth BS Ly As) as (n & En & Bn & _).
    rewrite Enh in En. injection En as <-. lia.
Qed.

End TightFacts.

Section StrategyFacts.

Import PIL TightFacts.
Local Open Scope Z_scope.

Variable resample : Image -> Z -> Z -> Z -> Z -> Pixel.
Variable convert_pixel : Mode -> Mode -> Pixel -> Pixel.

Local Abbreviation oriented_rgb := (oriented_rgb convert_pixel).
Local Abbreviation fit_and_pad := (fit_and_pad resample convert_pixel).
Local Abbreviation cover_and_crop := (cover_and_crop resample convert_pixel).
Local Abbreviation stretch_resize := (stretch_resize resample convert_pixel).
Local Abbreviation apply_layout := (apply_layout resample convert_pixel).
Local Abbreviation resize := (PIL.resize resample).
Local Abbreviation paste := (PIL.paste convert_pixel).

Lemma half_split (d : Z) : 0 <= d -> 0 <= d - d / 2 - d / 2 <= 1.
Proof.
  intros H. pose proof (Z.div_mod d 2 ltac:(lia)).
  pose proof (Z.mod_pos_bound d 2 ltac:(lia)). lia.
Qed.

(** X21.  Pad mode on a decodable source: the resized content is as wide
    as the canvas when [tw / ow <= th / oh], and as high when
    [th / oh <= tw / ow] (compared exactly, as cross products), so borders
    appear on one axis at most; and the content is centred: the right and
    lower borders exceed the left and upper ones by at most one pixel. *)
Theorem fit_and_pad_borders im tw th bg out :
  decodable im -> 1 <= tw -> 1 <= th ->
  fit_and_pad im (tw, th) bg = Ok out ->
  let src := oriented_rgb im in
  let ow := width src in
  let oh := height src in
  exists sx sy nw nh,
    true_div tw ow = Ok sx /\ true_div th oh = Ok sy /\
    scaled ow (Float.fmin sx sy) = Ok nw /\
    scaled oh (Float.fmin sx sy) = Ok nh /\
    (tw * oh <= th * ow -> nw = tw) /\
    (th * ow <= tw * oh -> nh = th) /\
    (nw = tw \/ nh = th) /\
    let x := (tw - nw) / 2 in
    let y := (th - nh) / 2 in
    0 <= (tw - nw - x) - x <= 1 /\ 0 <= (th - nh - y) - y <= 1.
Proof.
  intros Him Htw Hth H src ow oh.
  apply fit_and_pad_inv in H
    as (sx & sy & nw & nh & resized & canvas & Ex & Ey & Enw & Enh & Er & Ec & ->).
  fold src in Ex, Ey, Enw, Enh, Er. fold ow oh in Ex, Ey, Enw, Enh.
  apply new_inv in Ec as ([Mw Mh] & _).
  destruct (oriented_rgb_decodable convert_pixel im Him) as [How Hoh].
  fold src ow oh in How, Hoh.
  destruct (pad_tight ow oh tw th)
    as (sx' & sy' & nw' & nh' & Ex' & Ey' & Enw' & Enh' & Bw & Bh & Tw & Th);
    try (apply Geometry.in_range_wide; first [assumption | unfold in_range; lia]).
  rewrite Ex in Ex'. apply Ok_inj in Ex'. subst sx'.
  rewrite Ey in Ey'. apply Ok_inj in Ey'. subst sy'.
  rewrite Enw in Enw'. apply Ok_inj in Enw'. subst nw'.
  rewrite Enh in Enh'. apply Ok_inj in Enh'. subst nh'.
  exists sx, sy, nw, nh.
  repeat (split; [assumption|]).
  split. { destruct (Z.le_ge_cases (tw * oh) (th * ow)); [left | right]; auto. }
  intros x y. subst x y. split; apply half_split; lia.
Qed.

(** X22.  Crop mode on a decodable source: the resized image is exactly
    as wide as the target when [tw / ow >= th / oh], and as high when
    [th / oh >= tw / ow], so pixels are cut off on one axis at most; and the
    window is centred: what is cut at the right or bottom exceeds what is
    cut at the left or top by at most one pixel. *)
Theorem cover_and_crop_trims im tw th out :
  decodable im -> 1 <= tw -> 1 <= th ->
  cover_and_crop im (tw, th) = Ok out ->
  let src := oriented_rgb im in
  let ow := width src in
  let oh := height src in
  exists sx sy nw nh,
    true_div tw ow = Ok sx /\ true_div th oh = Ok sy /\
    scaled ow (Float.fmax sx sy) = Ok nw /\
    scaled oh (Float.fmax sx sy) = Ok nh /\
    (th * ow <= tw * oh -> nw = tw) /\
    (tw * oh <= th * ow -> nh = th) /\
    (nw = tw \/ nh = th) /\
    let x := (nw - tw) / 2 in
    let y := (nh - th) / 2 in
    0 <= (nw - tw - x) - x <= 1 /\ 0 <= (nh - th - y) - y <= 1.
Proof.
  intros Him Htw Hth H src ow oh.
  apply cover_and_crop_inv in H
    as (sx & sy & nw & nh & resized & Ex & Ey & Enw & Enh & Er & Ec).
  fold src in Ex, Ey, Enw, Enh, Er. fold ow oh in Ex, Ey, Enw, Enh.
  pose proof (oriented_rgb_decodable convert_pixel im Him) as Hsrc. fold src in Hsrc.
  destruct Hsrc as [How Hoh]. fold ow oh in How, Hoh.
  destruct (resize_range resample src resized nw nh (conj How Hoh) Er) as [Rw Rh].
  apply crop_inv in Ec as (_ & (X0 & X1 & Y0 & Y1) & _).
  assert (Ww : 1 <= tw <= 2 ^ 33) by (unfold in_range, max_dim in *; lia).
  assert (Wh : 1 <= th <= 2 ^ 33) by (unfold in_range, max_dim in *; lia).
  destruct (crop_tight ow oh tw th
              (Geometry.in_range_wide _ How) (Geometry.in_range_wide _ Hoh) Ww Wh)
    as (sx' & sy' & nw' & nh' & Ex' & Ey' & Enw' & Enh' & Bw & Bh & Tw & Th).
  rewrite Ex in Ex'. apply Ok_inj in Ex'. subst sx'.
  rewrite Ey in Ey'. apply Ok_inj in Ey'. subst sy'.
  rewrite Enw in Enw'. apply Ok_inj in Enw'. subst nw'.
  rewrite Enh in Enh'. apply Ok_inj in Enh'. subst nh'.
  exists sx, sy, nw, nh.
  repeat (split; [assumption|]).
  split. { destruct (Z.le_ge_cases (tw * oh) (th * ow)); [right | left]; auto. }
  intros x y. subst x y. split; apply half_split; lia.
Qed.

(** With equal aspect ratios the three strategies resize to the target
    itself. *)
Lemma equal_aspect_steps im tw th bg :
  decodable im -> in_range tw -> in_range th ->
  let src := oriented_rgb im in
  tw * height src = th * width src ->
  exists r p c,
    resize src (tw, th) = Ok r /\
    fit_and_pad im (tw, th) bg = Ok p /\
    cover_and_crop im (tw, th) = Ok c /\
    forall i j, 0 <= i < tw -> 0 <= j < th ->
      pixel c i j = pixel r i j /\
      pixel p i j = if mode_eqb (mode r) RGB then pixel r i j
                    else convert_pixel (mode r) RGB (pixel r i j).
Proof.
  intros Him Htw Hth src Hr.
  destruct (oriented_rgb_decodable convert_pixel im Him) as [How Hoh].
  fold src in How, Hoh.
  pose proof (Geometry.in_range_wide _ How) as Wow.
  pose proof (Geometry.in_range_wide _ Hoh) as Woh.
  pose proof (Geometry.in_range_wide _ Htw) as Wtw.
  pose proof (Geometry.in_range_wide _ Hth) as Wth.
  destruct (resize_ok resample src tw th Htw Hth) as [r Er].
  destruct (pad_tight (width src) (height src) tw th Wow Woh Wtw Wth)
    as (sx & sy & nw & nh & Ex & Ey & Enw & Enh & _ & _ & Tw & Th).
  rewrite (Tw ltac:(lia)) in Enw. rewrite (Th ltac:(lia)) in Enh. clear Tw Th nw nh.
  destruct (crop_tight (width src) (height src) tw th Wow Woh Wtw Wth)
    as (sx' & sy' & nw & nh & Ex' & Ey' & Cnw & Cnh & _ & _ & Tw & Th).
  rewrite (Tw ltac:(lia)) in Cnw. rewrite (Th ltac:(lia)) in Cnh. clear Tw Th nw nh.
  rewrite Ex in Ex'. apply Ok_inj in Ex'. subst sx'.
  rewrite Ey in Ey'. apply Ok_inj in Ey'. subst sy'.
  destruct (new_ok RGB tw th (color_pixel bg)) as [canvas Ec];
    try (unfold in_range in *; lia).
  destruct (crop_ok r 0 0 tw th) as [c Ecr];
    try (unfold in_range, max_dim in *; lia).
  assert (D : (tw - tw) / 2 = 0 /\ (th - th) / 2 = 0)
    by (rewrite !Z.sub_diag; split; reflexivity).
  destruct D as [Dw Dh].
  exists r, (paste canvas r (0, 0)), c.
  split; [exact Er|].
  split.
  { unfold fit_and_pad. cbn [size]. fold src.
    rewrite Ex, Ey; cbn [bind]. rewrite Enw, Enh; cbn [bind].
    rewrite Er; cbn [bind]. rewrite Ec; cbn [bind]. rewrite Dw, Dh. reflexivity. }
  split.
  { unfold cover_and_crop. cbn [size]. fold src.
    rewrite Ex, Ey; cbn [bind]. rewrite Cnw, Cnh; cbn [bind].
    rewrite Er; cbn [bind]. rewrite Dw, Dh. exact Ecr. }
  intros i j Hi Hj.
  pose proof (resize_size _ _ _ _ _ Er) as Sr. injection Sr as Sw Sh.
  apply new_inv in Ec as (_ & Mc & _).
  apply crop_inv in Ecr as (_ & _ & _ & _ & Pc).
  split.
  - rewrite Pc, Sw, Sh. cbn [Z.add].
    destruct (Z.leb_spec 0 i); [|lia]. destruct (Z.ltb_spec i tw); [|lia].
    destruct (Z.leb_spec 0 j); [|lia]. destruct (Z.ltb_spec j th); [|lia].
    reflexivity.
  - unfold PIL.paste. cbn [pixel]. rewrite Sw, Sh, Mc, !Z.sub_0_r. cbn [Z.add].
    destruct (Z.leb_spec 0 i); [|lia]. destruct (Z.ltb_spec i tw); [|lia].
    destruct (Z.leb_spec 0 j); [|lia]. destruct (Z.ltb_spec j th); [|lia].
    reflexivity.
Qed.


(** X23.  When source and target have the same aspect ratio
    ([tw * oh = th * ow]), the three strategies return, and they show the
    same picture: crop returns the pixels of the stretched image, and pad
    returns them converted to RGB, with no border. *)
Theorem layouts_agree_on_equal_aspect im tw th bg :
  decodable im -> in_range tw -> in_range th ->
  let src := oriented_rgb im in
  tw * height src = th * width src ->
  exists r p c,
    stretch_resize im (tw, th) = Ok r /\
    fit_and_pad im (tw, th) bg = Ok p /\
    cover_and_crop im (tw, th) = Ok c /\
    forall i j, 0 <= i < tw -> 0 <= j < th ->
      pixel c i j = pixel r i j /\
      pixel p i j = if mode_eqb (mode r) RGB then pixel r i j
                    else convert_pixel (mode r) RGB (pixel r i j).
Proof.
  intros Him Htw Hth src Hr.
  destruct (equal_aspect_steps im tw th bg Him Htw Hth Hr)
    as (r & p & c & Er & Ep & Ec & Px).
  exists r, p, c. auto.
Qed.

(** X24.  For a target equal to the orientation-corrected size of the
    source nothing is resampled: crop and stretch return the source's
    pixels, and pad returns them on an RGB canvas. *)
Theorem layout_identity_at_own_size (m : LayoutMode) im bg :
  decodable im ->
  let src := oriented_rgb im in
  exists out,
    apply_layout m im (size src) bg = Ok out /\
    forall i j, 0 <= i < width src -> 0 <= j < height src ->
      pixel out i j
      = match m with
        | Pad => if mode_eqb (mode src) RGB then pixel src i j
                 else convert_pixel (mode src) RGB (pixel src i j)
        | Crop | Stretch => pixel src i j
        end.
Proof.
  intros Him src.
  destruct (oriented_rgb_decodable convert_pixel im Him) as [How Hoh].
  fold src in How, Hoh.
  destruct (equal_aspect_steps im (width src) (height src) bg Him How Hoh)
    as (r & p & c & Er & Ep & Ec & Px); [fold src; lia|].
  fold src in Er.
  assert (E : r = src).
  { unfold PIL.resize in Er. rewrite !Z.eqb_refl in Er. cbn [andb] in Er.
    now injection Er as <-. }
  subst r. unfold size. fold src.
  destruct m; unfold apply_layout.
  - exists p. split; [exact Ep|]. intros i j Hi Hj. apply Px; assumption.
  - exists c. split; [exact Ec|]. intros i j Hi Hj. apply Px; assumption.
  - exists src. split; [|reflexivity].
    unfold stretch_resize. fold src. exact Er.
Qed.

(** X25.  No strategy returns an image for a negative target width or
    height, and stretch returns none for a zero one either: whenever a
    strategy returns, both target dimensions are at least 0, and at least 1
    for stretch. *)
Theorem layout_rejects_negative_target (m : LayoutMode) im tw th bg out :
  decodable im ->
  apply_layout m im (tw, th) bg = Ok out ->
  0 <= tw /\ 0 <= th /\ (m = Stretch -> 1 <= tw /\ 1 <= th).
Proof.
  intros Him H.
  destruct (oriented_rgb_decodable convert_pixel im Him) as [How Hoh].
  destruct m; unfold apply_layout in H.
  - apply fit_and_pad_inv in H
      as (sx & sy & nw & nh & resized & canvas & _ & _ & _ & _ & _ & Ec & _).
    apply new_inv in Ec as ([Mw Mh] & _). repeat split; try lia; discriminate.
  - apply cover_and_crop_inv in H
      as (sx & sy & nw & nh & resized & _ & _ & _ & _ & _ & Ec).
    apply crop_inv in Ec as ([Cw Ch] & _). repeat split; try lia; discriminate.
  - unfold stretch_resize in H.
    destruct (resize_range resample _ _ _ _ (conj How Hoh) H) as [Rw Rh].
    unfold in_range in *. repeat split; lia.
Qed.

Lemma exif_transpose_idem (im : Image) :
  exif_transpose (exif_transpose im) = exif_transpose im.
Proof.
  unfold exif_transpose at 2 3.
  destruct (exif_method (orientation im)) eqn:E; [reflexivity|].
  unfold exif_transpose. now rewrite E.
Qed.

(** X26.  The strategies see an image only through [exif_transpose]:
    correcting the orientation beforehand changes no output and no
    exception. *)
Theorem layout_after_exif_transpose (m : LayoutMode) im target bg :
  apply_layout m (exif_transpose im) target bg = apply_layout m im target bg.
Proof.
  assert (E : oriented_rgb (exif_transpose im) = oriented_rgb im).
  { unfold oriented_rgb. now rewrite exif_transpose_idem. }
  destruct target as [tw th].
  destruct m; unfold apply_layout, fit_and_pad,
    cover_and_crop, stretch_resize; rewrite E; reflexivity.
Qed.

End StrategyFacts.

(** ** The further properties at concrete inputs *)

Lemma parse_sizes_count_witness :
  parse_sizes "1290x2796,1320x2868" = Ok [(1290, 2796); (1320, 2868)] /\
  List.length [(1290, 2796); (1320, 2868)]
  = List.length (Str.split "," "1290x2796,1320x2868").
Proof.
  split; [reflexivity|].
  apply (ParseFacts.parse_sizes_count "1290x2796,1320x2868"
           [(1290, 2796); (1320, 2868)]).
  reflexivity.
Defined.

Lemma parse_sizes_round_trip_witness :
  [(1290, 2796); (-5, 0)] <> [] /\
  parse_sizes "1290x2796,-5x0" = Ok [(1290, 2796); (-5, 0)].
Proof.
  split; [discriminate|].
  apply (ParseFacts.parse_sizes_round_trip [(1290, 2796); (-5, 0)]). discriminate.
Defined.

Lemma parse_hex_color_six_digits_witness :
  parse_hex_color "#1a2B3c" = Ok (26, 43, 60) /\
  parse_hex_color "1a2B3c" = Ok (26, 43, 60).
Proof.
  destruct (ColourFacts.parse_hex_color_six_digits
              "1" "a" "2" "B" "3" "c" 1 10 2 11 3 12
              eq_refl eq_refl eq_refl eq_refl eq_refl eq_refl) as (H1 & H2 & _).
  split; [exact H1 | exact H2].
Defined.

Lemma parse_hex_color_three_digits_witness :
  parse_hex_color "#fF0" = Ok (255, 255, 0) /\
  parse_hex_color "#fF0" = parse_hex_color "#ffFF00".
Proof.
  destruct (ColourFacts.parse_hex_color_three_digits "f" "F" "0" 15 15 0
              eq_refl eq_refl eq_refl) as (H1 & _ & H3).
  split; [exact H1 | exact H3].
Defined.

Lemma parse_hex_color_bound_witness :
  parse_hex_color "#-f+f-0" = Ok (-15, 15, 0) /\ -255 <= -15 <= 255.
Proof.
  split; [reflexivity|].
  apply (ColourFacts.parse_hex_color_bound "#-f+f-0" (-15) 15 0). reflexivity.
Defined.

Lemma main_error_stream_witness :
  fst (main nearest_neighbour to_mode world
         (mkArgs ["x.png"; "y.png"] "out" "8x8" Stretch "#000" "png" false)) = 0 /\
  saves (snd (main nearest_neighbour to_mode world
                (mkArgs ["x.png"; "y.png"] "out" "8x8" Stretch "#000" "png" false)))
  = [].
Proof.
  split; [reflexivity|].
  destruct (main_error_stream nearest_neighbour to_mode world
              (mkArgs ["x.png"; "y.png"] "out" "8x8" Stretch "#000" "png" false)
              eq_refl) as (_ & _ & H).
  apply H. intros p [<-|[<-|[]]]; reflexivity.
Defined.

Lemma stretch_run_saves :
  exists p im q o,
    In (SaveFile p im q o) (snd (main nearest_neighbour to_mode world stretch_args)).
Proof. vm_compute. do 4 eexists. right; right; left. reflexivity. Defined.

Lemma main_saves_match_names_witness :
  exists p im t land,
    In (p, im) (saves (snd (main nearest_neighbour to_mode world stretch_args))) /\
    p = output_path "out" "jpg" "shots/more/B.JPG" t land /\
    size im = if land then (snd t, fst t) else t.
Proof.
  destruct stretch_run_saves as (p & im & q & o & H).
  assert (S : In (p, im) (saves (snd (main nearest_neighbour to_mode world stretch_args)))).
  { apply in_saves. eauto. }
  destruct (main_saves_match_names nearest_neighbour to_mode world stretch_args p im S)
    as (targets & source & t & land & _ & Hs & _ & _ & Ep & Es).
  destruct Hs as [<-|[]].
  exists p, im, t, land. auto.
Defined.

Lemma main_jpeg_has_no_alpha_witness :
  exists p im q o,
    In (SaveFile p im q o) (snd (main nearest_neighbour to_mode world stretch_args)) /\
    mode rgba_icon = RGBA /\ mode im = RGB /\ q = Some 95.
Proof.
  destruct stretch_run_saves as (p & im & q & o & H).
  exists p, im, q, o. split; [exact H|]. split; [reflexivity|].
  pose proof (main_jpeg_has_no_alpha nearest_neighbour to_mode world stretch_args
                p im q o H) as M.
  cbn in M. tauto.
Defined.



Lemma output_path_direct_child_witness :
  In "png" ["png"; "jpg"; "jpeg"] /\
  output_path "out" "png" "shots/more/B.JPG" (1290, 2796) true
  = "out/B_2796x1290_landscape.png".
Proof.
  split; [left; reflexivity|].
  destruct (NameFacts.output_path_direct_child "out" "png" "shots/more/B.JPG"
              (1290, 2796) true (or_introl eq_refl)) as [E _].
  exact E.
Defined.

Lemma ios_assets_replace_unmarked_source_witness :
  open_image world "shots/a.png" = Ok screenshot /\
  exists img_2x img_1x,
    saves (fst (generate_ios_assets nearest_neighbour world "shots/a.png"))
    = [("shots/a@3x.png", screenshot); ("shots/a@2x.png", img_2x);
       ("shots/a.png", img_1x)] /\
    size img_1x = (393, 852).
Proof.
  split; [reflexivity|].
  destruct (ios_assets_replace_unmarked_source nearest_neighbour world "shots/a.png"
              screenshot eq_refl eq_refl)
    as (i2 & i1 & E & S & _); [unfold max_dim; cbn; lia | unfold max_dim; cbn; lia |].
  exists i2, i1. split; [exact E | exact S].
Defined.

Lemma ios_assets_marked_source_witness :
  open_image world "img/icon@3x.png" = Ok icon /\
  exists rest,
    saves (fst (generate_ios_assets nearest_neighbour world "img/icon@3x.png"))
    = ("img/icon@3x.png", icon) :: rest /\
    forall p im, In (p, im) rest -> p = "img/icon@2x.png" \/ p = "img/icon.png".
Proof.
  split; [reflexivity|].
  exact (ios_assets_marked_source nearest_neighbour world "img/icon@3x.png" "icon"
           icon eq_refl eq_refl eq_refl).
Defined.

Lemma ios_assets_tiny_image_witness :
  decodable thumb /\
  saves (fst (generate_ios_assets nearest_neighbour thumb_world "t.png"))
  = [("t@3x.png", thumb)] /\
  snd (generate_ios_assets nearest_neighbour thumb_world "t.png") = Some BadImageSize.
Proof.
  assert (D : decodable thumb) by (unfold decodable, in_range, max_dim; cbn; lia).
  split; [exact D|].
  apply (ios_assets_tiny_image nearest_neighbour thumb_world "t.png" thumb eq_refl D).
  left. cbn. lia.
Defined.

Lemma icon_cover_in_range :
  cover_in_range (width (oriented_rgb to_mode rgba_icon))
    (height (oriented_rgb to_mode rgba_icon)) 8 8.
Proof. split; vm_compute; discriminate. Defined.

Lemma fit_and_pad_borders_witness :
  decodable rgba_icon /\
  exists out nw nh,
    fit_and_pad nearest_neighbour to_mode rgba_icon (8, 8) (0, 0, 0) = Ok out /\
    (8 * 6 <= 8 * 4 -> nw = 8) /\ (8 * 4 <= 8 * 6 -> nh = 8).
Proof.
  split; [apply icons_decodable|].
  destruct (fit_and_pad_total nearest_neighbour to_mode rgba_icon 8 8 (0, 0, 0))
    as [out E];
    [apply icons_decodable | unfold in_range, max_dim; lia
    | unfold in_range, max_dim; lia |].
  destruct (fit_and_pad_borders nearest_neighbour to_mode rgba_icon 8 8 (0, 0, 0) out
              (proj1 icons_decodable) ltac:(lia) ltac:(lia) E)
    as (sx & sy & nw & nh & _ & _ & _ & _ & Tw & Th & _).
  exists out, nw, nh. split; [exact E|]. split; [exact Tw | exact Th].
Defined.

Lemma cover_and_crop_trims_witness :
  decodable rgba_icon /\
  exists out nw nh,
    cover_and_crop nearest_neighbour to_mode rgba_icon (8, 8) = Ok out /\
    (nw = 8 \/ nh = 8).
Proof.
  split; [apply icons_decodable|].
  destruct (cover_and_crop_total nearest_neighbour to_mode rgba_icon 8 8)
    as [out E];
    [apply icons_decodable | unfold in_range, max_dim; lia
    | unfold in_range, max_dim; lia | exact icon_cover_in_range |].
  destruct (cover_and_crop_trims nearest_neighbour to_mode rgba_icon 8 8 out
              (proj1 icons_decodable) ltac:(lia) ltac:(lia) E)
    as (sx & sy & nw & nh & _ & _ & _ & _ & _ & _ & T & _).
  exists out, nw, nh. split; [exact E | exact T].
Defined.

Lemma layouts_agree_on_equal_aspect_witness :
  (decodable rgba_icon /\ in_range 8 /\ in_range 12) /\
  exists r p c,
    stretch_resize nearest_neighbour to_mode rgba_icon (8, 12) = Ok r /\
    fit_and_pad nearest_neighbour to_mode rgba_icon (8, 12) (0, 0, 0) = Ok p /\
    cover_and_crop nearest_neighbour to_mode rgba_icon (8, 12) = Ok c /\
    pixel c 0 0 = pixel r 0 0.
Proof.
  assert (R8 : in_range 8) by (unfold in_range, max_dim; lia).
  assert (R12 : in_range 12) by (unfold in_range, max_dim; lia).
  split; [split; [apply icons_decodable | split; assumption]|].
  destruct (layouts_agree_on_equal_aspect nearest_neighbour to_mode rgba_icon 8 12
              (0, 0, 0) (proj1 icons_decodable) R8 R12 eq_refl)
    as (r & p & c & Er & Ep & Ec & Px).
  exists r, p, c. repeat split; try assumption.
  apply (Px 0 0); lia.
Defined.

Lemma layout_identity_at_own_size_witness :
  decodable rgba_icon /\
  exists out,
    apply_layout nearest_neighbour to_mode Crop rgba_icon (4, 6) (0, 0, 0) = Ok out /\
    pixel out 1 2 = [1; 2; 3; 128].
Proof.
  split; [apply icons_decodable|].
  destruct (layout_identity_at_own_size nearest_neighbour to_mode Crop rgba_icon
              (0, 0, 0) (proj1 icons_decodable)) as (out & E & Px).
  exists out. split; [exact E|].
  rewrite (Px 1 2); [reflexivity | cbn; lia | cbn; lia].
Defined.

Lemma layout_rejects_negative_target_witness :
  decodable rgba_icon /\
  exists out,
    apply_layout nearest_neighbour to_mode Stretch rgba_icon (8, 8) (0, 0, 0)
      = Ok out /\
    0 <= 8.
Proof.
  split; [apply icons_decodable|].
  destruct stretch_rgba_icon as [out E].
  exists out. split; [exact E|].
  exact (proj1 (layout_rejects_negative_target nearest_neighbour to_mode Stretch
                  rgba_icon 8 8 (0, 0, 0) out (proj1 icons_decodable) E)).
Defined.

Lemma main_creates_outdir_first_witness :
  fst (main nearest_neighbour to_mode world stretch_args) = 0 /\
  exists rest,
    snd (main nearest_neighbour to_mode world stretch_args) = MakeDirs "out" :: rest.
Proof.
  split; [reflexivity|].
  destruct (main_creates_outdir_first nearest_neighbour to_mode world stretch_args
              eq_refl) as (rest & E & _).
  exists rest. exact E.
Defined.
